(** * CharmVault: the vault transaction pipeline, embedded and verified

    A shallow embedding of the TypeScript services of the CharmVault front end

      - [services/utxoLockService.ts]      (module [UTXOLockService])
      - [services/charms/spellBuilder.ts]  (module [SpellBuilder])
      - [services/bitcoin/psbtHelper.ts]   (module [PsbtHelper])
      - [services/charms/proverClient.ts]  (module [ProverClient])
      - [services/charms/vaultService.ts]  (module [VaultService])

    JavaScript numbers that hold satoshi amounts, block heights, percentages
    and epoch milliseconds are integers in every call the services make; they
    are modelled as [Z] (exact, below 2^53).  A number that need not be an
    integer (an amount in BTC, a fee rate, a duration) is a double, given by
    the rational it denotes; a multiplication or division of such numbers
    rounds its exact result to the nearest double ([Double.round]).
    [Date.now()] is an explicit argument of the synchronous lock-registry
    functions. *)

From Stdlib Require Import ZArith QArith Qround Qminmax Qabs Qpower List Lia Lqa
  Ascii.
From stdpp Require Import base strings list gmap pretty.

Set Warnings "-register-all".

Local Open Scope string_scope.
Local Open Scope Z_scope.
Local Open Scope list_scope.

(** ** Doubles

    A JavaScript number is an IEEE 754 binary64 value: a sign, a significand
    of 53 bits and a power of two, no unit in the last place being smaller
    than [2^-1074].  The result of an arithmetic operation is the double
    nearest to the exact result, the one with the even significand when two
    are equally near.  Results beyond the largest double (about 1.8e308),
    which JavaScript turns into [Infinity], are outside this model. *)

Module Double.

(** The [e] with [2^e <= |q| < 2^(e+1)], for a [q] other than 0. *)
Definition exponent (q : Q) : Z :=
  let e := Z.log2 (Z.abs (Qnum q)) - Z.log2 (Zpos (Qden q)) in
  if Qle_bool (2 ^ e) (Qabs q) then e else e - 1.

(** The exponent of the unit in the last place of the doubles around [q]. *)
Definition scale (q : Q) : Z := Z.max (exponent q - 52) (-1074).

(** The nearest integer, the even one of two that are equally near. *)
Definition nearestEven (q : Q) : Z :=
  let k := Qfloor q in
  match (q - inject_Z k ?= 1 # 2)%Q with
  | Lt => k
  | Eq => if Z.even k then k else k + 1
  | Gt => k + 1
  end.

(** The nearest multiple of [2^s]. *)
Definition roundTo (s : Z) (q : Q) : Q :=
  (inject_Z (nearestEven (q / 2 ^ s)) * 2 ^ s)%Q.

(** The double nearest to [q]. *)
Definition round (q : Q) : Q :=
  let magnitude := roundTo (scale q) (Qabs q) in
  if Qle_bool 0 q then magnitude else (- magnitude)%Q.

End Double.

(** ** Shared types ([types/charms.ts])

    Two interfaces of the source may use one field name; a Rocq field name is
    global, so the later record takes a short prefix ([out_address],
    [vault_status], ...). *)

Record UTXO := {
  txid : string;
  vout : Z;
  value : Z;
  scriptPubKey : string;
}.

Record WalletState := {
  connected : bool;
  wallet_address : string;
  publicKey : string;
  balance : Z;
  utxos : list UTXO;
}.

Record Beneficiary := {
  address : string;
  percentage : Z;
}.

Inductive InheritanceStatus := Active | Triggered | Distributed.

#[global] Instance InheritanceStatus_eq_dec : EqDecision InheritanceStatus.
Proof. solve_decision. Defined.

Record InheritanceContent := {
  owner_pubkey : string;
  last_checkin_block : Z;
  trigger_delay_blocks : Z;
  beneficiaries : list Beneficiary;
  status : InheritanceStatus;
}.

(** [charms?: { [key: string]: any }]: [None] is an absent field, [Some ∅]
    the empty object [{}]. *)
Abbreviation Charms := (option (gmap string InheritanceContent)).

Record SpellInput := {
  utxo_id : string;
  in_charms : Charms;
}.

Record SpellOutput := {
  out_address : string;
  sats : Z;
  out_charms : Charms;
}.

Record SpellJSON := {
  version : Z;
  apps : gmap string string;
  ins : list SpellInput;
  outs : list SpellOutput;
  private_inputs : option (gmap string string);
}.

Record ProverRequest := {
  spell : SpellJSON;
  binaries : gmap string string;
  prev_txs : list string;
  funding_utxo : string;
  funding_utxo_value : Z;
  change_address : string;
  fee_rate : Q;
  chain : string;
}.

Inductive TransactionType := tx_create | tx_checkin | tx_update | tx_distribute.

Record VaultTransaction := {
  vt_txid : string;
  vt_type : TransactionType;
  timestamp : Z;
  blockHeight : Z;
  confirmations : Z;
}.

(** The client-side vault record.  [lockedBTC] is a double; the dates, ISO
    strings in the source, are kept as the epoch milliseconds they print. *)
Record Vault := {
  id : string;
  vault_type : string;
  vault_status : InheritanceStatus;
  lockedBTC : Q;
  unlockDate : Z;
  unlockBlock : Z;
  createdAt : Z;
  createdBlock : Z;
  vault_beneficiaries : list Beneficiary;
  ownerPubkey : string;
  triggerDelayBlocks : Z;
  transactions : list VaultTransaction;
}.

Record CreateVaultParams := {
  cv_amount : Z;
  cv_fundingUTXO : UTXO;
  cv_ownerPubkey : string;
  cv_beneficiaries : list Beneficiary;
  cv_triggerDelayBlocks : Z;
  cv_changeAddress : string;
  cv_feeRate : Q;
}.

Record CheckinParams := {
  ci_vaultUTXO : UTXO;
  ci_vaultCharm : InheritanceContent;
  ci_ownerPubkey : string;
  ci_currentBlock : Z;
  ci_changeAddress : string;
  ci_feeRate : Q;
}.

Record UpdateBeneficiariesParams := {
  ub_vaultUTXO : UTXO;
  ub_vaultCharm : InheritanceContent;
  ub_newBeneficiaries : list Beneficiary;
  ub_ownerPubkey : string;
  ub_currentBlock : Z;
  ub_changeAddress : string;
  ub_feeRate : Q;
}.

Record DistributeVaultParams := {
  dv_vaultUTXO : UTXO;
  dv_vaultCharm : InheritanceContent;
  dv_currentBlock : Z;
  dv_feeRate : Q;
}.

(** Thrown values: a plain [new Error(message)], or a [CharmVaultError]
    (its subclasses [WalletError], [ProverError] and [BitcoinError] only fix
    the code) with its machine-readable [code] and wrapped [details]. *)
Inductive exn :=
| Error (message : string)
| CharmVaultError (message code : string) (details : option exn).

Definition message_of (e : exn) : string :=
  match e with
  | Error m => m
  | CharmVaultError m _ _ => m
  end.

(** [error instanceof CharmVaultError] *)
Definition instanceof_CharmVaultError (e : exn) : bool :=
  match e with
  | Error _ => false
  | CharmVaultError _ _ _ => true
  end.

Definition ProverError (message : string) (details : exn) : exn :=
  CharmVaultError message "PROVER_ERROR" (Some details).

(** [error.code], where there is one. *)
Definition code_of (e : exn) : option string :=
  match e with
  | Error _ => None
  | CharmVaultError _ code _ => Some code
  end.

(** The outcome of a call: a value, or a thrown exception. *)
Inductive Res (A : Type) :=
| Ok (a : A)
| Throw (e : exn).
Arguments Ok {A} a.
Arguments Throw {A} e.

(** [s.includes(sub)] *)
Definition includes (s sub : string) : bool :=
  match String.index 0 sub s with
  | Some _ => true
  | None => false
  end.

(** The id of an output, [`${txid}:${vout}`]. *)
Definition formatUtxoId (txid : string) (vout : Z) : string :=
  txid +:+ ":" +:+ pretty vout.

(** What the services write to the console.  The texts carry interpolated
    values; the constructors keep the values and drop the prose. *)
Inductive console :=
| WarnAlreadyLocked (utxoId : string) (lockedSince : Z)
| LogLocked (utxoId : string)
| WarnNotLocked (utxoId : string)
| LogUnlocked (utxoId : string)
| LogLockExpired (utxoId : string)
| LogAutoUnlocking (utxoId : string)
| LogCleared (n : nat)
| LogSkipLocked (utxoId : string)
| LogSkipCoolingDown (utxoId : string) (count : Z)
| WarnMarkedFailed (utxoId : string) (attempt : Z).

(** ** The UTXO lock registry ([utxoLockService.ts]) *)

Module UTXOLockService.

Inductive LockType := creating_vault | creating_savings.

Record LockedUTXO := {
  utxoId : string;
  lockedAt : Z;
  lockType : LockType;
  expiresAt : Z;
}.

(** The array kept under the storage key [charmvault_locked_utxos];
    [load] and [save] read and write it whole. *)
Abbreviation Locks := (list LockedUTXO).

Definition LOCK_TIMEOUT : Z := 15 * 60 * 1000.

(** [lockedUTXOs.find((u) => u.utxoId === utxoId)] *)
Definition findLock (id : string) (lockedUTXOs : Locks) : option LockedUTXO :=
  List.find (λ u, bool_decide (utxoId u = id)) lockedUTXOs.

Definition lockUTXO (now : Z) (id : string) (ty : LockType)
    (lockedUTXOs : Locks) : Locks * list console :=
  match findLock id lockedUTXOs with
  | Some existing => (lockedUTXOs, [WarnAlreadyLocked id (lockedAt existing)])
  | None =>
      let newLock := {| utxoId := id; lockedAt := now; lockType := ty;
                        expiresAt := now + LOCK_TIMEOUT |} in
      (lockedUTXOs ++ [newLock], [LogLocked id])
  end.

Definition unlockUTXO (id : string) (lockedUTXOs : Locks)
    : Locks * list console :=
  let filtered := filter (λ u, utxoId u ≠ id) lockedUTXOs in
  if decide (length filtered = length lockedUTXOs)
  then (lockedUTXOs, [WarnNotLocked id])
  else (filtered, [LogUnlocked id]).

Definition isLocked (now : Z) (id : string) (lockedUTXOs : Locks)
    : bool * Locks * list console :=
  match findLock id lockedUTXOs with
  | None => (false, lockedUTXOs, [])
  | Some lock =>
      if bool_decide (now >= expiresAt lock)
      then let '(st, out) := unlockUTXO id lockedUTXOs in
           (false, st, LogLockExpired id :: out)
      else (true, lockedUTXOs, [])
  end.

Definition clearExpiredLocks (now : Z) (lockedUTXOs : Locks)
    : Locks * list console :=
  let activeLocks := filter (λ lock, ¬ now >= expiresAt lock) lockedUTXOs in
  let swept := (λ lock, LogAutoUnlocking (utxoId lock))
                 <$> filter (λ lock, now >= expiresAt lock) lockedUTXOs in
  if decide (length activeLocks < length lockedUTXOs)%nat
  then (activeLocks,
        swept ++ [LogCleared (length lockedUTXOs - length activeLocks)])
  else (lockedUTXOs, swept).

(** [getLockedUTXOs]: sweep, then read the stored array again. *)
Definition getLockedUTXOs (now : Z) (lockedUTXOs : Locks)
    : Locks * Locks * list console :=
  let '(st, out) := clearExpiredLocks now lockedUTXOs in
  (st, st, out).

(** The records held for one id. *)
Definition records (id : string) (lockedUTXOs : Locks) : Locks :=
  filter (λ u, utxoId u = id) lockedUTXOs.

(** Every registry the service itself builds holds at most one record per
    id. *)
Definition wf (lockedUTXOs : Locks) : Prop := NoDup (utxoId <$> lockedUTXOs).

End UTXOLockService.

(** ** The spell assembler ([spellBuilder.ts])

    The builders are [async] only because the application id is a SHA-256
    digest computed by [crypto.subtle]; the digest is a total function of the
    id, taken as a parameter together with the verification key
    [VITE_APP_VK]. *)

Module SpellBuilder.

Section Builders.

Variable appVk : string.
Variable calculateAppId : string → string.

(** [proverClient.buildAppReference] and the inlined [`n/${appId}/${appVk}`] *)
Definition buildAppReference (fundingUtxo : string) : string :=
  "n/" +:+ calculateAppId fundingUtxo +:+ "/" +:+ appVk.

Definition buildCreateVaultSpell (params : CreateVaultParams) : Res SpellJSON :=
  let fundingUtxoId :=
    formatUtxoId (txid (cv_fundingUTXO params)) (vout (cv_fundingUTXO params)) in
  let appRef := buildAppReference fundingUtxoId in
  let inheritanceContent :=
    {| owner_pubkey := cv_ownerPubkey params;
       last_checkin_block := 0;
       trigger_delay_blocks := cv_triggerDelayBlocks params;
       beneficiaries := cv_beneficiaries params;
       status := Active |} in
  Ok {| version := 8;
        apps := {[ "$00" := appRef ]};
        ins := [ {| utxo_id := fundingUtxoId; in_charms := Some ∅ |} ];
        outs := [ {| out_address := cv_changeAddress params;
                     sats := cv_amount params;
                     out_charms := Some {[ "$00" := inheritanceContent ]} |} ];
        private_inputs := Some {[ "$00" := fundingUtxoId ]} |}.

Definition buildCheckinSpell (params : CheckinParams) : Res SpellJSON :=
  let vaultUTXO := ci_vaultUTXO params in
  let vaultCharm := ci_vaultCharm params in
  let fundingUtxoId := formatUtxoId (txid vaultUTXO) (vout vaultUTXO) in
  let appRef := buildAppReference fundingUtxoId in
  let updatedCharm :=
    {| owner_pubkey := ci_ownerPubkey params;
       last_checkin_block := ci_currentBlock params;
       trigger_delay_blocks := trigger_delay_blocks vaultCharm;
       beneficiaries := beneficiaries vaultCharm;
       status := status vaultCharm |} in
  Ok {| version := 8;
        apps := {[ "$00" := appRef ]};
        ins := [ {| utxo_id := fundingUtxoId;
                    in_charms := Some {[ "$00" := vaultCharm ]} |} ];
        outs := [ {| out_address := ci_changeAddress params;
                     sats := value vaultUTXO - 2000;
                     out_charms := Some {[ "$00" := updatedCharm ]} |} ];
        private_inputs := None |}.

Definition buildUpdateBeneficiariesSpell (params : UpdateBeneficiariesParams)
    : Res SpellJSON :=
  let vaultUTXO := ub_vaultUTXO params in
  let vaultCharm := ub_vaultCharm params in
  let fundingUtxoId := formatUtxoId (txid vaultUTXO) (vout vaultUTXO) in
  let appRef := buildAppReference fundingUtxoId in
  let updatedCharm :=
    {| owner_pubkey := ub_ownerPubkey params;
       last_checkin_block := ub_currentBlock params;
       trigger_delay_blocks := trigger_delay_blocks vaultCharm;
       beneficiaries := ub_newBeneficiaries params;
       status := status vaultCharm |} in
  Ok {| version := 8;
        apps := {[ "$00" := appRef ]};
        ins := [ {| utxo_id := fundingUtxoId;
                    in_charms := Some {[ "$00" := vaultCharm ]} |} ];
        outs := [ {| out_address := ub_changeAddress params;
                     sats := value vaultUTXO - 2000;
                     out_charms := Some {[ "$00" := updatedCharm ]} |} ];
        private_inputs := None |}.

(** The message of the error thrown while the deadline has not passed. *)
Definition deadlineNotReached (currentBlock deadline : Z) : exn :=
  Error ("Deadline not reached. Current block: " +:+ pretty currentBlock
         +:+ ", Deadline: " +:+ pretty deadline).

Definition estimatedFee : Z := 2000.

(** One output of the distribution: [Math.floor((totalValue * percentage) / 100)]
    sats to the beneficiary, and no [charms] field. *)
Definition distributeOutput (totalValue : Z) (beneficiary : Beneficiary)
    : SpellOutput :=
  {| out_address := address beneficiary;
     sats := (totalValue * percentage beneficiary) `div` 100;
     out_charms := None |}.

Definition buildDistributeSpell (params : DistributeVaultParams) : Res SpellJSON :=
  let vaultUTXO := dv_vaultUTXO params in
  let vaultCharm := dv_vaultCharm params in
  let currentBlock := dv_currentBlock params in
  let fundingUtxoId := formatUtxoId (txid vaultUTXO) (vout vaultUTXO) in
  let appRef := buildAppReference fundingUtxoId in
  let deadline := last_checkin_block vaultCharm + trigger_delay_blocks vaultCharm in
  if bool_decide (currentBlock <= deadline)
  then Throw (deadlineNotReached currentBlock deadline)
  else
    let totalValue := value vaultUTXO - estimatedFee in
    let outputs := distributeOutput totalValue <$> beneficiaries vaultCharm in
    Ok {| version := 8;
          apps := {[ "$00" := appRef ]};
          ins := [ {| utxo_id := fundingUtxoId;
                      in_charms := Some {[ "$00" := vaultCharm ]} |} ];
          outs := outputs;
          private_inputs := None |}.

End Builders.

(** [beneficiaries.reduce((sum, b) => sum + b.percentage, 0)] *)
Definition totalPercentage (beneficiaries : list Beneficiary) : Z :=
  fold_left (λ sum b, sum + percentage b) beneficiaries 0.

Definition validateBeneficiaries (beneficiaries : list Beneficiary) : bool :=
  bool_decide (totalPercentage beneficiaries = 100).

(** [estimateFee(numInputs, numOutputs, feeRate = 2.0)]: [None] is an
    omitted rate; the product of the size and the rate is a double. *)
Definition estimateFee (numInputs numOutputs : Z) (feeRate : option Q) : Z :=
  let estimatedVbytes := 50 + numInputs * 150 + numOutputs * 50 in
  Qceiling (Double.round (inject_Z estimatedVbytes * default 2%Q feeRate)).

(** [const [txid, voutStr] = utxoId.split(':')]: the first two parts; the
    second is [undefined] when the id holds no colon. *)
Definition splitUtxoId (utxoId : string) : string * option string :=
  match String.index 0 ":" utxoId with
  | None => (utxoId, None)
  | Some i =>
      let rest := String.substring (S i) (String.length utxoId - S i) utxoId in
      (String.substring 0 i utxoId,
       Some match String.index 0 ":" rest with
            | None => rest
            | Some j => String.substring 0 j rest
            end)
  end.

(** The white space [parseInt] skips, as far as it is ASCII. *)
Definition isWhiteSpace (c : ascii) : bool :=
  bool_decide (Ascii.nat_of_ascii c ∈ [9; 10; 11; 12; 13; 32]%nat).

Fixpoint trimStart (s : string) : string :=
  match s with
  | String c s' => if isWhiteSpace c then trimStart s' else s
  | EmptyString => s
  end.

Definition digitOf (c : ascii) : option Z :=
  let n := Z.of_nat (Ascii.nat_of_ascii c) in
  if bool_decide (48 <= n <= 57) then Some (n - 48) else None.

(** The value of the longest prefix of decimal digits, read after [acc];
    [None] while no digit has been read. *)
Fixpoint parseDigits (acc : option Z) (s : string) : option Z :=
  match s with
  | String c s' =>
      match digitOf c with
      | Some d => parseDigits (Some (default 0 acc * 10 + d)) s'
      | None => acc
      end
  | EmptyString => acc
  end.

(** [parseInt(s, 10)]: leading white space, a sign, then digits up to the
    first other character; [None] is [NaN], also the result for
    [undefined]. *)
Definition parseInt10 (s : option string) : option Z :=
  match s with
  | None => None
  | Some s =>
      match trimStart s with
      | String c s' =>
          if bool_decide (c = "-"%char) then Z.opp <$> parseDigits None s'
          else if bool_decide (c = "+"%char) then parseDigits None s'
          else parseDigits None (String c s')
      | EmptyString => None
      end
  end.

(** [parseUtxoId]: the object [{ txid, vout }]. *)
Definition parseUtxoId (utxoId : string) : string * option Z :=
  let '(txid, voutStr) := splitUtxoId utxoId in
  (txid, parseInt10 voutStr).

End SpellBuilder.

(** ** Exceptions as values *)

#[global] Instance Res_ret : MRet Res := λ A a, Ok a.
#[global] Instance Res_bind : MBind Res := λ A B f r,
  match r with
  | Ok a => f a
  | Throw e => Throw e
  end.

(** A [for] loop over [l] that threads [s] and stops at the first throw. *)
Fixpoint forEach {A S : Type} (body : S → A → Res S) (l : list A) (s : S) : Res S :=
  match l with
  | [] => Ok s
  | a :: l' =>
      match body s a with
      | Ok s' => forEach body l' s'
      | Throw e => Throw e
      end
  end.

(** ** The transaction format converter ([psbtHelper.ts])

    [bitcoinjs-lib] is an external library: its parser, serialiser and
    standard finalizer are parameters ([Bitcoinjs]); the code of the helper
    around them is embedded.  A byte is an integer below 256. *)

Module PsbtHelper.

Abbreviation Buffer := (list Z).

Inductive Network := testnet | mainnet.

Record TxInput := {
  hash : Buffer;
  index : Z;
}.

Record TxOutput := {
  script : Buffer;
  out_value : Z;
}.

Record Transaction := {
  tx_ins : list TxInput;
  tx_outs : list TxOutput;
}.

Record PartialSig := {
  pubkey : Buffer;
  signature : Buffer;
}.

(** An entry of [psbt.data.inputs], with the outpoint it spends. *)
Record PsbtInput := {
  prev_hash : string;
  prev_index : Z;
  witnessUtxo : option TxOutput;
  tapKeySig : option Buffer;
  partialSig : list PartialSig;
  finalScriptWitness : option Buffer;
  finalScriptSig : option Buffer;
}.

Record Psbt := {
  psbt_network : Network;
  inputs : list PsbtInput;
  outputs : list TxOutput;
}.

(** An entry of [prevTxsData]. *)
Record PrevTxData := {
  txHex : string;
  prev_vout : Z;
}.

Record Bitcoinjs := {
  Transaction_fromHex : string → Res Transaction;
  Transaction_toHex : Transaction → string;
  Psbt_fromHex : string → Network → Res Psbt;
  Psbt_toHex : Psbt → string;
  Psbt_addInput : Psbt → PsbtInput → Res Psbt;
  Psbt_addOutput : Psbt → TxOutput → Res Psbt;
  (** [psbt.finalizeAllInputs()] mutates the inputs it reaches; when it
      throws, the inputs finalized so far stay finalized. *)
  Psbt_finalizeAllInputs : Psbt → Psbt * option exn;
  (** [psbt.finalizeInput(i)]: the finalized input [i], or a throw that
      leaves the PSBT as it was. *)
  Psbt_finalizeInput : Psbt → nat → Res PsbtInput;
  Psbt_extractTransaction : Psbt → Res Transaction;
}.

Definition hexDigit (n : Z) : string :=
  String.substring (Z.to_nat n) 1 "0123456789abcdef".

(** [buffer.toString('hex')] *)
Definition toHex (b : Buffer) : string :=
  foldr (λ byte acc, hexDigit (byte `div` 16) +:+ hexDigit (byte `mod` 16) +:+ acc)
        "" b.

(** [Buffer.from([n])]: one byte, the low eight bits of [n]. *)
Definition byteOf (n : nat) : Z := Z.of_nat n `mod` 256.

(** [array[i]] for a JavaScript number [i]: [undefined] out of range. *)
Definition at_index {A : Type} (l : list A) (i : Z) : option A :=
  if bool_decide (0 <= i) then l !! Z.to_nat i else None.

Section Helper.

Variable bitcoin : Bitcoinjs.

Definition newPsbt (network : Network) : Psbt :=
  {| psbt_network := network; inputs := []; outputs := [] |}.

Definition plainInput (prevTxId : string) (prevVout : Z)
    (utxo : option TxOutput) : PsbtInput :=
  {| prev_hash := prevTxId; prev_index := prevVout; witnessUtxo := utxo;
     tapKeySig := None; partialSig := []; finalScriptWitness := None;
     finalScriptSig := None |}.

Definition convertRawTxToPsbt (unsignedTxHex prevTxHex : string)
    (inputIndex : Z) (network : Network) : Res string :=
  unsignedTx ← Transaction_fromHex bitcoin unsignedTxHex;
  prevTx ← Transaction_fromHex bitcoin prevTxHex;
  match at_index (tx_outs prevTx) inputIndex with
  | None =>
      Throw (Error ("Previous transaction output " +:+ pretty inputIndex
                    +:+ " not found"))
  | Some prevOut =>
      psbt ← forEach
        (λ psbt '(i, input),
           let prevTxId := toHex (reverse (hash input)) in
           let prevVout := index input in
           if bool_decide (i = 0%nat)
           then Psbt_addInput bitcoin psbt
                  (plainInput prevTxId prevVout
                     (Some {| script := script prevOut;
                              out_value := out_value prevOut |}))
           else Psbt_addInput bitcoin psbt (plainInput prevTxId prevVout None))
        (imap (λ i input, (i, input)) (tx_ins unsignedTx))
        (newPsbt network);
      psbt ← forEach (λ psbt output,
                        Psbt_addOutput bitcoin psbt
                          {| script := script output;
                             out_value := out_value output |})
                     (tx_outs unsignedTx) psbt;
      Ok (Psbt_toHex bitcoin psbt)
  end.

(** [convertRawTxToPsbtMultiple]: every input takes its witness UTXO from
    the previous transaction listed at its position. *)
Definition convertRawTxToPsbtMultiple (unsignedTxHex : string)
    (prevTxsData : list PrevTxData) (network : Network) : Res string :=
  unsignedTx ← Transaction_fromHex bitcoin unsignedTxHex;
  psbt ← forEach
    (λ psbt '(i, input),
       let prevTxId := toHex (reverse (hash input)) in
       let prevVout := index input in
       match prevTxsData !! i with
       | None =>
           Throw (Error ("Previous transaction data for input " +:+ pretty i
                         +:+ " not found"))
       | Some prevTxData =>
           prevTx ← Transaction_fromHex bitcoin (txHex prevTxData);
           match at_index (tx_outs prevTx) prevVout with
           | None =>
               Throw (Error ("Previous transaction output " +:+ pretty prevVout
                             +:+ " not found for input " +:+ pretty i))
           | Some prevOut =>
               Psbt_addInput bitcoin psbt
                 (plainInput prevTxId prevVout
                    (Some {| script := script prevOut;
                             out_value := out_value prevOut |}))
           end
       end)
    (imap (λ i input, (i, input)) (tx_ins unsignedTx))
    (newPsbt network);
  psbt ← forEach (λ psbt output,
                    Psbt_addOutput bitcoin psbt
                      {| script := script output;
                         out_value := out_value output |})
                 (tx_outs unsignedTx) psbt;
  Ok (Psbt_toHex bitcoin psbt).

Definition setFinalScriptWitness (input : PsbtInput) (witness : Buffer)
    : PsbtInput :=
  {| prev_hash := prev_hash input; prev_index := prev_index input;
     witnessUtxo := witnessUtxo input; tapKeySig := tapKeySig input;
     partialSig := partialSig input; finalScriptWitness := Some witness;
     finalScriptSig := finalScriptSig input |}.

(** [psbt.data.inputs[i] = input] *)
Definition setInput (psbt : Psbt) (i : nat) (input : PsbtInput) : Psbt :=
  {| psbt_network := psbt_network psbt;
     inputs := <[i := input]> (inputs psbt);
     outputs := outputs psbt |}.

(** The witness of a Taproot key-path spend: one element, the signature. *)
Definition taprootWitness (sig : Buffer) : Buffer :=
  [1] ++ [byteOf (length sig)] ++ sig.

(** The witness of a legacy SegWit spend: signature, then public key. *)
Definition segwitWitness (ps : PartialSig) : Buffer :=
  [2] ++ [byteOf (length (signature ps))] ++ signature ps
      ++ [byteOf (length (pubkey ps))] ++ pubkey ps.

Definition unableToFinalize (i : nat) : exn :=
  Error ("Unable to finalize input " +:+ pretty i +:+ ": no signature found").

Definition alreadyFinalized (input : PsbtInput) : bool :=
  bool_decide (is_Some (finalScriptWitness input))
  || bool_decide (is_Some (finalScriptSig input)).

(** The witness assembled by hand for an input the library could not
    finalize; [None] when the input carries no signature. *)
Definition manualWitness (input : PsbtInput) : option Buffer :=
  match tapKeySig input with
  | Some sig => Some (taprootWitness sig)
  | None =>
      match partialSig input with
      | ps :: _ => Some (segwitWitness ps)
      | [] => None
      end
  end.

(** One turn of the loop that runs after [finalizeAllInputs] has thrown. *)
Definition finalizeManually (psbt : Psbt) (i : nat) : Res Psbt :=
  match inputs psbt !! i with
  | None => Ok psbt
  | Some input =>
      if alreadyFinalized input then Ok psbt
      else
        match Psbt_finalizeInput bitcoin psbt i with
        | Ok finalized => Ok (setInput psbt i finalized)
        | Throw finalizeError =>
            match manualWitness input with
            | Some witnessStack =>
                Ok (setInput psbt i (setFinalScriptWitness input witnessStack))
            | None => Throw (unableToFinalize i)
            end
        end
  end.

Definition finalizeInputs (psbt : Psbt) : Res Psbt :=
  match Psbt_finalizeAllInputs bitcoin psbt with
  | (psbt', None) => Ok psbt'
  | (psbt', Some error) =>
      forEach finalizeManually (seq 0 (length (inputs psbt'))) psbt'
  end.

Definition extractTxFromPsbt (signedPsbtHex : string) (network : Network)
    : Res string :=
  psbt ← Psbt_fromHex bitcoin signedPsbtHex network;
  psbt ← finalizeInputs psbt;
  finalTx ← Psbt_extractTransaction bitcoin psbt;
  Ok (Transaction_toHex bitcoin finalTx).

End Helper.

End PsbtHelper.

(** ** The proof service client ([proverClient.ts])

    The calls that reach the proof service are collaborators of the
    orchestrator, below; what is left is arithmetic. *)

Module ProverClient.

(** [Math.max(60000, Math.min(600000, cycles / 100))], in milliseconds. *)
Definition estimateProofTime (cycles : Q) : Q :=
  Qmax 60000 (Qmin 600000 (Double.round (cycles / 100))).

End ProverClient.

(** ** Effects: the world the orchestrator runs in

    The collaborators the services await (chain data provider, proof
    service, node RPC, wallets) and the clock are oracles: each answers from
    the history of the calls awaited so far, so an oracle may answer
    differently every time it is asked, while the code that runs between two
    awaits reads one clock value and one wallet state.  Mutable state is
    passed explicitly ([World]); every awaited call, every console line of
    the registries and every write of a vault record is appended to the
    [trace].  Local storage is taken to accept every write. *)

Inductive WalletKind := Leather | Unisat.

Record FeeEstimates := {
  fastestFee : Q;
  halfHourFee : Q;
  hourFee : Q;
  economyFee : Q;
  minimumFee : Q;
}.

Inductive Event :=
| Console (line : console)
| GetCurrentBlockHeight
| GetFeeEstimates
| GetRawTransaction (txid : string)
| LoadContractWasm
| ProveSpell (request : ProverRequest)
| SignTransaction (wallet : WalletKind) (txHex : string)
| BroadcastPackage (commitTxHex spellTxHex : string)
| SaveVault (vault : Vault).

Abbreviation History := (list Event).

(** The events that are awaited calls to a collaborator. *)
Definition is_await (ev : Event) : bool :=
  match ev with
  | Console _ | SaveVault _ => false
  | _ => true
  end.

Definition awaited (h : History) : History := filter (λ ev, is_await ev) h.

Record Env := {
  VITE_APP_VK : string;
  VITE_BITCOIN_NETWORK : string;
  sha256_hex : string → string;
  parseInt : string → Z;
  bitcoinjs : PsbtHelper.Bitcoinjs;
  Date_now : History → Z;
  leatherWallet_getWalletState : History → option WalletState;
  unisatWallet_getWalletState : History → option WalletState;
  wallet_signTransaction : WalletKind → History → string → Res string;
  bitcoinClient_getCurrentBlockHeight : History → Res Z;
  bitcoinClient_getFeeEstimates : History → FeeEstimates;
  bitcoinClient_getRawTransaction : History → string → Res string;
  bitcoinClient_broadcastPackage : History → string → string → Res string;
  proverClient_loadContractWasm : History → Res string;
  proverClient_proveSpell : History → ProverRequest → Res (string * string);
}.

Record FailedUTXO := {
  count : Z;
  lastFailed : Z;
}.

Record World := {
  lockedUTXOs : UTXOLockService.Locks;
  failedUTXOs : gmap string FailedUTXO;
  vaultsCache : gmap string Vault;
  vaultStorage : gmap string Vault;
  trace : History;
}.

Definition set_lockedUTXOs (l : UTXOLockService.Locks) (w : World) : World :=
  {| lockedUTXOs := l; failedUTXOs := failedUTXOs w;
     vaultsCache := vaultsCache w; vaultStorage := vaultStorage w;
     trace := trace w |}.

Definition set_failedUTXOs (f : gmap string FailedUTXO) (w : World) : World :=
  {| lockedUTXOs := lockedUTXOs w; failedUTXOs := f;
     vaultsCache := vaultsCache w; vaultStorage := vaultStorage w;
     trace := trace w |}.

Definition set_vaultsCache (c : gmap string Vault) (w : World) : World :=
  {| lockedUTXOs := lockedUTXOs w; failedUTXOs := failedUTXOs w;
     vaultsCache := c; vaultStorage := vaultStorage w; trace := trace w |}.

Definition set_vaultStorage (s : gmap string Vault) (w : World) : World :=
  {| lockedUTXOs := lockedUTXOs w; failedUTXOs := failedUTXOs w;
     vaultsCache := vaultsCache w; vaultStorage := s; trace := trace w |}.

Definition set_trace (t : History) (w : World) : World :=
  {| lockedUTXOs := lockedUTXOs w; failedUTXOs := failedUTXOs w;
     vaultsCache := vaultsCache w; vaultStorage := vaultStorage w;
     trace := t |}.

(** A computation: from a world to an outcome and the world it leaves. *)
Definition M (A : Type) : Type := World → Res A * World.

#[global] Instance M_ret : MRet M := λ A a w, (Ok a, w).
#[global] Instance M_bind : MBind M := λ A B f m w,
  match m w with
  | (Ok a, w') => f a w'
  | (Throw e, w') => (Throw e, w')
  end.

Definition throw {A : Type} (e : exn) : M A := λ w, (Throw e, w).

(** [try { body } catch (e) { handler(e) }] *)
Definition try_catch {A : Type} (body : M A) (handler : exn → M A) : M A :=
  λ w, match body w with
       | (Ok a, w') => (Ok a, w')
       | (Throw e, w') => handler e w'
       end.

Definition lift {A : Type} (r : Res A) : M A := λ w, (r, w).

Definition gets {A : Type} (f : World → A) : M A := λ w, (Ok (f w), w).

Definition modify (f : World → World) : M unit := λ w, (Ok tt, f w).

Definition emit (ev : Event) : M unit :=
  modify (λ w, set_trace (trace w ++ [ev]) w).

Definition emitAll (evs : list Event) : M unit :=
  modify (λ w, set_trace (trace w ++ evs) w).

(** A call to a collaborator: the call is recorded, then the oracle answers
    from the history that ends with it. *)
Definition call {A : Type} (ev : Event) (oracle : History → Res A) : M A :=
  emit ev;; h ← gets (λ w, awaited (trace w)); lift (oracle h).

(** [array.filter(keep)] with a callback that has effects. *)
Fixpoint filterM {A : Type} (keep : A → M bool) (l : list A) : M (list A) :=
  match l with
  | [] => mret []
  | a :: l' =>
      b ← keep a;
      rest ← filterM keep l';
      mret (if b : bool then a :: rest else rest)
  end.

(** ** The vault operation orchestrator ([vaultService.ts]) *)

Module VaultService.

Import UTXOLockService.

Section Service.

Variable env : Env.

(** *** The services it calls, run in the world *)

Definition now : M Z := gets (λ w, Date_now env (awaited (trace w))).

Definition log (lines : list console) : M unit := emitAll (Console <$> lines).

Definition utxoLockService_lockUTXO (utxoId : string) (ty : LockType) : M unit :=
  t ← now;
  l ← gets lockedUTXOs;
  let '(l', out) := lockUTXO t utxoId ty l in
  modify (set_lockedUTXOs l');; log out.

Definition utxoLockService_unlockUTXO (utxoId : string) : M unit :=
  l ← gets lockedUTXOs;
  let '(l', out) := unlockUTXO utxoId l in
  modify (set_lockedUTXOs l');; log out.

Definition utxoLockService_isLocked (utxoId : string) : M bool :=
  t ← now;
  l ← gets lockedUTXOs;
  let '(b, l', out) := isLocked t utxoId l in
  modify (set_lockedUTXOs l');; log out;; mret b.

Definition utxoLockService_clearExpiredLocks : M unit :=
  t ← now;
  l ← gets lockedUTXOs;
  let '(l', out) := clearExpiredLocks t l in
  modify (set_lockedUTXOs l');; log out.

Definition getCurrentBlockHeight : M Z :=
  call GetCurrentBlockHeight (bitcoinClient_getCurrentBlockHeight env).

(** [getFeeEstimates] catches its own failures and answers with defaults. *)
Definition getFeeEstimates : M FeeEstimates :=
  call GetFeeEstimates (λ h, Ok (bitcoinClient_getFeeEstimates env h)).

Definition getRawTransaction (txid : string) : M string :=
  call (GetRawTransaction txid)
       (λ h, bitcoinClient_getRawTransaction env h txid).

Definition broadcastPackage (commitTxHex spellTxHex : string) : M string :=
  call (BroadcastPackage commitTxHex spellTxHex)
       (λ h, bitcoinClient_broadcastPackage env h commitTxHex spellTxHex).

Definition proveSpell (request : ProverRequest) : M (string * string) :=
  call (ProveSpell request) (λ h, proverClient_proveSpell env h request).

Definition signTransaction (wallet : WalletKind) (txHex : string) : M string :=
  call (SignTransaction wallet txHex)
       (λ h, wallet_signTransaction env wallet h txHex).

(** [proverClient.buildProverRequest] *)
Definition buildProverRequest (spell : SpellJSON) (prevTxs : list string)
    (fundingUtxo : string) (fundingUtxoValue : Z) (changeAddress : string)
    (feeRate : Q) : M ProverRequest :=
  try_catch
    (wasmBase64 ← call LoadContractWasm (proverClient_loadContractWasm env);
     mret {| spell := spell;
             binaries := {[ VITE_APP_VK env := wasmBase64 ]};
             prev_txs := prevTxs;
             funding_utxo := fundingUtxo;
             funding_utxo_value := fundingUtxoValue;
             change_address := changeAddress;
             fee_rate := feeRate;
             chain := "bitcoin" |})
    (λ error,
       throw (ProverError ("Failed to build prover request: "
                           +:+ message_of error) error)).

(** [feeEstimates.halfHourFee || 2.0] *)
Definition halfHourFeeOrDefault (feeEstimates : FeeEstimates) : Q :=
  if Qeq_bool (halfHourFee feeEstimates) 0 then 2%Q
  else halfHourFee feeEstimates.

(** *** [getActiveWallet] *)

Definition getActiveWallet : M (option (WalletState * WalletKind)) :=
  h ← gets (λ w, awaited (trace w));
  match leatherWallet_getWalletState env h with
  | Some leatherState => mret (Some (leatherState, Leather))
  | None =>
      match unisatWallet_getWalletState env h with
      | Some unisatState => mret (Some (unisatState, Unisat))
      | None => mret None
      end
  end.

(** *** [selectFundingUTXO] and [markUTXOFailed] *)

Definition FAILURE_COOLDOWN : Z := 5 * 60 * 1000.

(** [array.sort((a, b) => a.value - b.value)]: ascending by value, stable. *)
Fixpoint insertByValue (u : UTXO) (sorted : list UTXO) : list UTXO :=
  match sorted with
  | [] => [u]
  | u' :: rest =>
      if bool_decide (value u <= value u') then u :: u' :: rest
      else u' :: insertByValue u rest
  end.

Definition sortByValue (l : list UTXO) : list UTXO := foldr insertByValue [] l.

Definition suitable (t requiredAmount : Z) (utxo : UTXO) : M bool :=
  if bool_decide (value utxo < requiredAmount) then mret false
  else
    let utxoId := formatUtxoId (txid utxo) (vout utxo) in
    locked ← utxoLockService_isLocked utxoId;
    if locked : bool then log [LogSkipLocked utxoId];; mret false
    else
      failure ← gets (λ w, failedUTXOs w !! utxoId);
      match failure with
      | Some failure =>
          if bool_decide (t - lastFailed failure < FAILURE_COOLDOWN)
          then log [LogSkipCoolingDown utxoId (count failure)];; mret false
          else mret true
      | None => mret true
      end.

Definition selectFundingUTXO (utxos : list UTXO) (requiredAmount : Z)
    : M (option UTXO) :=
  t ← now;
  utxoLockService_clearExpiredLocks;;
  suitableUTXOs ← filterM (suitable t requiredAmount) utxos;
  mret (head (sortByValue suitableUTXOs)).

Definition markUTXOFailed (utxo : UTXO) (reason : string) : M unit :=
  let utxoId := formatUtxoId (txid utxo) (vout utxo) in
  existing ← gets (λ w, failedUTXOs w !! utxoId);
  let attempt := default 0 (count <$> existing) + 1 in
  t ← now;
  modify (λ w, set_failedUTXOs
                 (<[utxoId := {| count := attempt; lastFailed := t |}]>
                    (failedUTXOs w)) w);;
  log [WarnMarkedFailed utxoId attempt].

(** *** Vault records: cache and storage *)

(** [new Date(t).toISOString()] throws a [RangeError] outside the range of
    ECMAScript time values. *)
Definition toISOString (t : Z) : Res Z :=
  if bool_decide (-8640000000000000 <= t <= 8640000000000000) then Ok t
  else Throw (Error "Invalid time value").

Definition calculateUnlockDate (_currentBlock delayBlocks : Z) : M Z :=
  t ← now;
  lift (toISOString (t + delayBlocks * 10 * 60 * 1000)).

Definition saveVaultToStorage (vault : Vault) : M unit :=
  modify (λ w, set_vaultStorage (<[id vault := vault]> (vaultStorage w)) w);;
  emit (SaveVault vault).

Definition loadVaultFromStorage (vaultId : string) : M (option Vault) :=
  gets (λ w, vaultStorage w !! vaultId).

Definition vaultNotFound (vaultId : string) : exn :=
  CharmVaultError ("Vault " +:+ vaultId +:+ " not found") "VAULT_NOT_FOUND" None.

Definition getVault (vaultId : string) : M Vault :=
  cached ← gets (λ w, vaultsCache w !! vaultId);
  match cached with
  | Some vault => mret vault
  | None =>
      stored ← loadVaultFromStorage vaultId;
      match stored with
      | Some vault =>
          modify (λ w, set_vaultsCache (<[vaultId := vault]> (vaultsCache w)) w);;
          mret vault
      | None => throw (vaultNotFound vaultId)
      end
  end.

(** The record [getVault] returns is the object held by the cache under
    [vaultId]: an assignment to one of its fields is seen through the
    cache. *)
Definition assign (vaultId : string) (vault : Vault) : M unit :=
  modify (λ w, set_vaultsCache (<[vaultId := vault]> (vaultsCache w)) w).

Definition with_unlockBlock (b : Z) (v : Vault) : Vault :=
  {| id := id v; vault_type := vault_type v; vault_status := vault_status v;
     lockedBTC := lockedBTC v; unlockDate := unlockDate v; unlockBlock := b;
     createdAt := createdAt v; createdBlock := createdBlock v;
     vault_beneficiaries := vault_beneficiaries v; ownerPubkey := ownerPubkey v;
     triggerDelayBlocks := triggerDelayBlocks v;
     transactions := transactions v |}.

Definition with_unlockDate (d : Z) (v : Vault) : Vault :=
  {| id := id v; vault_type := vault_type v; vault_status := vault_status v;
     lockedBTC := lockedBTC v; unlockDate := d; unlockBlock := unlockBlock v;
     createdAt := createdAt v; createdBlock := createdBlock v;
     vault_beneficiaries := vault_beneficiaries v; ownerPubkey := ownerPubkey v;
     triggerDelayBlocks := triggerDelayBlocks v;
     transactions := transactions v |}.

Definition with_beneficiaries (bs : list Beneficiary) (v : Vault) : Vault :=
  {| id := id v; vault_type := vault_type v; vault_status := vault_status v;
     lockedBTC := lockedBTC v; unlockDate := unlockDate v;
     unlockBlock := unlockBlock v; createdAt := createdAt v;
     createdBlock := createdBlock v; vault_beneficiaries := bs;
     ownerPubkey := ownerPubkey v; triggerDelayBlocks := triggerDelayBlocks v;
     transactions := transactions v |}.

Definition with_status (s : InheritanceStatus) (v : Vault) : Vault :=
  {| id := id v; vault_type := vault_type v; vault_status := s;
     lockedBTC := lockedBTC v; unlockDate := unlockDate v;
     unlockBlock := unlockBlock v; createdAt := createdAt v;
     createdBlock := createdBlock v;
     vault_beneficiaries := vault_beneficiaries v; ownerPubkey := ownerPubkey v;
     triggerDelayBlocks := triggerDelayBlocks v;
     transactions := transactions v |}.

(** [vaultId.split(':')], first two parts. *)
Definition splitVaultId (vaultId : string) : string * string :=
  match String.index 0 ":" vaultId with
  | None => (vaultId, "")
  | Some i =>
      let rest := String.substring (S i) (String.length vaultId - S i) vaultId in
      (String.substring 0 i vaultId,
       match String.index 0 ":" rest with
       | None => rest
       | Some j => String.substring 0 j rest
       end)
  end.

(** The UTXO rebuilt from a vault id and its record. *)
Definition vaultUTXO_of (vaultId : string) (vault : Vault) : UTXO :=
  let '(txid, voutStr) := splitVaultId vaultId in
  {| txid := txid;
     vout := parseInt env voutStr;
     value := Qfloor (Double.round (lockedBTC vault * 100000000));
     scriptPubKey := "" |}.

(** The contract state rebuilt from the vault record. *)
Definition vaultCharm_of (vault : Vault) : InheritanceContent :=
  {| owner_pubkey := ownerPubkey vault;
     last_checkin_block := createdBlock vault;
     trigger_delay_blocks := triggerDelayBlocks vault;
     beneficiaries := vault_beneficiaries vault;
     status := Active |}.

(** *** [createVault] *)

Definition validationError : exn :=
  CharmVaultError "Beneficiary percentages must sum to exactly 100%"
                  "VALIDATION_ERROR" None.

Definition walletNotConnected : exn :=
  CharmVaultError "Wallet not connected" "WALLET_NOT_CONNECTED" None.

Definition insufficientFunds : exn :=
  CharmVaultError
    "Insufficient funds or all suitable UTXOs are currently locked/cooling down. Please try again in a few minutes."
    "INSUFFICIENT_FUNDS" None.

Definition MIN_UTXO_VALUE : Z := 3000.

Definition fundingTooSmall (v : Z) : exn :=
  CharmVaultError
    ("Funding UTXO too small (" +:+ pretty v +:+ " sats). Need at least "
     +:+ pretty MIN_UTXO_VALUE +:+ " sats for Charms transaction fees.")
    "INSUFFICIENT_FUNDS" None.

Definition duplicateUTXO (error : exn) : exn :=
  CharmVaultError
    "This UTXO was already used in a previous request. The app will automatically use a different UTXO on your next attempt. Please try again or refresh your wallet."
    "DUPLICATE_UTXO" (Some error).

(** The outer [catch] of [createVault]; [fundingUTXO] is the local variable
    declared before the [try], [None] until a UTXO has been selected. *)
Definition classifyCreateError {A : Type} (fundingUTXO : option UTXO)
    (error : exn) : M A :=
  let wrap : M A :=
    if instanceof_CharmVaultError error then throw error
    else throw (CharmVaultError ("Failed to create vault: " +:+ message_of error)
                                "CREATE_VAULT_ERROR" (Some error)) in
  match fundingUTXO with
  | Some utxo =>
      if includes (message_of error) "duplicate funding UTXO"
      then markUTXOFailed utxo (message_of error);;
           throw (duplicateUTXO error)
      else wrap
  | None => wrap
  end.

Definition networkOfEnv : PsbtHelper.Network :=
  if bool_decide (VITE_BITCOIN_NETWORK env = "testnet4")
  then PsbtHelper.testnet else PsbtHelper.mainnet.

(** The fallback taken when the direct broadcast throws: the commit
    transaction goes through the wallet, the spell transaction is passed
    on. *)
Definition signAndBroadcast (wallet : WalletKind) (fundingUTXO : UTXO)
    (commitTx spellTx prevTxHex : string) : M string :=
  let network := networkOfEnv in
  commitPsbtHex ← lift (PsbtHelper.convertRawTxToPsbt (bitcoinjs env)
                          commitTx prevTxHex (vout fundingUTXO) network);
  signedCommitPsbt ← signTransaction wallet commitPsbtHex;
  signedCommitTx ← lift (PsbtHelper.extractTxFromPsbt (bitcoinjs env)
                           signedCommitPsbt network);
  let signedSpellTx := spellTx in
  broadcastPackage signedCommitTx signedSpellTx.

(** The inner [try] block, entered with the funding UTXO locked. *)
Definition createVaultLocked (amount : Z) (beneficiaries : list Beneficiary)
    (triggerDelayBlocks : Z) (walletState : WalletState) (wallet : WalletKind)
    (fundingUTXO : UTXO) (utxoId : string) : M string :=
  currentBlock ← getCurrentBlockHeight;
  feeEstimates ← getFeeEstimates;
  let feeRate := halfHourFeeOrDefault feeEstimates in
  let params :=
    {| cv_amount := amount; cv_fundingUTXO := fundingUTXO;
       cv_ownerPubkey := publicKey walletState;
       cv_beneficiaries := beneficiaries;
       cv_triggerDelayBlocks := triggerDelayBlocks;
       cv_changeAddress := wallet_address walletState;
       cv_feeRate := feeRate |} in
  spell ← lift (SpellBuilder.buildCreateVaultSpell (VITE_APP_VK env)
                  (sha256_hex env) params);
  prevTxHex ← getRawTransaction (txid fundingUTXO);
  proverRequest ← buildProverRequest spell [prevTxHex]
                    (formatUtxoId (txid fundingUTXO) (vout fundingUTXO))
                    (value fundingUTXO) (wallet_address walletState) feeRate;
  proverResponse ← proveSpell proverRequest;
  let '(commitTx, spellTxOriginal) := proverResponse in
  let spellTx := spellTxOriginal in
  commitTxParsed ← lift (PsbtHelper.Transaction_fromHex (bitcoinjs env) commitTx);
  spellTxParsed ← lift (PsbtHelper.Transaction_fromHex (bitcoinjs env) spellTx);
  vaultTxid ← try_catch
    (broadcastPackage commitTx spellTx)
    (λ broadcastError,
       signAndBroadcast wallet fundingUTXO commitTx spellTx prevTxHex);
  utxoLockService_unlockUTXO utxoId;;
  unlockDate ← calculateUnlockDate currentBlock triggerDelayBlocks;
  createdAt ← now;
  timestamp ← now;
  let vault :=
    {| id := vaultTxid +:+ ":0";
       vault_type := "Inheritance";
       vault_status := Active;
       lockedBTC := Double.round (inject_Z amount / 100000000);
       unlockDate := unlockDate;
       unlockBlock := currentBlock + triggerDelayBlocks;
       createdAt := createdAt;
       createdBlock := currentBlock;
       vault_beneficiaries := beneficiaries;
       ownerPubkey := publicKey walletState;
       triggerDelayBlocks := triggerDelayBlocks;
       transactions :=
         [ {| vt_txid := vaultTxid; vt_type := tx_create;
              timestamp := timestamp; blockHeight := currentBlock;
              confirmations := 0 |} ] |} in
  modify (λ w, set_vaultsCache (<[id vault := vault]> (vaultsCache w)) w);;
  saveVaultToStorage vault;;
  mret vaultTxid.

(** From the selection on: the part of the outer [try] in which
    [fundingUTXO] has been assigned. *)
Definition createVaultFunded (amount : Z) (beneficiaries : list Beneficiary)
    (triggerDelayBlocks : Z) (walletState : WalletState) (wallet : WalletKind)
    (fundingUTXO : option UTXO) : M string :=
  match fundingUTXO with
  | None => throw insufficientFunds
  | Some fundingUTXO =>
      if bool_decide (value fundingUTXO < MIN_UTXO_VALUE)
      then throw (fundingTooSmall (value fundingUTXO))
      else
        let utxoId := formatUtxoId (txid fundingUTXO) (vout fundingUTXO) in
        utxoLockService_lockUTXO utxoId creating_vault;;
        try_catch
          (createVaultLocked amount beneficiaries triggerDelayBlocks
             walletState wallet fundingUTXO utxoId)
          (λ innerError,
             utxoLockService_unlockUTXO utxoId;;
             throw innerError)
  end.

(** The outer [try] up to the selection, while [fundingUTXO] is [null]. *)
Definition createVaultPrepare (beneficiaries : list Beneficiary)
    : M (WalletState * WalletKind) :=
  if negb (SpellBuilder.validateBeneficiaries beneficiaries)
  then throw validationError
  else
    activeWallet ← getActiveWallet;
    match activeWallet with
    | None => throw walletNotConnected
    | Some active => mret active
    end.

(** [createVault]: one [try] whose [catch] reads the variable [fundingUTXO].
    The selection cannot throw, so the [try] is cut at it: before, the
    variable is [null]; after, it holds what the selector returned. *)
Definition createVault (amount : Z) (beneficiaries : list Beneficiary)
    (triggerDelayBlocks : Z) : M string :=
  '(walletState, wallet) ← try_catch (createVaultPrepare beneficiaries)
                                      (classifyCreateError None);
  fundingUTXO ← selectFundingUTXO (utxos walletState) amount;
  try_catch
    (createVaultFunded amount beneficiaries triggerDelayBlocks walletState
       wallet fundingUTXO)
    (classifyCreateError fundingUTXO).

(** *** [checkin], [updateBeneficiaries], [distribute] *)

Definition invalidVaultStatus (message : string) : exn :=
  CharmVaultError message "INVALID_VAULT_STATUS" None.

(** The [catch] the three operations share, up to the message and code. *)
Definition rewrap {A : Type} (prefix code : string) (error : exn) : M A :=
  if instanceof_CharmVaultError error then throw error
  else throw (CharmVaultError (prefix +:+ message_of error) code (Some error)).

(** Both transactions of the proof service go through the wallet, and what
    the wallet returns is broadcast. *)
Definition signBothAndBroadcast (wallet : WalletKind)
    (proverResponse : string * string) : M string :=
  let '(commitTx, spellTx) := proverResponse in
  signedCommitTx ← signTransaction wallet commitTx;
  signedSpellTx ← signTransaction wallet spellTx;
  broadcastPackage signedCommitTx signedSpellTx.

Definition checkin (vaultId : string) : M string :=
  try_catch
    (vault ← getVault vaultId;
     if negb (bool_decide (vault_status vault = Active))
     then throw (invalidVaultStatus "Can only check in on active vaults")
     else
       activeWallet ← getActiveWallet;
       match activeWallet with
       | None => throw walletNotConnected
       | Some (walletState, wallet) =>
           let vaultUTXO := vaultUTXO_of vaultId vault in
           let vaultCharm := vaultCharm_of vault in
           currentBlock ← getCurrentBlockHeight;
           feeEstimates ← getFeeEstimates;
           spell ← lift (SpellBuilder.buildCheckinSpell (VITE_APP_VK env)
                           (sha256_hex env)
                           {| ci_vaultUTXO := vaultUTXO;
                              ci_vaultCharm := vaultCharm;
                              ci_ownerPubkey := publicKey walletState;
                              ci_currentBlock := currentBlock;
                              ci_changeAddress := wallet_address walletState;
                              ci_feeRate := halfHourFeeOrDefault feeEstimates |});
           prevTxHex ← getRawTransaction (txid vaultUTXO);
           proverRequest ← buildProverRequest spell [prevTxHex] vaultId
                             (value vaultUTXO) (wallet_address walletState)
                             (halfHourFeeOrDefault feeEstimates);
           proverResponse ← proveSpell proverRequest;
           checkinTxid ← signBothAndBroadcast wallet proverResponse;
           let vault :=
             with_unlockBlock (currentBlock + triggerDelayBlocks vault) vault in
           assign vaultId vault;;
           unlockDate ← calculateUnlockDate currentBlock (triggerDelayBlocks vault);
           let vault := with_unlockDate unlockDate vault in
           assign vaultId vault;;
           saveVaultToStorage vault;;
           mret checkinTxid
       end)
    (rewrap "Failed to check in: " "CHECKIN_ERROR").

Definition updateBeneficiaries (vaultId : string)
    (newBeneficiaries : list Beneficiary) : M string :=
  try_catch
    (if negb (SpellBuilder.validateBeneficiaries newBeneficiaries)
     then throw validationError
     else
       vault ← getVault vaultId;
       if negb (bool_decide (vault_status vault = Active))
       then throw (invalidVaultStatus
                     "Can only update beneficiaries on active vaults")
       else
         activeWallet ← getActiveWallet;
         match activeWallet with
         | None => throw walletNotConnected
         | Some (walletState, wallet) =>
             let vaultUTXO := vaultUTXO_of vaultId vault in
             let vaultCharm := vaultCharm_of vault in
             currentBlock ← getCurrentBlockHeight;
             feeEstimates ← getFeeEstimates;
             spell ← lift (SpellBuilder.buildUpdateBeneficiariesSpell
                             (VITE_APP_VK env) (sha256_hex env)
                             {| ub_vaultUTXO := vaultUTXO;
                                ub_vaultCharm := vaultCharm;
                                ub_newBeneficiaries := newBeneficiaries;
                                ub_ownerPubkey := publicKey walletState;
                                ub_currentBlock := currentBlock;
                                ub_changeAddress := wallet_address walletState;
                                ub_feeRate := halfHourFeeOrDefault feeEstimates |});
             prevTxHex ← getRawTransaction (txid vaultUTXO);
             proverRequest ← buildProverRequest spell [prevTxHex] vaultId
                               (value vaultUTXO) (wallet_address walletState)
                               (halfHourFeeOrDefault feeEstimates);
             proverResponse ← proveSpell proverRequest;
             newTxid ← signBothAndBroadcast wallet proverResponse;
             let vault := with_beneficiaries newBeneficiaries vault in
             assign vaultId vault;;
             let vault :=
               with_unlockBlock (currentBlock + triggerDelayBlocks vault) vault in
             assign vaultId vault;;
             unlockDate ← calculateUnlockDate currentBlock
                            (triggerDelayBlocks vault);
             let vault := with_unlockDate unlockDate vault in
             assign vaultId vault;;
             saveVaultToStorage vault;;
             mret newTxid
         end)
    (rewrap "Failed to update beneficiaries: " "UPDATE_ERROR").

Definition vaultLocked (unlockBlock currentBlock : Z) : exn :=
  CharmVaultError
    ("Vault cannot be distributed yet. Unlock block: " +:+ pretty unlockBlock
     +:+ ", Current block: " +:+ pretty currentBlock)
    "VAULT_LOCKED" None.

Definition distribute (vaultId : string) : M string :=
  try_catch
    (vault ← getVault vaultId;
     currentBlock ← getCurrentBlockHeight;
     if bool_decide (currentBlock <= unlockBlock vault)
     then throw (vaultLocked (unlockBlock vault) currentBlock)
     else
       let vaultUTXO := vaultUTXO_of vaultId vault in
       let vaultCharm := vaultCharm_of vault in
       feeEstimates ← getFeeEstimates;
       spell ← lift (SpellBuilder.buildDistributeSpell (VITE_APP_VK env)
                       (sha256_hex env)
                       {| dv_vaultUTXO := vaultUTXO;
                          dv_vaultCharm := vaultCharm;
                          dv_currentBlock := currentBlock;
                          dv_feeRate := halfHourFeeOrDefault feeEstimates |});
       prevTxHex ← getRawTransaction (txid vaultUTXO);
       changeAddress ←
         match vault_beneficiaries vault with
         | first :: _ => mret (address first)
         | [] => throw (Error "Cannot read properties of undefined (reading 'address')")
         end;
       proverRequest ← buildProverRequest spell [prevTxHex] vaultId
                         (value vaultUTXO) changeAddress
                         (halfHourFeeOrDefault feeEstimates);
       proverResponse ← proveSpell proverRequest;
       activeWallet ← getActiveWallet;
       match activeWallet with
       | None => throw walletNotConnected
       | Some (_, wallet) =>
           distributeTxid ← signBothAndBroadcast wallet proverResponse;
           let vault := with_status Distributed vault in
           assign vaultId vault;;
           saveVaultToStorage vault;;
           mret distributeTxid
       end)
    (rewrap "Failed to distribute vault: " "DISTRIBUTE_ERROR").

End Service.

End VaultService.

(** * Specification vocabulary *)

(** ** Triples over computations *)

(** [hoare P m Q E]: run from a world in [P], [m] returns [a] in a world in
    [Q a], or throws [e] in a world in [E e].  Computations are total
    functions, so a triple is a statement about every run. *)
Definition hoare {A : Type} (P : World → Prop) (m : M A)
    (Q : A → World → Prop) (E : exn → World → Prop) : Prop :=
  ∀ w, P w →
    match m w with
    | (Ok a, w') => Q a w'
    | (Throw e, w') => E e w'
    end.

(** [steps ok R m Q]: whatever the outcome, [m] only appends events that
    satisfy [ok], moves the world along [R], and returns values in [Q]. *)
Definition steps {A : Type} (ok : Event → Prop) (R : World → World → Prop)
    (m : M A) (Q : A → Prop) : Prop :=
  ∀ w, (∃ evs, trace (m w).2 = trace w ++ evs ∧ Forall ok evs)
       ∧ R w (m w).2
       ∧ ∀ a, (m w).1 = Ok a → Q a.

(** A relation on worlds that does not look at the trace. *)
Class TraceFrame (R : World → World → Prop) : Prop :=
  trace_frame : ∀ w t, R w (set_trace t w).

(** A predicate on worlds that survives every such step. *)
Definition stable (ok : Event → Prop) (R : World → World → Prop)
    (P : World → Prop) : Prop :=
  ∀ w w' evs, P w → trace w' = trace w ++ evs → Forall ok evs → R w w' → P w'.

(** ** Eligible funding UTXOs *)

(** The registry holds a record for the id that has not expired at [t]. *)
Definition liveLock (t : Z) (utxoId : string)
    (l : UTXOLockService.Locks) : Prop :=
  Exists (λ u, UTXOLockService.utxoId u = utxoId
               ∧ t < UTXOLockService.expiresAt u) l.

(** The id failed less than five minutes before [t]. *)
Definition coolingDown (t : Z) (utxoId : string)
    (failed : gmap string FailedUTXO) : Prop :=
  match failed !! utxoId with
  | Some failure => t - lastFailed failure < 5 * 60 * 1000
  | None => False
  end.

Definition eligible (t requiredAmount : Z) (w : World) (utxo : UTXO) : Prop :=
  requiredAmount <= value utxo
  ∧ ¬ liveLock t (formatUtxoId (txid utxo) (vout utxo)) (lockedUTXOs w)
  ∧ ¬ coolingDown t (formatUtxoId (txid utxo) (vout utxo)) (failedUTXOs w).

#[global] Instance liveLock_dec t utxoId l : Decision (liveLock t utxoId l).
Proof. unfold liveLock. apply _. Defined.

#[global] Instance coolingDown_dec t utxoId failed :
  Decision (coolingDown t utxoId failed).
Proof. unfold coolingDown. destruct (failed !! utxoId); apply _. Defined.

#[global] Instance eligible_dec t requiredAmount w utxo :
  Decision (eligible t requiredAmount w utxo).
Proof. unfold eligible. apply _. Defined.

(** The console lines the selector itself writes. *)
Definition selection_line (line : console) : Prop :=
  match line with
  | LogAutoUnlocking _ | LogCleared _ | LogSkipLocked _
  | LogSkipCoolingDown _ _ => True
  | _ => False
  end.

(** ** The lock discipline of an operation, read off its events *)

Definition acquires (ev : Event) : Prop := ∃ id, ev = Console (LogLocked id).

Definition persists (ev : Event) : Prop := ∃ vault, ev = SaveVault vault.

Definition classifies (ev : Event) : Prop :=
  ∃ id attempt, ev = Console (WarnMarkedFailed id attempt).

(** Either the operation never locked, or it locked one id once and
    unlocked it later, before any vault record was written and before any
    failure was recorded against the UTXO. *)
Inductive lock_discipline (evs : History) : Prop :=
| never_locked :
    Forall (λ ev, ¬ acquires ev) evs → lock_discipline evs
| locked_then_released (id : string) (pre mid post : History) :
    evs = pre ++ Console (LogLocked id) :: mid
              ++ Console (LogUnlocked id) :: post →
    Forall (λ ev, ¬ acquires ev) (pre ++ mid ++ post) →
    Forall (λ ev, ¬ persists ev ∧ ¬ classifies ev) (pre ++ mid) →
    lock_discipline evs.

(** An event that is neither a lock, nor a vault write, nor a failure
    record. *)
Definition calm (ev : Event) : Prop :=
  ¬ acquires ev ∧ ¬ persists ev ∧ ¬ classifies ev.

(** The registry is left as it was. *)
Definition same_locks (w w' : World) : Prop := lockedUTXOs w' = lockedUTXOs w.

#[global] Instance same_locks_refl : Reflexive same_locks.
Proof. by intros w. Qed.

#[global] Instance same_locks_trans : Transitive same_locks.
Proof. unfold same_locks. intros w1 w2 w3 H12 H23. congruence. Qed.

#[global] Instance same_locks_frame : TraceFrame same_locks.
Proof. by intros w t. Qed.

(** Since [w0] the operation has locked [id], still holds the lock, and has
    neither written a vault nor recorded a failure. *)
Definition held (w0 : World) (id : string) (w : World) : Prop :=
  ∃ pre mid,
    trace w = trace w0 ++ pre ++ Console (LogLocked id) :: mid
    ∧ Forall calm (pre ++ mid)
    ∧ UTXOLockService.records id (lockedUTXOs w) ≠ []
    ∧ ∀ u, u ∈ lockedUTXOs w →
           UTXOLockService.utxoId u ≠ id → u ∈ lockedUTXOs w0.

(** Since [w0] the operation has locked [id] and unlocked it again; the
    registry holds no record for [id], and every record it holds was there
    at [w0]. *)
Definition released (w0 : World) (id : string) (w : World) : Prop :=
  ∃ pre mid post,
    trace w = trace w0 ++ pre ++ Console (LogLocked id) :: mid
                ++ Console (LogUnlocked id) :: post
    ∧ Forall calm (pre ++ mid)
    ∧ Forall (λ ev, ¬ acquires ev) post
    ∧ UTXOLockService.records id (lockedUTXOs w) = []
    ∧ ∀ u, u ∈ lockedUTXOs w → u ∈ lockedUTXOs w0.

(** Locked, unlocked, and then the vault record written, last of all. *)
Definition released_and_saved (evs : History) : Prop :=
  ∃ id pre mid post vault,
    evs = pre ++ Console (LogLocked id) :: mid
              ++ Console (LogUnlocked id) :: post ++ [SaveVault vault]
    ∧ Forall calm (pre ++ mid)
    ∧ Forall (λ ev, ¬ acquires ev) post.

(** No record is left for an id the events show being locked. *)
Definition nothing_held (evs : History) (w : World) : Prop :=
  ∀ id, Console (LogLocked id) ∈ evs →
        UTXOLockService.records id (lockedUTXOs w) = [].

(** ** What a proof request says about the contract state it spends *)

(** The spell of the request has one input, and the contract state attached
    to it was last checked in at block [b]. *)
Definition presents_checkin_at (b : Z) (request : ProverRequest) : Prop :=
  ∃ utxo_id charm,
    ins (spell request)
    = [ {| utxo_id := utxo_id; in_charms := Some {[ "$00" := charm ]} |} ]
    ∧ last_checkin_block charm = b.

(** Every proof request among the events presents a state checked in at
    [b]. *)
Definition requests_pinned_at (b : Z) (ev : Event) : Prop :=
  ∀ request, ev = ProveSpell request → presents_checkin_at b request.

(** If the cache held a record created at block [b] under [vaultId], it
    still does. *)
Definition created_kept (vaultId : string) (b : Z) (w w' : World) : Prop :=
  (∃ v, vaultsCache w !! vaultId = Some v ∧ createdBlock v = b) →
  ∃ v', vaultsCache w' !! vaultId = Some v' ∧ createdBlock v' = b.

#[global] Instance created_kept_refl vaultId b : Reflexive (created_kept vaultId b).
Proof. by intros w H. Qed.

#[global] Instance created_kept_trans vaultId b :
  Transitive (created_kept vaultId b).
Proof. intros w1 w2 w3 H12 H23 H. by apply H23, H12. Qed.

#[global] Instance created_kept_frame vaultId b :
  TraceFrame (created_kept vaultId b).
Proof. by intros w t H. Qed.

(** The cache of vault records is left as it was. *)
Definition same_cache (w w' : World) : Prop := vaultsCache w' = vaultsCache w.

#[global] Instance same_cache_refl : Reflexive same_cache.
Proof. by intros w. Qed.

#[global] Instance same_cache_trans : Transitive same_cache.
Proof. unfold same_cache. intros w1 w2 w3 H12 H23. congruence. Qed.

#[global] Instance same_cache_frame : TraceFrame same_cache.
Proof. by intros w t. Qed.

(** No constraint on the world. *)
Definition any_world (w w' : World) : Prop := True.

#[global] Instance any_world_refl : Reflexive any_world.
Proof. by intros w. Qed.

#[global] Instance any_world_trans : Transitive any_world.
Proof. by intros w1 w2 w3 _ _. Qed.

#[global] Instance any_world_frame : TraceFrame any_world.
Proof. by intros w t. Qed.

(** The operations on an existing vault, and a session that runs some of
    them one after the other, whatever each returns or throws. *)
Inductive VaultOp :=
| Checkin
| UpdateBeneficiaries (newBeneficiaries : list Beneficiary)
| Distribute.

Definition runOp (env : Env) (vaultId : string) (op : VaultOp) : M string :=
  match op with
  | Checkin => VaultService.checkin env vaultId
  | UpdateBeneficiaries newBeneficiaries =>
      VaultService.updateBeneficiaries env vaultId newBeneficiaries
  | Distribute => VaultService.distribute env vaultId
  end.

Definition runOps (env : Env) (vaultId : string) (ops : list VaultOp)
    (w : World) : World :=
  fold_left (λ w op, (runOp env vaultId op w).2) ops w.

(** The packages handed to the node: (commit, spell) pairs, in order. *)
Definition broadcasts (h : History) : list (string * string) :=
  omap (λ ev, match ev with
              | BroadcastPackage commitTxHex spellTxHex =>
                  Some (commitTxHex, spellTxHex)
              | _ => None
              end) h.

(** The console lines among the events, in order. *)
Definition consoleLines (h : History) : list console :=
  omap (λ ev, match ev with Console line => Some line | _ => None end) h.

(** The proof service returned [spellTx] as the spell transaction of some
    request. *)
Definition proved (env : Env) (spellTx : string) : Prop :=
  ∃ h request commitTx,
    proverClient_proveSpell env h request = Ok (commitTx, spellTx).

(** An event is fine unless it hands the node a spell transaction that the
    proof service never returned. *)
Definition as_received (env : Env) (ev : Event) : Prop :=
  ∀ commitTxHex spellTxHex,
    ev = BroadcastPackage commitTxHex spellTxHex → proved env spellTxHex.

(** ** Sessions on the lock registry *)

(** The calls the registry offers, each with the clock value it reads. *)
Inductive RegistryOp :=
| LockUTXO (now : Z) (utxoId : string) (lockType : UTXOLockService.LockType)
| UnlockUTXO (utxoId : string)
| IsLocked (now : Z) (utxoId : string)
| ClearExpiredLocks (now : Z)
| GetLockedUTXOs (now : Z).

(** The registry a call leaves stored. *)
Definition runRegistryOp (op : RegistryOp) (l : UTXOLockService.Locks)
    : UTXOLockService.Locks :=
  match op with
  | LockUTXO now utxoId lockType =>
      (UTXOLockService.lockUTXO now utxoId lockType l).1
  | UnlockUTXO utxoId => (UTXOLockService.unlockUTXO utxoId l).1
  | IsLocked now utxoId => (UTXOLockService.isLocked now utxoId l).1.2
  | ClearExpiredLocks now => (UTXOLockService.clearExpiredLocks now l).1
  | GetLockedUTXOs now => (UTXOLockService.getLockedUTXOs now l).1.2
  end.

Definition runRegistry (ops : list RegistryOp) (l : UTXOLockService.Locks)
    : UTXOLockService.Locks :=
  fold_left (λ l op, runRegistryOp op l) ops l.

(** The record expires one timeout after it was taken. *)
Definition timed (u : UTXOLockService.LockedUTXO) : Prop :=
  UTXOLockService.expiresAt u
  = UTXOLockService.lockedAt u + UTXOLockService.LOCK_TIMEOUT.

(** ** What the operations leave untouched *)

(** The lock registry and the failure memory are left as they were. *)
Definition same_funding (w w' : World) : Prop :=
  lockedUTXOs w' = lockedUTXOs w ∧ failedUTXOs w' = failedUTXOs w.

#[global] Instance same_funding_refl : Reflexive same_funding.
Proof. by intros w. Qed.

#[global] Instance same_funding_trans : Transitive same_funding.
Proof. unfold same_funding. intros w1 w2 w3 [] []. split; congruence. Qed.

#[global] Instance same_funding_frame : TraceFrame same_funding.
Proof. by intros w t. Qed.

(** The stored vault records are left as they were. *)
Definition same_storage (w w' : World) : Prop := vaultStorage w' = vaultStorage w.

#[global] Instance same_storage_refl : Reflexive same_storage.
Proof. by intros w. Qed.

#[global] Instance same_storage_trans : Transitive same_storage.
Proof. unfold same_storage. intros w1 w2 w3 H12 H23. congruence. Qed.

#[global] Instance same_storage_frame : TraceFrame same_storage.
Proof. by intros w t. Qed.

(** An event that is not a console line. *)
Definition silent (ev : Event) : Prop := ∀ line, ev ≠ Console line.

(** Since [w0] no vault record has been written. *)
Definition unsaved (w0 w : World) : Prop :=
  vaultStorage w = vaultStorage w0
  ∧ ∃ evs, trace w = trace w0 ++ evs ∧ Forall (λ ev, ¬ persists ev) evs.

(** A look at the chain: the height, the fee estimates, or a raw
    transaction. *)
Definition reads_chain (ev : Event) : Prop :=
  ev = GetCurrentBlockHeight ∨ ev = GetFeeEstimates
  ∨ ∃ txid, ev = GetRawTransaction txid.

(** ** The vault record after an operation *)

(** What a check-in that returns leaves of the record [v] it read: the
    unlock block and date are moved, every other field is kept, and the
    cache and the storage hold the same record. *)
Definition checkedIn (env : Env) (vaultId : string) (v : Vault)
    (w' : World) : Prop :=
  ∃ currentBlock h h',
    bitcoinClient_getCurrentBlockHeight env h = Ok currentBlock
    ∧ let v' := VaultService.with_unlockDate
                  (Date_now env h' + triggerDelayBlocks v * 10 * 60 * 1000)
                  (VaultService.with_unlockBlock
                     (currentBlock + triggerDelayBlocks v) v) in
      vaultsCache w' !! vaultId = Some v' ∧ vaultStorage w' !! id v = Some v'.

(** What a beneficiary update that returns leaves of the record. *)
Definition updated (env : Env) (vaultId : string)
    (newBeneficiaries : list Beneficiary) (v : Vault) (w' : World) : Prop :=
  ∃ currentBlock h h',
    bitcoinClient_getCurrentBlockHeight env h = Ok currentBlock
    ∧ let v' := VaultService.with_unlockDate
                  (Date_now env h' + triggerDelayBlocks v * 10 * 60 * 1000)
                  (VaultService.with_unlockBlock
                     (currentBlock + triggerDelayBlocks v)
                     (VaultService.with_beneficiaries newBeneficiaries v)) in
      vaultsCache w' !! vaultId = Some v' ∧ vaultStorage w' !! id v = Some v'.

(** The record [createVault] keeps of the vault it has just created. *)
Definition createdRecord (env : Env) (amount delay : Z) (bs : list Beneficiary)
    (vaultTxid : string) (vault : Vault) : Prop :=
  id vault = vaultTxid +:+ ":0"
  ∧ vault_status vault = Active
  ∧ lockedBTC vault = Double.round (inject_Z amount / 100000000)
  ∧ vault_beneficiaries vault = bs
  ∧ triggerDelayBlocks vault = delay
  ∧ unlockBlock vault = createdBlock vault + delay
  ∧ (∃ h, bitcoinClient_getCurrentBlockHeight env h = Ok (createdBlock vault))
  ∧ (∃ h, unlockDate vault = Date_now env h + delay * 10 * 60 * 1000)
  ∧ ∃ created, transactions vault = [created]
      ∧ vt_txid created = vaultTxid ∧ vt_type created = tx_create
      ∧ blockHeight created = createdBlock vault ∧ confirmations created = 0.

(** The cache and the storage both hold that record under the vault id. *)
Definition kept (env : Env) (amount delay : Z) (bs : list Beneficiary)
    (vaultTxid : string) (w' : World) : Prop :=
  ∃ vault, createdRecord env amount delay bs vaultTxid vault
    ∧ vaultsCache w' !! (vaultTxid +:+ ":0") = Some vault
    ∧ vaultStorage w' !! (vaultTxid +:+ ":0") = Some vault.

(** ** What the proof service is asked *)

(** A proof request for a new vault of [amount] sats: one plain funding UTXO,
    worth at least the amount and the minimum, is spent into one output of
    exactly [amount] sats, at a fee rate that is not zero. *)
Definition funded (amount : Z) (request : ProverRequest) : Prop :=
  3000 <= funding_utxo_value request
  ∧ amount <= funding_utxo_value request
  ∧ ¬ (fee_rate request == 0)%Q
  ∧ ins (spell request)
    = [ {| utxo_id := funding_utxo request; in_charms := Some ∅ |} ]
  ∧ ∃ out, outs (spell request) = [out] ∧ sats out = amount
           ∧ out_address out = change_address request.

Definition requests_funded (amount : Z) (ev : Event) : Prop :=
  ∀ request, ev = ProveSpell request → funded amount request.

(** A proof request as every operation builds it: for the Bitcoin chain, with
    one previous transaction, the contract binary under the configured
    verification key, a fee rate that is not zero, and a version-8 spell
    that spends one UTXO for the application derived from that UTXO's id. *)
Definition well_formed (env : Env) (request : ProverRequest) : Prop :=
  chain request = "bitcoin"
  ∧ length (prev_txs request) = 1%nat
  ∧ (∃ wasmBase64, binaries request = {[ VITE_APP_VK env := wasmBase64 ]})
  ∧ ¬ (fee_rate request == 0)%Q
  ∧ version (spell request) = 8
  ∧ ∃ input, ins (spell request) = [input]
      ∧ apps (spell request)
        = {[ "$00" := SpellBuilder.buildAppReference (VITE_APP_VK env)
                        (sha256_hex env) (utxo_id input) ]}.

Definition requests_well_formed (env : Env) (ev : Event) : Prop :=
  ∀ request, ev = ProveSpell request → well_formed env request.

(** ** Failures recorded against a funding UTXO *)

(** Since [w0] no failure has been recorded against a UTXO. *)
Definition unmarked (w0 w : World) : Prop :=
  ∃ pre, trace w = trace w0 ++ pre ∧ Forall (λ ev, ¬ classifies ev) pre.

(** Since [w0] one failure has been recorded, as the last thing done, and
    the error thrown is the one that asks the user to try again. *)
Definition marked (w0 : World) (e : exn) (w : World) : Prop :=
  ∃ cause pre utxoId attempt t,
    e = VaultService.duplicateUTXO cause
    ∧ includes (message_of cause) "duplicate funding UTXO" = true
    ∧ trace w = trace w0 ++ pre ++ [Console (WarnMarkedFailed utxoId attempt)]
    ∧ Forall (λ ev, ¬ classifies ev) pre
    ∧ failedUTXOs w !! utxoId = Some {| count := attempt; lastFailed := t |}.

(** ** The PSBT the converter builds *)

(** A PSBT builder that, whenever it accepts an input or an output, appends
    it to what the PSBT holds. *)
Definition appends (bitcoin : PsbtHelper.Bitcoinjs) : Prop :=
  (∀ psbt input psbt',
     PsbtHelper.Psbt_addInput bitcoin psbt input = Ok psbt' →
     psbt' = {| PsbtHelper.psbt_network := PsbtHelper.psbt_network psbt;
                PsbtHelper.inputs := PsbtHelper.inputs psbt ++ [input];
                PsbtHelper.outputs := PsbtHelper.outputs psbt |})
  ∧ (∀ psbt output psbt',
       PsbtHelper.Psbt_addOutput bitcoin psbt output = Ok psbt' →
       psbt' = {| PsbtHelper.psbt_network := PsbtHelper.psbt_network psbt;
                  PsbtHelper.inputs := PsbtHelper.inputs psbt;
                  PsbtHelper.outputs := PsbtHelper.outputs psbt ++ [output] |}).

(** The input the converter adds for the [i]-th input of the transaction:
    only the first carries the output it spends. *)
Definition convertedInput (prevOut : PsbtHelper.TxOutput) (i : nat)
    (input : PsbtHelper.TxInput) : PsbtHelper.PsbtInput :=
  PsbtHelper.plainInput (PsbtHelper.toHex (reverse (PsbtHelper.hash input)))
    (PsbtHelper.index input)
    (if bool_decide (i = 0%nat) then Some prevOut else None).

(** [next] is [psbt] with [result] at position [i] and nothing else
    changed. *)
Definition replacesInput (psbt : PsbtHelper.Psbt) (i : nat)
    (result : PsbtHelper.PsbtInput) (next : PsbtHelper.Psbt) : Prop :=
  PsbtHelper.inputs next !! i = Some result
  ∧ (∀ j, j ≠ i → PsbtHelper.inputs next !! j = PsbtHelper.inputs psbt !! j)
  ∧ PsbtHelper.outputs next = PsbtHelper.outputs psbt
  ∧ PsbtHelper.psbt_network next = PsbtHelper.psbt_network psbt.

(** [result] is [input] with [witnessStack] as its final script witness:
    no other field differs. *)
Definition witnessSet (input : PsbtHelper.PsbtInput)
    (witnessStack : PsbtHelper.Buffer) (result : PsbtHelper.PsbtInput) : Prop :=
  PsbtHelper.finalScriptWitness result = Some witnessStack
  ∧ PsbtHelper.prev_hash result = PsbtHelper.prev_hash input
  ∧ PsbtHelper.prev_index result = PsbtHelper.prev_index input
  ∧ PsbtHelper.witnessUtxo result = PsbtHelper.witnessUtxo input
  ∧ PsbtHelper.tapKeySig result = PsbtHelper.tapKeySig input
  ∧ PsbtHelper.partialSig result = PsbtHelper.partialSig input
  ∧ PsbtHelper.finalScriptSig result = PsbtHelper.finalScriptSig input.

(** What the manual loop leaves at position [j], where it found [input]:
    the input itself if it was finalized already, or what the library's
    finalizer returned, or the input with the witness assembled by hand. *)
Definition finalizedBy (bitcoin : PsbtHelper.Bitcoinjs)
    (input : PsbtHelper.PsbtInput) (j : nat)
    (result : PsbtHelper.PsbtInput) : Prop :=
  if PsbtHelper.alreadyFinalized input then result = input
  else (∃ cur, PsbtHelper.Psbt_finalizeInput bitcoin cur j = Ok result)
       ∨ (∃ witnessStack,
            PsbtHelper.manualWitness input = Some witnessStack
            ∧ result = PsbtHelper.setFinalScriptWitness input witnessStack).

(** ** Worked examples *)

Definition heir (address : string) (percentage : Z) : Beneficiary :=
  {| address := address; percentage := percentage |}.

Definition exampleDistribute (V L D B : Z) (bs : list Beneficiary)
    : DistributeVaultParams :=
  {| dv_vaultUTXO := {| txid := "aa"; vout := 0; value := V;
                        scriptPubKey := "" |};
     dv_vaultCharm := {| owner_pubkey := "02ab"; last_checkin_block := L;
                         trigger_delay_blocks := D; beneficiaries := bs;
                         status := Active |};
     dv_currentBlock := B;
     dv_feeRate := 2 |}.

Definition exampleDigest (s : string) : string := "00".

Definition exampleBitcoinjs : PsbtHelper.Bitcoinjs :=
  {| PsbtHelper.Transaction_fromHex := λ _,
       Ok {| PsbtHelper.tx_ins :=
               [ {| PsbtHelper.hash := [171; 205]; PsbtHelper.index := 0 |} ];
             PsbtHelper.tx_outs :=
               [ {| PsbtHelper.script := [81; 32];
                    PsbtHelper.out_value := 5000 |} ] |};
     PsbtHelper.Transaction_toHex := λ _, "0200";
     PsbtHelper.Psbt_fromHex := λ _ network, Ok (PsbtHelper.newPsbt network);
     PsbtHelper.Psbt_toHex := λ _, "70736274ff";
     PsbtHelper.Psbt_addInput := λ psbt _, Ok psbt;
     PsbtHelper.Psbt_addOutput := λ psbt _, Ok psbt;
     PsbtHelper.Psbt_finalizeAllInputs := λ psbt, (psbt, None);
     PsbtHelper.Psbt_finalizeInput := λ _ _, Throw (Error "Can not finalize input");
     PsbtHelper.Psbt_extractTransaction := λ _,
       Ok {| PsbtHelper.tx_ins := []; PsbtHelper.tx_outs := [] |} |}.

(** A signed PSBT of two inputs, neither finalized: the first carries a
    Taproot key signature, the second a signature and its public key. *)
Definition examplePsbt : PsbtHelper.Psbt :=
  {| PsbtHelper.psbt_network := PsbtHelper.testnet;
     PsbtHelper.inputs :=
       [ {| PsbtHelper.prev_hash := "aa"; PsbtHelper.prev_index := 0;
            PsbtHelper.witnessUtxo := None;
            PsbtHelper.tapKeySig := Some [171; 205];
            PsbtHelper.partialSig := [];
            PsbtHelper.finalScriptWitness := None;
            PsbtHelper.finalScriptSig := None |};
         {| PsbtHelper.prev_hash := "bb"; PsbtHelper.prev_index := 1;
            PsbtHelper.witnessUtxo := None;
            PsbtHelper.tapKeySig := None;
            PsbtHelper.partialSig :=
              [ {| PsbtHelper.pubkey := [2; 3]; PsbtHelper.signature := [48; 1; 2] |} ];
            PsbtHelper.finalScriptWitness := None;
            PsbtHelper.finalScriptSig := None |} ];
     PsbtHelper.outputs := [] |}.

(** A PSBT that came back without a signature on its only input. *)
Definition unsignedPsbt : PsbtHelper.Psbt :=
  {| PsbtHelper.psbt_network := PsbtHelper.testnet;
     PsbtHelper.inputs :=
       [ {| PsbtHelper.prev_hash := "aa"; PsbtHelper.prev_index := 0;
            PsbtHelper.witnessUtxo := None;
            PsbtHelper.tapKeySig := None;
            PsbtHelper.partialSig := [];
            PsbtHelper.finalScriptWitness := None;
            PsbtHelper.finalScriptSig := None |} ];
     PsbtHelper.outputs := [] |}.

(** A library whose standard finalizer rejects every input. *)
Definition strictBitcoinjs : PsbtHelper.Bitcoinjs :=
  {| PsbtHelper.Transaction_fromHex := λ _,
       Ok {| PsbtHelper.tx_ins := []; PsbtHelper.tx_outs := [] |};
     PsbtHelper.Transaction_toHex := λ _, "0200";
     PsbtHelper.Psbt_fromHex := λ _ _, Ok examplePsbt;
     PsbtHelper.Psbt_toHex := λ _, "70736274ff";
     PsbtHelper.Psbt_addInput := λ psbt _, Ok psbt;
     PsbtHelper.Psbt_addOutput := λ psbt _, Ok psbt;
     PsbtHelper.Psbt_finalizeAllInputs := λ psbt,
       (psbt, Some (Error "Can not finalize input #0"));
     PsbtHelper.Psbt_finalizeInput := λ _ _, Throw (Error "Can not finalize input");
     PsbtHelper.Psbt_extractTransaction := λ _,
       Ok {| PsbtHelper.tx_ins := []; PsbtHelper.tx_outs := [] |} |}.

(** The same library, given the unsigned PSBT to parse. *)
Definition unsignedBitcoinjs : PsbtHelper.Bitcoinjs :=
  {| PsbtHelper.Transaction_fromHex := λ _,
       Ok {| PsbtHelper.tx_ins := []; PsbtHelper.tx_outs := [] |};
     PsbtHelper.Transaction_toHex := λ _, "0200";
     PsbtHelper.Psbt_fromHex := λ _ _, Ok unsignedPsbt;
     PsbtHelper.Psbt_toHex := λ _, "70736274ff";
     PsbtHelper.Psbt_addInput := λ psbt _, Ok psbt;
     PsbtHelper.Psbt_addOutput := λ psbt _, Ok psbt;
     PsbtHelper.Psbt_finalizeAllInputs := λ psbt,
       (psbt, Some (Error "Can not finalize input #0"));
     PsbtHelper.Psbt_finalizeInput := λ _ _, Throw (Error "Can not finalize input");
     PsbtHelper.Psbt_extractTransaction := λ _,
       Ok {| PsbtHelper.tx_ins := []; PsbtHelper.tx_outs := [] |} |}.

Definition exampleWallet (utxos : list UTXO) : WalletState :=
  {| connected := true; wallet_address := "tb1qowner"; publicKey := "02ab";
     balance := 0; utxos := utxos |}.

Definition exampleFees : FeeEstimates :=
  {| fastestFee := 10; halfHourFee := 5; hourFee := 3; economyFee := 2;
     minimumFee := 1 |}.

(** A wallet that returns the signed PSBT of what it is given. *)
Definition psbtSigner (txHex : string) : Res string :=
  Ok ("70736274ff" +:+ txHex).

(** A node that accepts every package. *)
Definition openNode (commitTxHex spellTxHex : string) : Res string := Ok "f00d".

(** A node that rejects every package. *)
Definition closedNode (commitTxHex spellTxHex : string) : Res string :=
  Throw (Error "connect ECONNREFUSED").

(** A node that rejects the unsigned commit transaction ["c0"]. *)
Definition strictNode (commitTxHex spellTxHex : string) : Res string :=
  if bool_decide (commitTxHex = "c0")
  then Throw (Error "mandatory-script-verify-flag-failed")
  else Ok "f00d".

(** A session at clock [t] and chain height [height]: a Leather wallet
    holding [utxos], whose signer answers [sign], a proof service that
    returns the pair [("c0", "5e")], and the node [node]. *)
Definition exampleEnv (t height : Z) (utxos : list UTXO)
    (sign : string → Res string) (node : string → string → Res string) : Env :=
  {| VITE_APP_VK := "vk";
     VITE_BITCOIN_NETWORK := "testnet4";
     sha256_hex := exampleDigest;
     parseInt := λ _, 0;
     bitcoinjs := exampleBitcoinjs;
     Date_now := λ _, t;
     leatherWallet_getWalletState := λ _, Some (exampleWallet utxos);
     unisatWallet_getWalletState := λ _, None;
     wallet_signTransaction := λ _ _ txHex, sign txHex;
     bitcoinClient_getCurrentBlockHeight := λ _, Ok height;
     bitcoinClient_getFeeEstimates := λ _, exampleFees;
     bitcoinClient_getRawTransaction := λ _ _, Ok "0100";
     bitcoinClient_broadcastPackage := λ _, node;
     proverClient_loadContractWasm := λ _, Ok "AGFzbQ==";
     proverClient_proveSpell := λ _ _, Ok ("c0", "5e") |}.

Definition emptyWorld : World :=
  {| lockedUTXOs := []; failedUTXOs := ∅; vaultsCache := ∅;
     vaultStorage := ∅; trace := [] |}.

Definition utxoA : UTXO :=
  {| txid := "A"; vout := 0; value := 5000; scriptPubKey := "" |}.

Definition utxoB : UTXO :=
  {| txid := "B"; vout := 0; value := 10000; scriptPubKey := "" |}.

(** A world in which [utxoA] is locked until [expires]. *)
Definition worldWithALocked (expires : Z) : World :=
  set_lockedUTXOs
    [ {| UTXOLockService.utxoId := "A:0"; UTXOLockService.lockedAt := 0;
         UTXOLockService.lockType := UTXOLockService.creating_vault;
         UTXOLockService.expiresAt := expires |} ]
    emptyWorld.

(** An active vault created at block [created] with delay [delay], last
    checked in so that it unlocks at [unlock]. *)
Definition exampleVault (created delay unlock : Z) : Vault :=
  {| id := "f00d:0"; vault_type := "Inheritance"; vault_status := Active;
     lockedBTC := Double.round (inject_Z 100000 / 100000000); unlockDate := 0;
     unlockBlock := unlock; createdAt := 0; createdBlock := created;
     vault_beneficiaries := [heir "tb1qheir1" 60; heir "tb1qheir2" 40];
     ownerPubkey := "02ab"; triggerDelayBlocks := delay;
     transactions := [] |}.

Definition worldWithVault (vault : Vault) : World :=
  set_vaultStorage {[ id vault := vault ]} emptyWorld.

(** A PSBT builder that accepts every input and output and keeps them in
    order; its serialisation tells how many it holds. *)
Definition recordingBitcoinjs : PsbtHelper.Bitcoinjs :=
  {| PsbtHelper.Transaction_fromHex :=
       PsbtHelper.Transaction_fromHex exampleBitcoinjs;
     PsbtHelper.Transaction_toHex := λ _, "0200";
     PsbtHelper.Psbt_fromHex := λ _ network, Ok (PsbtHelper.newPsbt network);
     PsbtHelper.Psbt_toHex := λ psbt,
       "70736274ff" +:+ pretty (length (PsbtHelper.inputs psbt))
         +:+ pretty (length (PsbtHelper.outputs psbt));
     PsbtHelper.Psbt_addInput := λ psbt input,
       Ok {| PsbtHelper.psbt_network := PsbtHelper.psbt_network psbt;
             PsbtHelper.inputs := PsbtHelper.inputs psbt ++ [input];
             PsbtHelper.outputs := PsbtHelper.outputs psbt |};
     PsbtHelper.Psbt_addOutput := λ psbt output,
       Ok {| PsbtHelper.psbt_network := PsbtHelper.psbt_network psbt;
             PsbtHelper.inputs := PsbtHelper.inputs psbt;
             PsbtHelper.outputs := PsbtHelper.outputs psbt ++ [output] |};
     PsbtHelper.Psbt_finalizeAllInputs := λ psbt, (psbt, None);
     PsbtHelper.Psbt_finalizeInput := λ _ _, Throw (Error "Can not finalize input");
     PsbtHelper.Psbt_extractTransaction := λ _,
       Ok {| PsbtHelper.tx_ins := []; PsbtHelper.tx_outs := [] |} |}.

(** A session in which the proof service rejects every request because it
    has seen the funding UTXO before. *)
Definition duplicateEnv (t height : Z) (utxos : list UTXO) : Env :=
  {| VITE_APP_VK := "vk";
     VITE_BITCOIN_NETWORK := "testnet4";
     sha256_hex := exampleDigest;
     parseInt := λ _, 0;
     bitcoinjs := exampleBitcoinjs;
     Date_now := λ _, t;
     leatherWallet_getWalletState := λ _, Some (exampleWallet utxos);
     unisatWallet_getWalletState := λ _, None;
     wallet_signTransaction := λ _ _ txHex, psbtSigner txHex;
     bitcoinClient_getCurrentBlockHeight := λ _, Ok height;
     bitcoinClient_getFeeEstimates := λ _, exampleFees;
     bitcoinClient_getRawTransaction := λ _ _, Ok "0100";
     bitcoinClient_broadcastPackage := λ _, openNode;
     proverClient_loadContractWasm := λ _, Ok "AGFzbQ==";
     proverClient_proveSpell := λ _ _,
       Throw (ProverError
                "Duplicate UTXO: This UTXO was already submitted to the Prover API. duplicate funding UTXO"
                (Error "Request failed with status code 400")) |}.

(** A session whose clock advances by four minutes with every call
    awaited. *)
Definition tickingEnv (utxos : list UTXO) : Env :=
  {| VITE_APP_VK := "vk";
     VITE_BITCOIN_NETWORK := "testnet4";
     sha256_hex := exampleDigest;
     parseInt := λ _, 0;
     bitcoinjs := exampleBitcoinjs;
     Date_now := λ h, Z.of_nat (length h) * (4 * 60 * 1000);
     leatherWallet_getWalletState := λ _, Some (exampleWallet utxos);
     unisatWallet_getWalletState := λ _, None;
     wallet_signTransaction := λ _ _ txHex, psbtSigner txHex;
     bitcoinClient_getCurrentBlockHeight := λ _, Ok 800000;
     bitcoinClient_getFeeEstimates := λ _, exampleFees;
     bitcoinClient_getRawTransaction := λ _ _, Ok "0100";
     bitcoinClient_broadcastPackage := λ _, openNode;
     proverClient_loadContractWasm := λ _, Ok "AGFzbQ==";
     proverClient_proveSpell := λ _ _, Ok ("c0", "5e") |}.

(** The world after [calls] look-ups of the chain height. *)
Definition worldAfter (calls : nat) : World :=
  set_trace (replicate calls GetCurrentBlockHeight) emptyWorld.

(** A vault record that is not active any more. *)
Definition distributedVault : Vault :=
  VaultService.with_status Distributed (exampleVault 100 50 150).

(** A vault record that names no beneficiary. *)
Definition orphanVault : Vault :=
  VaultService.with_beneficiaries [] (exampleVault 100 50 150).

(** * Properties *)

(** ** The lock registry *)

Section LockRegistry.

Import UTXOLockService.

Implicit Types (l : Locks) (x id : string) (u : LockedUTXO).

Lemma findLock_Some id l u :
  findLock id l = Some u → u ∈ l ∧ utxoId u = id.
Proof.
  unfold findLock. intros H. apply find_some in H as [Hin Heq].
  apply bool_decide_eq_true in Heq. split; [by apply list_elem_of_In | done].
Qed.

Lemma findLock_None id l :
  findLock id l = None ↔ records id l = [].
Proof.
  unfold findLock, records. induction l as [|u l IH]; simpl; [done|].
  rewrite filter_cons. case_bool_decide as Hu.
  - rewrite decide_True by done. split; discriminate.
  - rewrite decide_False by done. exact IH.
Qed.

Lemma findLock_records id l u :
  findLock id l = Some u → ∃ rest, records id l = u :: rest.
Proof.
  unfold findLock, records. induction l as [|u' l IH]; simpl; [done|].
  rewrite filter_cons. case_bool_decide as Hu.
  - intros [= ->]. rewrite decide_True by done. eauto.
  - rewrite decide_False by done. exact IH.
Qed.

Lemma filter_length_eq {A} (P : A → Prop) `{∀ a, Decision (P a)} (l : list A) :
  length (filter P l) = length l → filter P l = l.
Proof.
  induction l as [|a l IH]; [done|]. rewrite filter_cons.
  destruct (decide (P a)); simpl.
  - intros [= Hlen]. by rewrite IH.
  - intros Hlen. pose proof (length_filter P l). lia.
Qed.

Lemma filter_none {A} (P : A → Prop) `{∀ a, Decision (P a)} (l : list A) :
  (∀ a, a ∈ l → ¬ P a) → filter P l = [].
Proof.
  induction l as [|a l IH]; [done|]. intros Hall.
  rewrite filter_cons_False by (apply Hall; left).
  apply IH. intros b Hb. apply Hall. by right.
Qed.

(** Whether it warns or not, [unlockUTXO] leaves the registry without the
    records of the id. *)
Lemma unlockUTXO_state id l :
  (unlockUTXO id l).1 = filter (λ u, utxoId u ≠ id) l.
Proof.
  unfold unlockUTXO. case_decide as Hlen; simpl; [|done].
  symmetry. by apply filter_length_eq.
Qed.

Lemma unlockUTXO_records id l : records id (unlockUTXO id l).1 = [].
Proof.
  rewrite unlockUTXO_state. unfold records. apply filter_none.
  intros u [Hu _]%list_elem_of_filter. done.
Qed.

Lemma unlockUTXO_other id id' l :
  id ≠ id' → records id' (unlockUTXO id l).1 = records id' l.
Proof.
  intros Hne. rewrite unlockUTXO_state. unfold records.
  rewrite list_filter_filter. apply list_filter_iff.
  intros u. split; [tauto | intros Hu; split; congruence].
Qed.

Lemma unlockUTXO_absent id l :
  records id l = [] → unlockUTXO id l = (l, [WarnNotLocked id]).
Proof.
  intros Hnone. unfold unlockUTXO.
  assert (filter (λ u, utxoId u ≠ id) l = l) as ->.
  { clear -Hnone. unfold records in Hnone.
    induction l as [|u l IH]; [done|]. rewrite filter_cons in Hnone |- *.
    destruct (decide (utxoId u = id)); [done|].
    rewrite decide_True by done. by rewrite IH. }
  by rewrite decide_True.
Qed.

Lemma wf_records id l : wf l → (length (records id l) ≤ 1)%nat.
Proof.
  unfold wf, records. induction l as [|u l IH]; [simpl; lia|].
  rewrite fmap_cons, NoDup_cons. intros [Hfresh Hnd].
  rewrite filter_cons. case_decide as Hu; [|by apply IH].
  rewrite filter_none; [simpl; lia|].
  intros u' Hin Heq. apply Hfresh. rewrite Hu, <- Heq.
  by apply list_elem_of_fmap_2.
Qed.

Lemma wf_nil : wf [].
Proof. unfold wf. constructor. Qed.

Lemma wf_filter (P : LockedUTXO → Prop) `{∀ u, Decision (P u)} l :
  wf l → wf (filter P l).
Proof.
  unfold wf. induction l as [|u l IH]; [done|].
  rewrite fmap_cons, NoDup_cons. intros [Hfresh Hnd].
  rewrite filter_cons. case_decide; [|by apply IH].
  rewrite fmap_cons, NoDup_cons. split; [|by apply IH].
  intros (u' & Heq & Hin%list_elem_of_filter)%list_elem_of_fmap.
  apply Hfresh. rewrite Heq. apply list_elem_of_fmap_2. tauto.
Qed.

Lemma wf_lockUTXO t id ty l : wf l → wf (lockUTXO t id ty l).1.
Proof.
  unfold lockUTXO. destruct (findLock id l) eqn:Hfind; simpl; [done|].
  apply findLock_None in Hfind. unfold wf. intros Hnd.
  rewrite fmap_app. apply NoDup_app. split; [done|]. split.
  - intros i (u & -> & Hin)%list_elem_of_fmap Hi.
    apply list_elem_of_singleton in Hi. simpl in Hi.
    exact (filter_nil_not_elem_of _ _ _ Hfind Hi Hin).
  - simpl. apply NoDup_singleton.
Qed.

Lemma wf_unlockUTXO id l : wf l → wf (unlockUTXO id l).1.
Proof. rewrite unlockUTXO_state. apply wf_filter. Qed.

Lemma wf_isLocked t id l : wf l → wf (isLocked t id l).1.2.
Proof.
  intros Hwf. unfold isLocked. destruct (findLock id l); [|done].
  case_bool_decide; [|done].
  pose proof (wf_unlockUTXO id l Hwf). by destruct (unlockUTXO id l).
Qed.

Lemma wf_clearExpiredLocks t l : wf l → wf (clearExpiredLocks t l).1.
Proof.
  intros Hwf. unfold clearExpiredLocks. case_decide; simpl; [|done].
  by apply wf_filter.
Qed.

(** The sweep leaves the live records, in order, and nothing else. *)
Lemma clearExpiredLocks_state t l :
  (clearExpiredLocks t l).1 = filter (λ lock, ¬ t >= expiresAt lock) l.
Proof.
  unfold clearExpiredLocks. case_decide as Hlen; simpl; [done|].
  symmetry. apply filter_length_eq.
  pose proof (length_filter (λ lock, ¬ t >= expiresAt lock) l). lia.
Qed.

(** On a swept registry [isLocked] evicts nothing and only looks the id
    up. *)
Lemma isLocked_swept t id l :
  (∀ u, u ∈ l → expiresAt u > t) →
  isLocked t id l = (bool_decide (is_Some (findLock id l)), l, []).
Proof.
  intros Hlive. unfold isLocked. destruct (findLock id l) as [u|] eqn:Hfind.
  - apply findLock_Some in Hfind as [Hin _]. apply Hlive in Hin.
    rewrite bool_decide_eq_false_2 by lia.
    by rewrite bool_decide_eq_true_2 by eauto.
  - rewrite bool_decide_eq_false_2; [done|]. by intros [? ?].
Qed.

Lemma findLock_app_fresh id l u :
  findLock id l = None → utxoId u = id → findLock id (l ++ [u]) = Some u.
Proof.
  unfold findLock. intros Hnone Hu. induction l as [|u' l IH]; simpl in *.
  - by rewrite bool_decide_eq_true_2.
  - destruct (bool_decide (utxoId u' = id)); [done|]. by apply IH.
Qed.

Lemma lockUTXO_fresh t id ty l :
  findLock id l = None →
  lockUTXO t id ty l =
    (l ++ [{| utxoId := id; lockedAt := t; lockType := ty;
              expiresAt := t + LOCK_TIMEOUT |}], [LogLocked id]).
Proof. intros Hnone. unfold lockUTXO. by rewrite Hnone. Qed.

Lemma lockUTXO_held t id ty l u :
  findLock id l = Some u →
  lockUTXO t id ty l = (l, [WarnAlreadyLocked id (lockedAt u)]).
Proof. intros Hsome. unfold lockUTXO. by rewrite Hsome. Qed.

(** After [lockUTXO] the id has a record, found first. *)
Lemma lockUTXO_found t id ty l :
  ∃ u, findLock id (lockUTXO t id ty l).1 = Some u.
Proof.
  destruct (findLock id l) as [u|] eqn:Hfind.
  - rewrite (lockUTXO_held _ _ _ _ _ Hfind). eauto.
  - rewrite (lockUTXO_fresh _ _ _ _ Hfind). simpl.
    eexists. by apply findLock_app_fresh.
Qed.

(** C7. Locking twice leaves exactly one record for the id, the second call
    changing nothing and only warning; unlocking twice leaves no record, the
    second call changing nothing and only warning; and the record a lock
    inserts expires 15 minutes after the time of the call. *)
Theorem lock_unlock_idempotent (x : string) (l : Locks) (t1 t2 : Z)
    (ty1 ty2 : LockType) :
  wf l →
  let l1 := (lockUTXO t1 x ty1 l).1 in
  let u1 := (unlockUTXO x l).1 in
  (length (records x (lockUTXO t2 x ty2 l1).1) = 1%nat
   ∧ (lockUTXO t2 x ty2 l1).1 = l1
   ∧ ∃ since, (lockUTXO t2 x ty2 l1).2 = [WarnAlreadyLocked x since])
  ∧ (records x (unlockUTXO x u1).1 = []
     ∧ unlockUTXO x u1 = (u1, [WarnNotLocked x]))
  ∧ (records x l = [] →
     records x l1 = [{| utxoId := x; lockedAt := t1; lockType := ty1;
                        expiresAt := t1 + 15 * 60 * 1000 |}]).
Proof.
  intros Hwf l1 u1. split; [|split].
  - destruct (lockUTXO_found t1 x ty1 l) as [u Hu]. fold l1 in Hu.
    rewrite (lockUTXO_held _ _ _ _ _ Hu). simpl.
    split; [|split; [done | eauto]].
    pose proof (wf_records x l1 (wf_lockUTXO t1 x ty1 l Hwf)) as Hle.
    apply findLock_records in Hu as [rest Hrec].
    rewrite Hrec in Hle |- *. simpl in *. destruct rest; simpl in *; lia.
  - pose proof (unlockUTXO_records x l) as Hgone. fold u1 in Hgone.
    rewrite (unlockUTXO_absent _ _ Hgone). done.
  - intros Hnone. subst l1. apply findLock_None in Hnone as Hfind.
    rewrite (lockUTXO_fresh _ _ _ _ Hfind). simpl. unfold records in *.
    rewrite filter_app, Hnone. by rewrite filter_cons_True.
Qed.

Lemma lock_unlock_idempotent_witness :
  wf []
  ∧ length (records "a:0"
      (lockUTXO 7 "a:0" creating_vault
         (lockUTXO 5 "a:0" creating_vault []).1).1) = 1%nat
  ∧ records "a:0" (unlockUTXO "a:0" (unlockUTXO "a:0" []).1).1 = []
  ∧ records "a:0" (lockUTXO 5 "a:0" creating_vault []).1
    = [{| utxoId := "a:0"; lockedAt := 5; lockType := creating_vault;
          expiresAt := 5 + 15 * 60 * 1000 |}].
Proof.
  destruct (lock_unlock_idempotent "a:0" [] 5 7 creating_vault creating_vault
              wf_nil) as [[Hone _] [[Hzero _] Hfresh]].
  split; [exact wf_nil|]. split; [exact Hone|]. split; [exact Hzero|].
  exact (Hfresh eq_refl).
Defined.

Lemma isLocked_found (t : Z) (x : string) (l : Locks) (lock : LockedUTXO) :
  findLock x l = Some lock →
  if bool_decide (expiresAt lock <= t)
  then (isLocked t x l).1.1 = false
       ∧ records x (isLocked t x l).1.2 = []
       ∧ ∀ y, y ≠ x → records y (isLocked t x l).1.2 = records y l
  else isLocked t x l = (true, l, []).
Proof.
  intros Hfind. unfold isLocked. rewrite Hfind. case_bool_decide as Hexp.
  - rewrite bool_decide_eq_true_2 by lia.
    pose proof (unlockUTXO_records x l) as Hgone.
    pose proof (λ y, unlockUTXO_other x y l) as Hother.
    destruct (unlockUTXO x l) as [l' out]. simpl in *. auto.
  - rewrite bool_decide_eq_false_2 by lia. done.
Qed.

(** C8. When the record found for an id has [expiresAt <= now], [isLocked]
    answers false and leaves no record for the id (the other ids keep
    theirs); when it has [expiresAt > now], [isLocked] answers true and
    leaves the registry as it was.  Round trip: a fresh lock, read once its
    15 minutes have passed, is reported unlocked and its record is gone. *)
Theorem isLocked_expiry (t : Z) (x : string) (l : Locks) :
  (∀ lock, findLock x l = Some lock →
     if bool_decide (expiresAt lock <= t)
     then (isLocked t x l).1.1 = false
          ∧ records x (isLocked t x l).1.2 = []
          ∧ ∀ y, y ≠ x → records y (isLocked t x l).1.2 = records y l
     else isLocked t x l = (true, l, []))
  ∧ (∀ t0 ty, findLock x l = None → t0 + 15 * 60 * 1000 <= t →
       (isLocked t x (lockUTXO t0 x ty l).1).1.1 = false
       ∧ records x (isLocked t x (lockUTXO t0 x ty l).1).1.2 = []).
Proof.
  split; [apply isLocked_found|].
  intros t0 ty Hfresh Hlate. rewrite (lockUTXO_fresh _ _ _ _ Hfresh). simpl.
  set (new := {| utxoId := x; lockedAt := t0; lockType := ty;
                 expiresAt := t0 + LOCK_TIMEOUT |}).
  pose proof (isLocked_found t x _ _
                (findLock_app_fresh x l new Hfresh eq_refl)) as H.
  rewrite bool_decide_eq_true_2 in H by (simpl; unfold LOCK_TIMEOUT; lia).
  tauto.
Qed.

Lemma isLocked_expiry_witness :
  (isLocked (1000 + 15 * 60 * 1000) "a:0"
     (lockUTXO 1000 "a:0" creating_vault []).1).1.1 = false
  ∧ records "a:0"
      (isLocked (1000 + 15 * 60 * 1000) "a:0"
         (lockUTXO 1000 "a:0" creating_vault []).1).1.2 = []
  ∧ isLocked 1001 "a:0" (lockUTXO 1000 "a:0" creating_vault []).1
    = (true, (lockUTXO 1000 "a:0" creating_vault []).1, []).
Proof.
  destruct (isLocked_expiry (1000 + 15 * 60 * 1000) "a:0" []) as [_ Htrip].
  destruct (Htrip 1000 creating_vault eq_refl ltac:(lia)) as [Hfalse Hgone].
  destruct (isLocked_expiry 1001 "a:0"
              (lockUTXO 1000 "a:0" creating_vault []).1) as [Hfound _].
  specialize (Hfound _ eq_refl). simpl in Hfound.
  split; [exact Hfalse|]. split; [exact Hgone | exact Hfound].
Defined.

End LockRegistry.

(** ** The spell assembler *)

Section Assembler.

Import SpellBuilder.

Variable appVk : string.
Variable sha : string → string.

Lemma totalPercentage_foldr (bs : list Beneficiary) :
  totalPercentage bs = foldr Z.add 0 (percentage <$> bs).
Proof.
  unfold totalPercentage.
  assert (∀ acc, fold_left (λ sum b, sum + percentage b) bs acc
                 = acc + foldr Z.add 0 (percentage <$> bs)) as Hgen.
  { induction bs as [|b bs IH]; intros acc; csimpl; [lia|]. rewrite IH. lia. }
  rewrite Hgen. lia.
Qed.

Lemma buildDistributeSpell_locked (params : DistributeVaultParams) :
  dv_currentBlock params
    <= last_checkin_block (dv_vaultCharm params)
       + trigger_delay_blocks (dv_vaultCharm params) →
  buildDistributeSpell appVk sha params
  = Throw (deadlineNotReached (dv_currentBlock params)
             (last_checkin_block (dv_vaultCharm params)
              + trigger_delay_blocks (dv_vaultCharm params))).
Proof.
  intros Hle. unfold buildDistributeSpell. by rewrite bool_decide_eq_true_2.
Qed.

Lemma buildDistributeSpell_unlocked (params : DistributeVaultParams) :
  last_checkin_block (dv_vaultCharm params)
  + trigger_delay_blocks (dv_vaultCharm params) < dv_currentBlock params →
  ∃ spell, buildDistributeSpell appVk sha params = Ok spell
    ∧ outs spell = distributeOutput (value (dv_vaultUTXO params) - 2000)
                     <$> beneficiaries (dv_vaultCharm params)
    ∧ ins spell = [ {| utxo_id := formatUtxoId (txid (dv_vaultUTXO params))
                                    (vout (dv_vaultUTXO params));
                       in_charms := Some {[ "$00" := dv_vaultCharm params ]} |} ].
Proof.
  intros Hlt. unfold buildDistributeSpell.
  rewrite bool_decide_eq_false_2 by lia. eexists. split; [done|]. by simpl.
Qed.



(** The gate of the builder: it fails if and only if [B <= L + D], with the
    plain error "Deadline not reached", which carries no error code;
    otherwise it succeeds and no output carries a contract state. *)
Lemma buildDistributeSpell_gate (params : DistributeVaultParams) :
  let L := last_checkin_block (dv_vaultCharm params) in
  let D := trigger_delay_blocks (dv_vaultCharm params) in
  let B := dv_currentBlock params in
  ((∃ e, buildDistributeSpell appVk sha params = Throw e) ↔ B <= L + D)
  ∧ (B <= L + D →
     buildDistributeSpell appVk sha params = Throw (deadlineNotReached B (L + D))
     ∧ code_of (deadlineNotReached B (L + D)) = None)
  ∧ (L + D < B →
     ∃ spell, buildDistributeSpell appVk sha params = Ok spell
       ∧ Forall (λ o, out_charms o = None) (outs spell)).
Proof.
  intros L D B. split; [|split].
  - split.
    + intros [e He]. destruct (decide (B <= L + D)) as [|Hgt]; [done|].
      destruct (buildDistributeSpell_unlocked params) as (spell & Hok & _);
        [subst L D B; lia | congruence].
    + intros Hle. eexists. by apply buildDistributeSpell_locked.
  - intros Hle. split; [by apply buildDistributeSpell_locked | done].
  - intros Hlt.
    destruct (buildDistributeSpell_unlocked params Hlt) as (spell & Hok & Houts & _).
    exists spell. split; [done|]. rewrite Houts.
    apply Forall_fmap, Forall_true. done.
Qed.


End Assembler.

(** C2 as stated fails: at [L = 100], [D = 50], [B = 150] the builder
    does throw, but what it throws is not an error of code [VAULT_LOCKED]. *)
Lemma distribute_gate_counterexample :
  ¬ ((∃ e, SpellBuilder.buildDistributeSpell "vk" exampleDigest
             (exampleDistribute 100000 100 50 150 [heir "h1" 60; heir "h2" 40])
           = Throw e
           ∧ code_of e = Some "VAULT_LOCKED")
     ↔ 150 <= 100 + 50).
Proof.
  intros [_ Hback]. destruct (Hback ltac:(lia)) as (e & Hthrow & Hcode).
  unfold SpellBuilder.buildDistributeSpell in Hthrow. simpl in Hthrow.
  injection Hthrow as <-. discriminate Hcode.
Qed.



(** ** Validation comes first *)

Section Validation.

Import SpellBuilder VaultService.

Variable env : Env.

Lemma validateBeneficiaries_spec (bs : list Beneficiary) :
  validateBeneficiaries bs = true ↔ totalPercentage bs = 100.
Proof. unfold validateBeneficiaries. apply bool_decide_eq_true. Qed.

(** C4. A beneficiary list is accepted exactly when its percentages, added
    up, give 100; given any other list, [createVault] and
    [updateBeneficiaries] throw the error of code [VALIDATION_ERROR] and
    leave the world, trace included, as they found it: no collaborator has
    been called. *)
Theorem beneficiaries_validated (w : World) (amount delay : Z)
    (vaultId : string) (bs : list Beneficiary) :
  (validateBeneficiaries bs = true ↔ foldr Z.add 0 (percentage <$> bs) = 100)
  ∧ (foldr Z.add 0 (percentage <$> bs) ≠ 100 →
     createVault env amount bs delay w = (Throw validationError, w)
     ∧ updateBeneficiaries env vaultId bs w = (Throw validationError, w)
     ∧ code_of validationError = Some "VALIDATION_ERROR").
Proof.
  rewrite <- totalPercentage_foldr.
  split; [apply validateBeneficiaries_spec|]. intros Hne.
  assert (validateBeneficiaries bs = false) as Hval.
  { apply not_true_is_false. by rewrite validateBeneficiaries_spec. }
  split; [|split; [|done]].
  - unfold createVault, createVaultPrepare. by rewrite Hval.
  - unfold updateBeneficiaries. by rewrite Hval.
Qed.

End Validation.

Lemma beneficiaries_validated_witness :
  foldr Z.add 0 (percentage <$> [heir "h1" 60; heir "h2" 60]) ≠ 100
  ∧ SpellBuilder.validateBeneficiaries [heir "h1" 60; heir "h2" 40] = true
  ∧ SpellBuilder.validateBeneficiaries [heir "h1" 60; heir "h2" 60] = false
  ∧ SpellBuilder.validateBeneficiaries [heir "h1" 30; heir "h2" 30; heir "h3" 30]
    = false
  ∧ VaultService.createVault (exampleEnv 0 800000 [utxoA] Ok openNode) 4000
      [heir "h1" 60; heir "h2" 60] 144 emptyWorld
    = (Throw VaultService.validationError, emptyWorld)
  ∧ VaultService.updateBeneficiaries (exampleEnv 0 800000 [utxoA] Ok openNode)
      "f00d:0" [heir "h1" 60; heir "h2" 60] emptyWorld
    = (Throw VaultService.validationError, emptyWorld).
Proof.
  assert (foldr Z.add 0 (percentage <$> [heir "h1" 60; heir "h2" 60]) ≠ 100)
    as Hne by (by vm_compute).
  destruct (beneficiaries_validated (exampleEnv 0 800000 [utxoA] Ok openNode)
              emptyWorld 4000 144 "f00d:0" [heir "h1" 60; heir "h2" 40])
    as [[_ Haccept] _].
  destruct (beneficiaries_validated (exampleEnv 0 800000 [utxoA] Ok openNode)
              emptyWorld 4000 144 "f00d:0" [heir "h1" 60; heir "h2" 60])
    as [[Hsum _] Hreject].
  destruct (beneficiaries_validated (exampleEnv 0 800000 [utxoA] Ok openNode)
              emptyWorld 4000 144 "f00d:0"
              [heir "h1" 30; heir "h2" 30; heir "h3" 30])
    as [[Hsum' _] _].
  destruct (Hreject Hne) as (Hcreate & Hupdate & _).
  split; [exact Hne|]. split; [exact (Haccept eq_refl)|].
  split; [apply not_true_is_false; intros Hval; by apply Hsum in Hval|].
  split; [apply not_true_is_false; intros Hval; by apply Hsum' in Hval|].
  split; [exact Hcreate | exact Hupdate].
Defined.

(** ** The transaction format converter *)

Section Converter.

Import PsbtHelper.

Variable bitcoin : Bitcoinjs.

Lemma forEach_app {A S : Type} (body : S → A → Res S) (l1 l2 : list A) (s : S) :
  forEach body (l1 ++ l2) s
  = match forEach body l1 s with
    | Ok s' => forEach body l2 s'
    | Throw e => Throw e
    end.
Proof.
  revert s. induction l1 as [|a l1 IH]; intros s; simpl; [done|].
  destruct (body s a); [apply IH | done].
Qed.

(** A throw in the turn of input [i] is the outcome of the whole loop. *)
Lemma forEach_throws_at (psbt cur : Psbt) (i : nat) (e : exn) :
  (i < length (inputs psbt))%nat →
  forEach (finalizeManually bitcoin) (seq 0 i) psbt = Ok cur →
  finalizeManually bitcoin cur i = Throw e →
  forEach (finalizeManually bitcoin) (seq 0 (length (inputs psbt))) psbt
  = Throw e.
Proof.
  intros Hi Hcur Hthrow.
  replace (length (inputs psbt)) with (i + S (length (inputs psbt) - S i))%nat
    by lia.
  rewrite seq_app, forEach_app, Hcur. simpl. by rewrite Hthrow.
Qed.

Lemma extractTxFromPsbt_after (signedPsbtHex : string) (network : Network)
    (psbt psbt' : Psbt) (error : option exn) (r : Res Psbt) :
  Psbt_fromHex bitcoin signedPsbtHex network = Ok psbt →
  finalizeInputs bitcoin psbt = r →
  extractTxFromPsbt bitcoin signedPsbtHex network
  = match r with
    | Ok final =>
        match Psbt_extractTransaction bitcoin final with
        | Ok finalTx => Ok (Transaction_toHex bitcoin finalTx)
        | Throw e => Throw e
        end
    | Throw e => Throw e
    end.
Proof.
  intros Hparse Hfin. unfold extractTxFromPsbt. rewrite Hparse. simpl.
  rewrite Hfin. destruct r; simpl; [|done].
  by destruct (Psbt_extractTransaction bitcoin a).
Qed.

(** One turn of the manual loop changes the input it visits and nothing
    else. *)
Lemma setInput_replaces (psbt : Psbt) (i : nat) (input result : PsbtInput) :
  inputs psbt !! i = Some input →
  replacesInput psbt i result (setInput psbt i result).
Proof.
  intros Hinput. unfold replacesInput, setInput. simpl.
  split; [|split; [|done]].
  - apply list_lookup_insert_eq. by eapply lookup_lt_Some.
  - intros j Hj. by apply list_lookup_insert_ne.
Qed.

(** C9. The signed PSBT is first handed to the standard finalizer for all
    inputs; if that succeeds the transaction is extracted.  If it throws,
    the inputs are visited in order: an input that has a final witness or
    script is left alone, any other is given to the standard finalizer
    again, and only when that throws is a witness assembled by hand and
    stored as the input's final script witness, no other field and no other
    input being touched: the one-element stack [01 len sig] from a Taproot
    key signature, else the two-element stack [02 len sig len pubkey] from
    the first detached signature.  An input with neither makes the
    extraction throw a plain [Error], "Unable to finalize input i: no
    signature found", which carries no error code. *)
Theorem extractTx_finalization (signedPsbtHex : string) (network : Network)
    (psbt psbt' : Psbt) :
  Psbt_fromHex bitcoin signedPsbtHex network = Ok psbt →
  (Psbt_finalizeAllInputs bitcoin psbt = (psbt', None) →
   extractTxFromPsbt bitcoin signedPsbtHex network
   = (finalTx ← Psbt_extractTransaction bitcoin psbt';
      Ok (Transaction_toHex bitcoin finalTx)))
  ∧ (∀ error, Psbt_finalizeAllInputs bitcoin psbt = (psbt', Some error) →
     (∀ final,
        forEach (finalizeManually bitcoin) (seq 0 (length (inputs psbt'))) psbt'
        = Ok final →
        extractTxFromPsbt bitcoin signedPsbtHex network
        = (finalTx ← Psbt_extractTransaction bitcoin final;
           Ok (Transaction_toHex bitcoin finalTx)))
     ∧ ∀ i cur input,
         (i < length (inputs psbt'))%nat →
         forEach (finalizeManually bitcoin) (seq 0 i) psbt' = Ok cur →
         inputs cur !! i = Some input →
         (is_Some (finalScriptWitness input) ∨ is_Some (finalScriptSig input) →
          finalizeManually bitcoin cur i = Ok cur)
         ∧ (finalScriptWitness input = None → finalScriptSig input = None →
            (∀ finalized, Psbt_finalizeInput bitcoin cur i = Ok finalized →
               ∃ next, finalizeManually bitcoin cur i = Ok next
                       ∧ replacesInput cur i finalized next)
            ∧ (∀ finalizeError,
                 Psbt_finalizeInput bitcoin cur i = Throw finalizeError →
                 (∀ sig, tapKeySig input = Some sig →
                    ∃ next result,
                      finalizeManually bitcoin cur i = Ok next
                      ∧ replacesInput cur i result next
                      ∧ witnessSet input
                          ([1; Z.of_nat (length sig) `mod` 256] ++ sig) result)
                 ∧ (∀ ps rest,
                      tapKeySig input = None → partialSig input = ps :: rest →
                      ∃ next result,
                        finalizeManually bitcoin cur i = Ok next
                        ∧ replacesInput cur i result next
                        ∧ witnessSet input
                            ([2; Z.of_nat (length (signature ps)) `mod` 256]
                             ++ signature ps
                             ++ [Z.of_nat (length (pubkey ps)) `mod` 256]
                             ++ pubkey ps) result)
                 ∧ (tapKeySig input = None → partialSig input = [] →
                    ∃ e, finalizeManually bitcoin cur i = Throw e
                         ∧ extractTxFromPsbt bitcoin signedPsbtHex network
                           = Throw e
                         ∧ e = Error ("Unable to finalize input " +:+ pretty i
                                      +:+ ": no signature found")
                         ∧ code_of e = None
                         ∧ instanceof_CharmVaultError e = false)))).
Proof.
  intros Hparse. split.
  - intros Hall.
    rewrite (extractTxFromPsbt_after _ _ _ psbt' None (Ok psbt') Hparse).
    + simpl. by destruct (Psbt_extractTransaction bitcoin psbt').
    + unfold finalizeInputs. by rewrite Hall.
  - intros error Hall.
    assert (finalizeInputs bitcoin psbt
            = forEach (finalizeManually bitcoin)
                (seq 0 (length (inputs psbt'))) psbt') as Hloop.
    { unfold finalizeInputs. by rewrite Hall. }
    split.
    + intros final Hfinal.
      rewrite (extractTxFromPsbt_after _ _ _ psbt' None (Ok final) Hparse).
      * simpl. by destruct (Psbt_extractTransaction bitcoin final).
      * by rewrite Hloop.
    + intros i cur input Hi Hcur Hinput. split.
      * intros Hdone. unfold finalizeManually. rewrite Hinput.
        assert (alreadyFinalized input = true) as ->; [|done].
        unfold alreadyFinalized. apply orb_true_iff.
        destruct Hdone; [left | right]; by apply bool_decide_eq_true.
      * intros Hwit Hsig.
        assert (alreadyFinalized input = false) as Hfin.
        { unfold alreadyFinalized. rewrite Hwit, Hsig.
          apply orb_false_iff.
          split; apply bool_decide_eq_false; by intros [? [=]]. }
        split.
        { intros finalized Hstd. exists (setInput cur i finalized). split.
          - unfold finalizeManually. by rewrite Hinput, Hfin, Hstd.
          - by apply (setInput_replaces cur i input). }
        intros finalizeError Hstd.
        split; [|split].
        { intros sig Htap.
          exists (setInput cur i (setFinalScriptWitness input
                                    (taprootWitness sig))),
                 (setFinalScriptWitness input (taprootWitness sig)).
          split; [|split].
          - unfold finalizeManually, manualWitness.
            by rewrite Hinput, Hfin, Hstd, Htap.
          - by apply (setInput_replaces cur i input).
          - by repeat split. }
        { intros ps rest Htap Hpartial.
          exists (setInput cur i (setFinalScriptWitness input
                                    (segwitWitness ps))),
                 (setFinalScriptWitness input (segwitWitness ps)).
          split; [|split].
          - unfold finalizeManually, manualWitness.
            by rewrite Hinput, Hfin, Hstd, Htap, Hpartial.
          - by apply (setInput_replaces cur i input).
          - by repeat split. }
        intros Htap Hpartial. exists (unableToFinalize i).
        assert (finalizeManually bitcoin cur i = Throw (unableToFinalize i))
          as Hthrow.
        { unfold finalizeManually, manualWitness.
          by rewrite Hinput, Hfin, Hstd, Htap, Hpartial. }
        split; [done|]. split; [|done].
        rewrite (extractTxFromPsbt_after _ _ _ psbt' None
                   (Throw (unableToFinalize i)) Hparse); [done|].
        rewrite Hloop. by apply (forEach_throws_at psbt' cur i).
Qed.

End Converter.

Lemma extractTx_finalization_witness :
  (∃ next result,
     PsbtHelper.finalizeManually strictBitcoinjs examplePsbt 0 = Ok next
     ∧ PsbtHelper.inputs next !! 0%nat = Some result
     ∧ PsbtHelper.finalScriptWitness result = Some [1; 2; 171; 205]
     ∧ PsbtHelper.tapKeySig result = Some [171; 205]
     ∧ PsbtHelper.inputs next !! 1%nat = PsbtHelper.inputs examplePsbt !! 1%nat
     ∧ ∃ final result',
         PsbtHelper.finalizeManually strictBitcoinjs next 1 = Ok final
         ∧ PsbtHelper.inputs final !! 1%nat = Some result'
         ∧ PsbtHelper.finalScriptWitness result'
           = Some [2; 3; 48; 1; 2; 2; 2; 3]
         ∧ PsbtHelper.inputs final !! 0%nat = Some result)
  ∧ PsbtHelper.extractTxFromPsbt strictBitcoinjs "70736274ff" PsbtHelper.testnet
    = Ok "0200".
Proof.
  destruct (extractTx_finalization strictBitcoinjs "70736274ff"
              PsbtHelper.testnet examplePsbt examplePsbt eq_refl)
    as [_ Hmanual].
  destruct (Hmanual _ eq_refl) as [Hfinal Hturn]. split.
  - destruct (Hturn 0%nat examplePsbt _ (le_n_S _ _ (le_S _ _ (le_n 0)))
                eq_refl eq_refl) as [_ Hopen].
    destruct (Hopen eq_refl eq_refl) as [_ Hmanually].
    destruct (Hmanually _ eq_refl) as [Htap _].
    destruct (Htap _ eq_refl)
      as (next & result & Hnext & (Hres & Hother & _) & Hwit & _ & _ & _
          & Hsig & _).
    exists next, result.
    split; [exact Hnext|]. split; [exact Hres|]. split; [exact Hwit|].
    split; [exact Hsig|]. split; [apply Hother; discriminate|].
    assert (next = PsbtHelper.setInput examplePsbt 0
                     (PsbtHelper.setFinalScriptWitness
                        {| PsbtHelper.prev_hash := "aa";
                           PsbtHelper.prev_index := 0;
                           PsbtHelper.witnessUtxo := None;
                           PsbtHelper.tapKeySig := Some [171; 205];
                           PsbtHelper.partialSig := [];
                           PsbtHelper.finalScriptWitness := None;
                           PsbtHelper.finalScriptSig := None |}
                        [1; 2; 171; 205])) as Hnext'.
    { vm_compute in Hnext. by injection Hnext as <-. }
    destruct (Hturn 1%nat next _ (le_n 2)
                ltac:(rewrite Hnext'; reflexivity)
                ltac:(rewrite Hnext'; reflexivity)) as [_ Hopen'].
    destruct (Hopen' eq_refl eq_refl) as [_ Hmanually'].
    destruct (Hmanually' (Error "Can not finalize input") eq_refl)
      as (_ & Hsegwit & _).
    destruct (Hsegwit _ _ eq_refl eq_refl)
      as (final & result' & Hfin' & (Hres' & Hother' & _) & Hwit' & _).
    exists final, result'.
    split; [exact Hfin'|]. split; [exact Hres'|]. split; [exact Hwit'|].
    rewrite Hother' by discriminate. exact Hres.
  - exact (Hfinal _ eq_refl).
Defined.

(** C9 as stated fails where it names the error: the extraction of a PSBT
    whose input carries no signature does throw, but what it throws is a
    plain [Error] that carries no code and is no [CharmVaultError]; the
    failure is known by its message only. *)
Lemma extractTx_finalization_counterexample :
  ¬ ∃ e, PsbtHelper.extractTxFromPsbt unsignedBitcoinjs "70736274ff"
           PsbtHelper.testnet = Throw e
         ∧ (is_Some (code_of e) ∨ instanceof_CharmVaultError e = true).
Proof.
  intros (e & Hthrow & Hkind). vm_compute in Hthrow. injection Hthrow as <-.
  destruct Hkind as [[code Hcode] | Hinst]; discriminate.
Qed.

(** ** Running computations *)

(** Unfold the monad, and nothing else, in the goal. *)
Ltac run :=
  cbv beta iota zeta delta
    [mbind M_bind mret M_ret gets modify throw lift emit emitAll try_catch
     call VaultService.log VaultService.now].

Section Running.

Lemma run_bind {A B : Type} (m : M A) (f : A → M B) (w : World) :
  (m ≫= f) w = match m w with
               | (Ok a, w') => f a w'
               | (Throw e, w') => (Throw e, w')
               end.
Proof. reflexivity. Qed.

Lemma run_try_catch {A : Type} (body : M A) (handler : exn → M A) (w : World) :
  try_catch body handler w = match body w with
                             | (Ok a, w') => (Ok a, w')
                             | (Throw e, w') => handler e w'
                             end.
Proof. reflexivity. Qed.

Lemma awaited_app (h1 h2 : History) :
  awaited (h1 ++ h2) = awaited h1 ++ awaited h2.
Proof. unfold awaited. apply filter_app. Qed.

Lemma awaited_console (lines : list console) : awaited (Console <$> lines) = [].
Proof.
  unfold awaited. apply filter_none.
  intros ev (line & -> & _)%list_elem_of_fmap. simpl. tauto.
Qed.

Lemma run_log (lines : list console) (w : World) :
  VaultService.log lines w
  = (Ok tt, set_trace (trace w ++ (Console <$> lines)) w).
Proof. reflexivity. Qed.

End Running.

(** ** The funding selector *)

Section Selector.

Import UTXOLockService VaultService.

Variable env : Env.

Implicit Types (w : World) (u : UTXO) (l : list UTXO).

(** The head of the sorted list is the first element of least value. *)
Lemma head_insertByValue u l :
  head (insertByValue u l)
  = match head l with
    | Some u' => if bool_decide (value u <= value u') then Some u else Some u'
    | None => Some u
    end.
Proof. destruct l as [|u' l]; simpl; [done|]. by case_bool_decide. Qed.

Lemma head_sortByValue_None l : head (sortByValue l) = None ↔ l = [].
Proof.
  destruct l as [|u l]; simpl; [done|]. rewrite head_insertByValue.
  split; [|done]. destruct (head (sortByValue l)); [case_bool_decide|]; done.
Qed.

Lemma head_sortByValue_Some l u :
  head (sortByValue l) = Some u →
  ∃ l1 l2, l = l1 ++ u :: l2
    ∧ (∀ u', u' ∈ l1 → value u < value u')
    ∧ (∀ u', u' ∈ l2 → value u <= value u').
Proof.
  revert u. induction l as [|u0 l IH]; intros u; simpl; [done|].
  rewrite head_insertByValue.
  destruct (head (sortByValue l)) as [m|] eqn:Hhead.
  - destruct (IH m eq_refl) as (l1 & l2 & -> & Hl1 & Hl2).
    case_bool_decide as Hle; intros [= <-].
    + exists [], (l1 ++ m :: l2). split; [done|]. split.
      * intros u' Hin. by apply elem_of_nil in Hin.
      * intros u' [Hin|Hin]%elem_of_app.
        -- specialize (Hl1 u' Hin). lia.
        -- apply elem_of_cons in Hin as [->|Hin]; [done|].
           specialize (Hl2 u' Hin). lia.
    + exists (u0 :: l1), l2. split; [done|]. split; [|done].
      intros u' [->|Hin]%elem_of_cons; [lia | by apply Hl1].
  - apply head_sortByValue_None in Hhead as ->. intros [= <-].
    exists [], []. split; [done|]. split; intros u' Hin; by apply elem_of_nil in Hin.
Qed.

(** In the swept registry an id is found exactly when the registry held a
    live record for it. *)
Lemma findLock_swept t id (locks : Locks) :
  is_Some (findLock id (clearExpiredLocks t locks).1) ↔ liveLock t id locks.
Proof.
  rewrite clearExpiredLocks_state. unfold liveLock, findLock.
  induction locks as [|r locks IH]; simpl.
  - split; [by intros [? ?] | by intros ?%Exists_nil].
  - rewrite filter_cons, Exists_cons. case_decide as Hlive; simpl.
    + case_bool_decide as Hid.
      * split; [intros _; left; split; [done|lia] | eauto].
      * rewrite IH. split; [by right | by intros [[? ?]|?]].
    + rewrite IH. split; [by right|]. intros [[_ ?]|?]; [lia | done].
Qed.

Lemma clearExpiredLocks_live t (locks : Locks) r :
  r ∈ (clearExpiredLocks t locks).1 → expiresAt r > t.
Proof.
  rewrite clearExpiredLocks_state. intros [Hlive _]%list_elem_of_filter. lia.
Qed.

Lemma set_lockedUTXOs_same w : set_lockedUTXOs (lockedUTXOs w) w = w.
Proof. by destruct w. Qed.

Lemma set_trace_same w : set_trace (trace w) w = w.
Proof. by destruct w. Qed.

(** On a swept registry, one call of the filter callback. *)
Lemma suitable_run t requiredAmount u w :
  (∀ r, r ∈ lockedUTXOs w → expiresAt r > t) →
  Date_now env (awaited (trace w)) = t →
  let utxoId := formatUtxoId (txid u) (vout u) in
  ∃ lines,
    suitable env t requiredAmount u w
    = (Ok (bool_decide (requiredAmount <= value u
                        ∧ ¬ is_Some (findLock utxoId (lockedUTXOs w))
                        ∧ ¬ coolingDown t utxoId (failedUTXOs w))),
       set_trace (trace w ++ (Console <$> lines)) w)
    ∧ Forall selection_line lines.
Proof.
  intros Hlive Hnow utxoId. unfold suitable. fold utxoId.
  case_bool_decide as Hval.
  { exists []. split; [|done]. rewrite bool_decide_eq_false_2 by (intros [? _]; lia).
    simpl. by rewrite app_nil_r, set_trace_same. }
  unfold utxoLockService_isLocked, now.
  rewrite !run_bind. unfold gets at 1. rewrite Hnow.
  rewrite run_bind. unfold gets at 1.
  rewrite (isLocked_swept t utxoId _ Hlive).
  rewrite run_bind. unfold modify at 1. rewrite set_lockedUTXOs_same.
  rewrite run_bind, run_log. simpl fmap. rewrite app_nil_r, set_trace_same.
  unfold mret at 1, M_ret at 1.
  case_bool_decide as Hfound.
  - exists [LogSkipLocked utxoId]. split; [|by repeat constructor].
    rewrite bool_decide_eq_false_2 by tauto. by rewrite run_bind, run_log.
  - rewrite run_bind. unfold gets at 1.
    destruct (failedUTXOs w !! utxoId) as [failure|] eqn:Hfail.
    + unfold FAILURE_COOLDOWN. case_bool_decide as Hcool.
      * exists [LogSkipCoolingDown utxoId (count failure)].
        split; [|by repeat constructor].
        rewrite bool_decide_eq_false_2
          by (unfold coolingDown; rewrite Hfail; tauto).
        by rewrite run_bind, run_log.
      * exists []. split; [|done].
        rewrite bool_decide_eq_true_2
          by (unfold coolingDown; rewrite Hfail; split; [lia | tauto]).
        simpl. by rewrite app_nil_r, set_trace_same.
    + exists []. split; [|done].
      rewrite bool_decide_eq_true_2
        by (unfold coolingDown; rewrite Hfail; split; [lia | tauto]).
      simpl. by rewrite app_nil_r, set_trace_same.
Qed.

Lemma filterM_suitable t requiredAmount l w :
  (∀ r, r ∈ lockedUTXOs w → expiresAt r > t) →
  Date_now env (awaited (trace w)) = t →
  ∃ lines,
    filterM (suitable env t requiredAmount) l w
    = (Ok (filter (λ u, requiredAmount <= value u
                        ∧ ¬ is_Some (findLock (formatUtxoId (txid u) (vout u))
                                       (lockedUTXOs w))
                        ∧ ¬ coolingDown t (formatUtxoId (txid u) (vout u))
                              (failedUTXOs w)) l),
       set_trace (trace w ++ (Console <$> lines)) w)
    ∧ Forall selection_line lines.
Proof.
  revert w. induction l as [|u l IH]; intros w Hlive Hnow.
  - exists []. split; [|done]. simpl. by rewrite app_nil_r, set_trace_same.
  - destruct (suitable_run t requiredAmount u w Hlive Hnow)
      as (lines1 & Hrun1 & Hlines1).
    destruct (IH (set_trace (trace w ++ (Console <$> lines1)) w))
      as (lines2 & Hrun2 & Hlines2); [done| |].
    { simpl. by rewrite awaited_app, awaited_console, app_nil_r. }
    exists (lines1 ++ lines2). split; [|by apply Forall_app].
    cbn [filterM]. rewrite run_bind, Hrun1, run_bind, Hrun2.
    rewrite filter_cons, fmap_app, app_assoc. simpl.
    unfold mret, M_ret. by repeat case_bool_decide; case_decide; try tauto.
Qed.

Lemma clearExpiredLocks_lines t (locks : Locks) :
  Forall selection_line (clearExpiredLocks t locks).2.
Proof.
  unfold clearExpiredLocks.
  assert (Forall selection_line
            ((λ lock, LogAutoUnlocking (utxoId lock))
               <$> filter (λ lock, t >= expiresAt lock) locks)) as Hswept.
  { apply Forall_fmap, Forall_true. done. }
  case_decide; simpl; [|done]. apply Forall_app. split; [done|].
  by repeat constructor.
Qed.

(** What one run of the selector does and returns. *)
Lemma selectFundingUTXO_run utxos requiredAmount w :
  let t := Date_now env (awaited (trace w)) in
  ∃ lines,
    selectFundingUTXO env utxos requiredAmount w
    = (Ok (head (sortByValue (filter (eligible t requiredAmount w) utxos))),
       set_trace (trace w ++ (Console <$> lines))
         (set_lockedUTXOs (clearExpiredLocks t (lockedUTXOs w)).1 w))
    ∧ Forall selection_line lines.
Proof.
  intros t. unfold selectFundingUTXO, utxoLockService_clearExpiredLocks, now.
  pose proof (clearExpiredLocks_lines t (lockedUTXOs w)) as Hout.
  destruct (clearExpiredLocks t (lockedUTXOs w)) as [swept out] eqn:Hsweep.
  set (w1 := set_trace (trace w ++ (Console <$> out)) (set_lockedUTXOs swept w)).
  destruct (filterM_suitable t requiredAmount utxos w1) as (lines & Hrun & Hlines).
  { intros r Hr. apply (clearExpiredLocks_live t (lockedUTXOs w)).
    by rewrite Hsweep. }
  { subst w1. simpl. by rewrite awaited_app, awaited_console, app_nil_r. }
  exists (out ++ lines). split; [|by apply Forall_app].
  run. fold t. rewrite Hsweep. run.
  change (set_trace _ (set_lockedUTXOs swept w)) with w1. rewrite Hrun.
  subst w1. simpl. rewrite fmap_app, app_assoc.
  assert (filter (λ u, requiredAmount <= value u
                       ∧ ¬ is_Some (findLock (formatUtxoId (txid u) (vout u)) swept)
                       ∧ ¬ coolingDown t (formatUtxoId (txid u) (vout u))
                             (failedUTXOs w)) utxos
          = filter (eligible t requiredAmount w) utxos) as ->; [|done].
  apply list_filter_iff. intros u. unfold eligible.
  pose proof (findLock_swept t (formatUtxoId (txid u) (vout u)) (lockedUTXOs w))
    as Hfound.
  rewrite Hsweep in Hfound. simpl in Hfound. by rewrite Hfound.
Qed.

Lemma getActiveWallet_run w :
  ∃ active, getActiveWallet env w = (Ok active, w).
Proof.
  unfold getActiveWallet. rewrite run_bind. unfold gets at 1.
  destruct (leatherWallet_getWalletState env _); [by eexists|].
  destruct (unisatWallet_getWalletState env _); by eexists.
Qed.

(** C5. The selector returns the eligible UTXO of least value (the first
    such in wallet order), where a UTXO is eligible when it covers the
    required amount, holds no unexpired lock and is not within its
    five-minute failure cooldown; it returns none exactly when no UTXO is
    eligible, and [createVault] then throws the error of code
    [INSUFFICIENT_FUNDS]. *)
Theorem selectFundingUTXO_smallest (w : World) (candidates : list UTXO)
    (requiredAmount delay : Z) (bs : list Beneficiary) :
  let t := Date_now env (awaited (trace w)) in
  ∃ r w',
    selectFundingUTXO env candidates requiredAmount w = (Ok r, w')
    ∧ match r with
      | Some u =>
          u ∈ candidates ∧ eligible t requiredAmount w u
          ∧ ∀ u', u' ∈ candidates → eligible t requiredAmount w u' →
                  value u <= value u'
      | None => ∀ u, u ∈ candidates → ¬ eligible t requiredAmount w u
      end
    ∧ (r = None →
       SpellBuilder.validateBeneficiaries bs = true →
       ∀ walletState wallet,
         (getActiveWallet env w).1 = Ok (Some (walletState, wallet)) →
         utxos walletState = candidates →
         (createVault env requiredAmount bs delay w).1 = Throw insufficientFunds
         ∧ code_of insufficientFunds = Some "INSUFFICIENT_FUNDS").
Proof.
  intros t.
  destruct (selectFundingUTXO_run candidates requiredAmount w) as (lines & Hrun & _).
  fold t in Hrun. eexists _, _. split; [exact Hrun|]. split.
  - destruct (head _) as [u|] eqn:Hhead.
    + apply head_sortByValue_Some in Hhead as (l1 & l2 & Hsplit & Hl1 & Hl2).
      assert (u ∈ filter (eligible t requiredAmount w) candidates) as Hu.
      { rewrite Hsplit. apply elem_of_app. right. left. }
      apply list_elem_of_filter in Hu as [Helig Hin]. split; [done|].
      split; [done|]. intros u' Hin' Helig'.
      assert (u' ∈ filter (eligible t requiredAmount w) candidates) as Hu'
        by (apply list_elem_of_filter; done).
      rewrite Hsplit in Hu'. apply elem_of_app in Hu' as [Hu'|Hu'].
      * specialize (Hl1 u' Hu'). lia.
      * apply elem_of_cons in Hu' as [->|Hu']; [lia | by apply Hl2].
    + apply head_sortByValue_None in Hhead. intros u Hin Helig.
      exact (filter_nil_not_elem_of _ _ _ Hhead Helig Hin).
  - intros Hnone Hvalid walletState wallet Hwallet Hutxos.
    split; [|done]. unfold createVault, createVaultPrepare.
    rewrite Hvalid. simpl negb. cbv iota.
    destruct (getActiveWallet_run w) as [active Hactive].
    rewrite Hactive in Hwallet. simpl in Hwallet. injection Hwallet as ->.
    rewrite run_bind, run_try_catch, run_bind, Hactive.
    unfold mret at 1, M_ret at 1. rewrite run_bind, Hutxos, Hrun, Hnone.
    reflexivity.
Qed.

End Selector.

Lemma selectFundingUTXO_smallest_witness :
  (* A locked: the selector returns B *)
  (∃ w', VaultService.selectFundingUTXO
           (exampleEnv 1000 800000 [utxoA; utxoB] Ok openNode)
           [utxoA; utxoB] 4000 (worldWithALocked 5000)
         = (Ok (Some utxoB), w')
         ∧ eligible 1000 4000 (worldWithALocked 5000) utxoB)
  (* both eligible: the selector returns A *)
  ∧ (∃ w', VaultService.selectFundingUTXO
             (exampleEnv 1000 800000 [utxoA; utxoB] Ok openNode)
             [utxoA; utxoB] 4000 emptyWorld
           = (Ok (Some utxoA), w')
           ∧ ∀ u', u' ∈ [utxoA; utxoB] → eligible 1000 4000 emptyWorld u' →
                   value utxoA <= value u')
  (* none large enough: INSUFFICIENT_FUNDS *)
  ∧ (VaultService.createVault (exampleEnv 1000 800000 [utxoA; utxoB] Ok openNode)
       20000 [heir "h1" 60; heir "h2" 40] 144 emptyWorld).1
    = Throw VaultService.insufficientFunds.
Proof.
  split; [|split].
  - destruct (selectFundingUTXO_smallest
                (exampleEnv 1000 800000 [utxoA; utxoB] Ok openNode)
                (worldWithALocked 5000) [utxoA; utxoB] 4000 144 [])
      as (r & w' & Hrun & Hsmallest & _).
    assert (r = Some utxoB) as ->
      by (vm_compute in Hrun; injection Hrun as <- _; reflexivity).
    exists w'. split; [exact Hrun | apply Hsmallest].
  - destruct (selectFundingUTXO_smallest
                (exampleEnv 1000 800000 [utxoA; utxoB] Ok openNode)
                emptyWorld [utxoA; utxoB] 4000 144 [])
      as (r & w' & Hrun & Hsmallest & _).
    assert (r = Some utxoA) as ->
      by (vm_compute in Hrun; injection Hrun as <- _; reflexivity).
    exists w'. split; [exact Hrun | apply Hsmallest].
  - destruct (selectFundingUTXO_smallest
                (exampleEnv 1000 800000 [utxoA; utxoB] Ok openNode)
                emptyWorld [utxoA; utxoB] 20000 144
                [heir "h1" 60; heir "h2" 40])
      as (r & w' & Hrun & _ & Hsurfaced).
    assert (r = None) as ->
      by (vm_compute in Hrun; injection Hrun as <- _; reflexivity).
    exact (proj1 (Hsurfaced eq_refl eq_refl _ _ eq_refl eq_refl)).
Defined.

(** ** Frame rules: what a computation may append and change *)

Section Steps.

Context {ok : Event → Prop} {R : World → World → Prop}.
Context `{!Reflexive R, !Transitive R, !TraceFrame R}.

Lemma steps_ret {A} (a : A) (Q : A → Prop) : Q a → steps ok R (mret a) Q.
Proof.
  intros HQ w. run. simpl. split; [|split].
  - exists []. by rewrite app_nil_r.
  - reflexivity.
  - by intros ? [= <-].
Qed.

Lemma steps_throw {A} (e : exn) (Q : A → Prop) : steps ok R (throw e) Q.
Proof.
  intros w. run. simpl. split; [|split]; [|reflexivity|done].
  exists []. by rewrite app_nil_r.
Qed.

Lemma steps_lift {A} (r : Res A) (Q : A → Prop) :
  (∀ a, r = Ok a → Q a) → steps ok R (lift r) Q.
Proof.
  intros HQ w. run. simpl. split; [|split]; [|reflexivity|done].
  exists []. by rewrite app_nil_r.
Qed.

Lemma steps_lift_eq {A} (r : Res A) : steps ok R (lift r) (λ a, r = Ok a).
Proof. by apply steps_lift. Qed.

Lemma steps_gets {A} (f : World → A) (Q : A → Prop) :
  (∀ w, Q (f w)) → steps ok R (gets f) Q.
Proof.
  intros HQ w. run. simpl. split; [|split].
  - exists []. by rewrite app_nil_r.
  - reflexivity.
  - by intros ? [= <-].
Qed.

Lemma steps_bind {A B} (m : M A) (f : A → M B) (Q1 : A → Prop) (Q : B → Prop) :
  steps ok R m Q1 → (∀ a, Q1 a → steps ok R (f a) Q) → steps ok R (m ≫= f) Q.
Proof.
  intros Hm Hf w. rewrite run_bind.
  destruct (Hm w) as ((evs1 & Htr1 & Hok1) & HR1 & HQ1).
  destruct (m w) as [[a|e] w1]; simpl in *;
    [|split; [eauto | split; [done | discriminate]]].
  destruct (Hf a (HQ1 a eq_refl) w1) as ((evs2 & Htr2 & Hok2) & HR2 & HQ2).
  split; [|split].
  - exists (evs1 ++ evs2). rewrite Htr2, Htr1, app_assoc.
    split; [done | by apply Forall_app].
  - by etrans.
  - done.
Qed.

Lemma steps_try_catch {A} (body : M A) (handler : exn → M A) (Q : A → Prop) :
  steps ok R body Q → (∀ e, steps ok R (handler e) Q) →
  steps ok R (try_catch body handler) Q.
Proof.
  intros Hm Hh w. rewrite run_try_catch.
  destruct (Hm w) as ((evs1 & Htr1 & Hok1) & HR1 & HQ1).
  destruct (body w) as [[a|e] w1]; simpl in *;
    [split; [eauto | split; [done | done]]|].
  destruct (Hh e w1) as ((evs2 & Htr2 & Hok2) & HR2 & HQ2).
  split; [|split].
  - exists (evs1 ++ evs2). rewrite Htr2, Htr1, app_assoc.
    split; [done | by apply Forall_app].
  - by etrans.
  - done.
Qed.

Lemma steps_weaken {A} (m : M A) (Q Q' : A → Prop) :
  steps ok R m Q → (∀ a, Q a → Q' a) → steps ok R m Q'.
Proof.
  intros Hm HQ w. destruct (Hm w) as (Htr & HR & HQ1). eauto.
Qed.

Lemma steps_emitAll (evs : History) :
  Forall ok evs → steps ok R (emitAll evs) (λ _, True).
Proof.
  intros Hok w. run. simpl. split; [|split]; [by eauto|apply trace_frame|done].
Qed.

Lemma steps_emit (ev : Event) : ok ev → steps ok R (emit ev) (λ _, True).
Proof.
  intros Hok w. run. simpl. split; [|split]; [|apply trace_frame|done].
  exists [ev]. split; [done | by constructor].
Qed.

Lemma steps_log (lines : list console) :
  Forall (λ line, ok (Console line)) lines →
  steps ok R (VaultService.log lines) (λ _, True).
Proof. intros Hok. apply steps_emitAll. by apply Forall_fmap. Qed.

(** A call answers with a value the oracle gave for some history. *)
Lemma steps_call {A} (ev : Event) (oracle : History → Res A) :
  ok ev → steps ok R (call ev oracle) (λ a, ∃ h, oracle h = Ok a).
Proof.
  intros Hok w. run. simpl. split; [|split]; [|apply trace_frame|by eauto].
  exists [ev]. split; [done | by constructor].
Qed.

Lemma steps_modify (f : World → World) :
  (∀ w, trace (f w) = trace w) → (∀ w, R w (f w)) →
  steps ok R (modify f) (λ _, True).
Proof.
  intros Htr HR w. run. simpl. split; [|split]; [|apply HR|done].
  exists []. by rewrite app_nil_r.
Qed.

Lemma steps_hoare {A} (m : M A) (Q : A → Prop) (P : World → Prop) :
  steps ok R m Q → stable ok R P →
  hoare P m (λ a w, P w ∧ Q a) (λ _ w, P w).
Proof.
  intros Hm HP w Hw. destruct (Hm w) as ((evs & Htr & Hok) & HR & HQ).
  destruct (m w) as [[a|e] w']; simpl in *; eauto.
Qed.

End Steps.

(** ** Rules for triples *)

Section Triples.

Lemma hoare_bind {A B} (P : World → Prop) (m : M A) (f : A → M B)
    (Q1 : A → World → Prop) (Q : B → World → Prop) (E : exn → World → Prop) :
  hoare P m Q1 E → (∀ a, hoare (Q1 a) (f a) Q E) → hoare P (m ≫= f) Q E.
Proof.
  intros Hm Hf w Hw. rewrite run_bind. specialize (Hm w Hw).
  destruct (m w) as [[a|e] w1]; [by apply Hf | done].
Qed.

Lemma hoare_try_catch {A} (P : World → Prop) (body : M A)
    (handler : exn → M A) (Q : A → World → Prop)
    (E' E : exn → World → Prop) :
  hoare P body Q E' → (∀ e, hoare (E' e) (handler e) Q E) →
  hoare P (try_catch body handler) Q E.
Proof.
  intros Hm Hh w Hw. rewrite run_try_catch. specialize (Hm w Hw).
  destruct (body w) as [[a|e] w1]; [done | by apply Hh].
Qed.

Lemma hoare_conseq {A} (P P' : World → Prop) (m : M A)
    (Q Q' : A → World → Prop) (E E' : exn → World → Prop) :
  hoare P m Q E → (∀ w, P' w → P w) → (∀ a w, Q a w → Q' a w) →
  (∀ e w, E e w → E' e w) → hoare P' m Q' E'.
Proof.
  intros Hm HP HQ HE w Hw. specialize (Hm w (HP w Hw)).
  destruct (m w) as [[a|e] w1]; eauto.
Qed.

Lemma hoare_throw {A} (P : World → Prop) (e : exn)
    (Q : A → World → Prop) (E : exn → World → Prop) :
  (∀ w, P w → E e w) → hoare P (throw e) Q E.
Proof. intros HE w Hw. run. by apply HE. Qed.

(** One step that keeps [P], then the rest. *)
Lemma hoare_step {A B} (ok : Event → Prop) (R : World → World → Prop)
    (P : World → Prop) (m : M A) (f : A → M B) (Q1 : A → Prop)
    (Q : B → World → Prop) (E : exn → World → Prop) :
  steps ok R m Q1 → stable ok R P → (∀ e w, P w → E e w) →
  (∀ a, Q1 a → hoare P (f a) Q E) → hoare P (m ≫= f) Q E.
Proof.
  intros Hm HP HE Hf. eapply hoare_bind.
  - eapply hoare_conseq;
      [exact (steps_hoare (ok:=ok) (R:=R) m Q1 P Hm HP) | done | | ].
    + intros a w Hw. exact Hw.
    + intros e w Hw. by apply HE.
  - intros a w [Hw HQ]. by apply Hf.
Qed.

Lemma hoare_ret {A} (P : World → Prop) (a : A)
    (Q : A → World → Prop) (E : exn → World → Prop) :
  (∀ w, P w → Q a w) → hoare P (mret a) Q E.
Proof. intros HQ w Hw. run. by apply HQ. Qed.

End Triples.

(** ** Frame rules for the services *)

Section ServiceSteps.

Import VaultService.

Context {ok : Event → Prop} {R : World → World → Prop}.
Context `{!Reflexive R, !Transitive R, !TraceFrame R}.
Variable env : Env.

Lemma steps_now : steps ok R (now env) (λ _, True).
Proof. by apply steps_gets. Qed.

Lemma steps_getActiveWallet : steps ok R (getActiveWallet env) (λ _, True).
Proof.
  unfold getActiveWallet. eapply steps_bind; [by apply (steps_gets _ (λ _, True))|].
  intros h _. destruct (leatherWallet_getWalletState env h); [by apply steps_ret|].
  destruct (unisatWallet_getWalletState env h); by apply steps_ret.
Qed.

Lemma steps_getCurrentBlockHeight :
  ok GetCurrentBlockHeight →
  steps ok R (getCurrentBlockHeight env)
    (λ b, ∃ h, bitcoinClient_getCurrentBlockHeight env h = Ok b).
Proof. intros. by apply steps_call. Qed.

Lemma steps_getFeeEstimates :
  ok GetFeeEstimates → steps ok R (getFeeEstimates env) (λ _, True).
Proof.
  intros. eapply steps_weaken; [by apply steps_call | done].
Qed.

Lemma steps_getRawTransaction txid :
  ok (GetRawTransaction txid) →
  steps ok R (getRawTransaction env txid) (λ _, True).
Proof.
  intros. eapply steps_weaken; [by apply steps_call | done].
Qed.

Lemma steps_broadcastPackage commitTxHex spellTxHex :
  ok (BroadcastPackage commitTxHex spellTxHex) →
  steps ok R (broadcastPackage env commitTxHex spellTxHex) (λ _, True).
Proof.
  intros. eapply steps_weaken; [by apply steps_call | done].
Qed.

Lemma steps_proveSpell request :
  ok (ProveSpell request) →
  steps ok R (proveSpell env request)
    (λ response, ∃ h, proverClient_proveSpell env h request = Ok response).
Proof. intros. by apply steps_call. Qed.

Lemma steps_signTransaction wallet txHex :
  ok (SignTransaction wallet txHex) →
  steps ok R (signTransaction env wallet txHex)
    (λ signed, ∃ h, wallet_signTransaction env wallet h txHex = Ok signed).
Proof. intros. by apply steps_call. Qed.

Lemma steps_buildProverRequest theSpell prevTxs fundingUtxo fundingUtxoValue
    changeAddress feeRate :
  ok LoadContractWasm →
  steps ok R
    (buildProverRequest env theSpell prevTxs fundingUtxo fundingUtxoValue
       changeAddress feeRate)
    (λ request, spell request = theSpell).
Proof.
  intros Hok. unfold buildProverRequest. apply steps_try_catch.
  - eapply steps_bind; [by apply steps_call|].
    intros wasm _. by apply steps_ret.
  - intros e. apply steps_throw.
Qed.

Lemma steps_calculateUnlockDate currentBlock delayBlocks :
  steps ok R (calculateUnlockDate env currentBlock delayBlocks) (λ _, True).
Proof.
  unfold calculateUnlockDate. eapply steps_bind; [apply steps_now|].
  intros t _. by apply steps_lift.
Qed.

(** The wallet-signing fallback of [createVault] broadcasts the spell
    transaction it was given. *)
Lemma steps_signAndBroadcast wallet fundingUTXO commitTx spellTx prevTxHex :
  (∀ txHex, ok (SignTransaction wallet txHex)) →
  (∀ signedCommitTx, ok (BroadcastPackage signedCommitTx spellTx)) →
  steps ok R
    (signAndBroadcast env wallet fundingUTXO commitTx spellTx prevTxHex)
    (λ _, True).
Proof.
  intros Hsign Hcast. unfold signAndBroadcast.
  eapply steps_bind; [by apply (steps_lift _ (λ _, True))|].
  intros commitPsbtHex _.
  eapply steps_bind; [by apply steps_signTransaction|].
  intros signedCommitPsbt _.
  eapply steps_bind; [by apply (steps_lift _ (λ _, True))|].
  intros signedCommitTx _. by apply steps_broadcastPackage.
Qed.

(** The three operations on an existing vault broadcast what the wallet
    returned for each of the two transactions. *)
Lemma steps_signBothAndBroadcast wallet proverResponse :
  (∀ txHex, ok (SignTransaction wallet txHex)) →
  (∀ signedCommitTx signedSpellTx,
     (∃ h, wallet_signTransaction env wallet h proverResponse.2
           = Ok signedSpellTx) →
     ok (BroadcastPackage signedCommitTx signedSpellTx)) →
  steps ok R (signBothAndBroadcast env wallet proverResponse) (λ _, True).
Proof.
  intros Hsign Hcast. unfold signBothAndBroadcast.
  destruct proverResponse as [commitTx spellTx].
  eapply steps_bind; [by apply steps_signTransaction|].
  intros signedCommitTx _.
  eapply steps_bind; [by apply steps_signTransaction|].
  intros signedSpellTx Hsigned. apply steps_broadcastPackage. by apply Hcast.
Qed.

End ServiceSteps.

(** ** The lock is released on every path *)

Ltac norm_app :=
  repeat (rewrite <- app_assoc || rewrite <- app_comm_cons); try done.

Ltac by_event :=
  unfold calm, acquires, persists, classifies; simpl;
  repeat split; intros Hev;
  repeat (match type of Hev with ex _ => destruct Hev as [? Hev] end);
  discriminate Hev.

Ltac events_ok :=
  repeat (apply List.Forall_cons; [by_event|]); apply List.Forall_nil.

Section LockLifecycle.

Import UTXOLockService VaultService.

Variable env : Env.
Variable w0 : World.

Lemma calm_not_acquires ev : calm ev → ¬ acquires ev.
Proof. by intros [? _]. Qed.

Lemma stable_held id : stable calm same_locks (held w0 id).
Proof.
  intros w w' evs (pre & mid & Htr & Hcalm & Hrec & Hsub) Htr' Hevs Hlocks.
  exists pre, (mid ++ evs). rewrite Htr', Htr, Hlocks.
  split; [norm_app|]. split; [|done].
  rewrite app_assoc. by apply Forall_app.
Qed.

Lemma stable_released id :
  stable (λ ev, ¬ acquires ev) same_locks (released w0 id).
Proof.
  intros w w' evs (pre & mid & post & Htr & Hcalm & Hpost & Hnone & Hsub) Htr'
    Hevs Hlocks.
  exists pre, mid, (post ++ evs). rewrite Htr', Htr, Hlocks.
  split; [norm_app|]. split; [done|]. split; [|done].
  by apply Forall_app.
Qed.

(** Among such events the only lock is the one shown. *)
Lemma only_lock id id' (pre mid post : History) :
  Forall (λ ev, ¬ acquires ev) (pre ++ mid) →
  Forall (λ ev, ¬ acquires ev) post →
  Console (LogLocked id') ∈ pre ++ Console (LogLocked id) :: mid
                             ++ Console (LogUnlocked id) :: post →
  id' = id.
Proof.
  intros [Hpre Hmid]%Forall_app Hpost Hin.
  assert (∀ l, Forall (λ ev, ¬ acquires ev) l → Console (LogLocked id') ∉ l)
    as Hnot.
  { intros l Hl Hin'. rewrite Forall_forall in Hl.
    apply (Hl _ Hin'). by exists id'. }
  apply elem_of_app in Hin as [Hin|Hin]; [by apply Hnot in Hin|].
  apply elem_of_cons in Hin as [[= ->]|Hin]; [done|].
  apply elem_of_app in Hin as [Hin|Hin]; [by apply Hnot in Hin|].
  apply elem_of_cons in Hin as [[=]|Hin]. by apply Hnot in Hin.
Qed.

Lemma unlockUTXO_present id (l : Locks) :
  records id l ≠ [] →
  unlockUTXO id l = (filter (λ u, utxoId u ≠ id) l, [LogUnlocked id]).
Proof.
  intros Hrec. unfold unlockUTXO. case_decide as Hlen; [|done].
  exfalso. apply Hrec. apply filter_length_eq in Hlen. unfold records.
  rewrite <- Hlen, list_filter_filter. apply filter_none. tauto.
Qed.

Lemma run_unlockUTXO id w :
  utxoLockService_unlockUTXO id w
  = (Ok tt, set_trace (trace w ++ (Console <$> (unlockUTXO id (lockedUTXOs w)).2))
              (set_lockedUTXOs (unlockUTXO id (lockedUTXOs w)).1 w)).
Proof.
  unfold utxoLockService_unlockUTXO. run.
  by destruct (unlockUTXO id (lockedUTXOs w)).
Qed.

(** Unlocking a held lock releases it. *)
Lemma unlock_held id :
  hoare (held w0 id) (utxoLockService_unlockUTXO id)
    (λ _, released w0 id) (λ _ _, False).
Proof.
  intros w (pre & mid & Htr & Hcalm & Hrec & Hsub). rewrite run_unlockUTXO.
  rewrite (unlockUTXO_present _ _ Hrec). simpl.
  exists pre, mid, []. rewrite Htr. split; [norm_app|].
  split; [done|]. split; [done|]. split.
  - pose proof (unlockUTXO_records id (lockedUTXOs w)) as Hgone.
    by rewrite unlockUTXO_state in Hgone.
  - intros u [Hne Hin]%list_elem_of_filter. by apply Hsub.
Qed.

(** Unlocking again changes nothing but the console. *)
Lemma unlock_released id :
  hoare (released w0 id) (utxoLockService_unlockUTXO id)
    (λ _, released w0 id) (λ _ _, False).
Proof.
  intros w (pre & mid & post & Htr & Hcalm & Hpost & Hnone & Hsub).
  rewrite run_unlockUTXO.
  exists pre, mid, (post ++ (Console <$> (unlockUTXO id (lockedUTXOs w)).2)).
  simpl. rewrite Htr. split; [norm_app|]. split; [done|].
  split; [|split].
  - apply Forall_app. split; [done|]. apply Forall_fmap.
    unfold unlockUTXO. case_decide; simpl; events_ok.
  - apply unlockUTXO_records.
  - rewrite unlockUTXO_state. intros u [_ Hin]%list_elem_of_filter. by apply Hsub.
Qed.

Ltac step_held :=
  eapply (hoare_step calm same_locks (held w0 _));
    [ | apply stable_held | intros; by left | intros ? ? ].

Ltac step_released :=
  eapply (hoare_step (λ ev, ¬ acquires ev) same_locks (released w0 _));
    [ | apply stable_released | intros; by right | intros ? ? ].

(** The inner [try] block: from the lock held to the lock released and the
    vault written; a throw leaves the lock held or already released. *)
Lemma createVaultLocked_triple amount bs delay walletState wallet fundingUTXO id :
  hoare (held w0 id)
    (createVaultLocked env amount bs delay walletState wallet fundingUTXO id)
    (λ _ w, (∀ u, u ∈ lockedUTXOs w → u ∈ lockedUTXOs w0)
            ∧ ∃ evs, trace w = trace w0 ++ evs ∧ released_and_saved evs
                ∧ nothing_held evs w)
    (λ _ w, held w0 id w ∨ released w0 id w).
Proof.
  unfold createVaultLocked.
  step_held; [apply steps_getCurrentBlockHeight; by_event|].
  step_held; [apply steps_getFeeEstimates; by_event|].
  step_held; [by apply (steps_lift _ (λ _, True))|].
  step_held; [apply steps_getRawTransaction; by_event|].
  step_held; [apply steps_buildProverRequest; by_event|].
  step_held; [apply steps_proveSpell; by_event|].
  match goal with |- hoare _ (let '(_, _) := ?r in _) _ _ =>
    destruct r as [commitTx spellTx] end.
  step_held; [by apply (steps_lift _ (λ _, True))|].
  step_held; [by apply (steps_lift _ (λ _, True))|].
  step_held.
  { apply steps_try_catch; [apply steps_broadcastPackage; by_event|].
    intros _. apply steps_signAndBroadcast; intros; by_event. }
  eapply hoare_bind.
  { eapply hoare_conseq; [apply unlock_held | done | | done].
    intros ? ? Hw. exact Hw. }
  intros [].
  step_released; [apply steps_calculateUnlockDate|].
  step_released; [apply steps_now|].
  step_released; [apply steps_now|].
  intros w (pre & mid & post & Htr & Hcalm & Hpost & Hnone & Hsub).
  unfold saveVaultToStorage. run. simpl. split; [done|].
  eexists. split; [rewrite Htr, <- app_assoc; reflexivity|]. split.
  - eexists id, pre, mid, post, _. split; [norm_app|]. done.
  - intros id' Hin. simpl. revert Hin. norm_app. intros Hin.
    erewrite (only_lock id id' pre mid); [done| | |exact Hin].
    + eapply Forall_impl; [exact Hcalm|]. apply calm_not_acquires.
    + apply Forall_app. split; [done | events_ok].
Qed.

Lemma hoare_or {A} (P1 P2 : World → Prop) (m : M A)
    (Q : A → World → Prop) (E : exn → World → Prop) :
  hoare P1 m Q E → hoare P2 m Q E → hoare (λ w, P1 w ∨ P2 w) m Q E.
Proof. intros H1 H2 w [Hw|Hw]; [by apply H1 | by apply H2]. Qed.

(** The inner [catch]: unlock, rethrow. *)
Lemma unlock_and_rethrow id (e : exn) (Q : string → World → Prop) :
  hoare (λ w, held w0 id w ∨ released w0 id w)
    (utxoLockService_unlockUTXO id;; throw e) Q (λ _, released w0 id).
Proof.
  apply hoare_or.
  - eapply hoare_bind.
    + eapply hoare_conseq; [apply unlock_held | done | | done].
      intros ? ? Hw. exact Hw.
    + intros ?. by apply hoare_throw.
  - eapply hoare_bind.
    + eapply hoare_conseq; [apply unlock_released | done | | done].
      intros ? ? Hw. exact Hw.
    + intros ?. by apply hoare_throw.
Qed.

Lemma steps_markUTXOFailed (ok : Event → Prop) utxo reason :
  (∀ id attempt, ok (Console (WarnMarkedFailed id attempt))) →
  steps ok same_locks (markUTXOFailed env utxo reason) (λ _, True).
Proof.
  intros Hok. unfold markUTXOFailed.
  eapply steps_bind; [by apply (steps_gets _ (λ _, True))|]. intros existing _.
  eapply steps_bind; [apply steps_now|]. intros t _.
  eapply steps_bind; [by apply steps_modify|]. intros _ _.
  apply steps_log. by repeat constructor.
Qed.

(** The outer [catch] only records a failure and throws. *)
Lemma steps_classifyCreateError (ok : Event → Prop) {A}
    (fundingUTXO : option UTXO) (e : exn) (Q : A → Prop) :
  (∀ id attempt, ok (Console (WarnMarkedFailed id attempt))) →
  steps ok same_locks (classifyCreateError env fundingUTXO e) Q.
Proof.
  intros Hok. unfold classifyCreateError.
  assert (steps ok same_locks
            (if instanceof_CharmVaultError e then throw e
             else throw (CharmVaultError
                           ("Failed to create vault: " +:+ message_of e)
                           "CREATE_VAULT_ERROR" (Some e))) Q) as Hwrap.
  { destruct (instanceof_CharmVaultError e); apply steps_throw. }
  destruct fundingUTXO as [utxo|]; [|done].
  destruct (includes _ _); [|done].
  eapply steps_bind; [by apply steps_markUTXOFailed|].
  intros _ _. apply steps_throw.
Qed.

Lemma classify_released id (fundingUTXO : option UTXO) (e : exn)
    (Q : string → World → Prop) :
  hoare (released w0 id) (classifyCreateError env fundingUTXO e) Q
    (λ _, released w0 id).
Proof.
  eapply hoare_conseq;
    [ apply (steps_hoare (ok:=λ ev, ¬ acquires ev) (R:=same_locks) _
               (λ _, False) (released w0 id));
      [apply steps_classifyCreateError; intros; by_event
      | apply stable_released]
    | done | | done ].
  by intros a w [_ []].
Qed.

(** Locking a UTXO that has no record. *)
Lemma lock_fresh id :
  hoare (λ w, findLock id (lockedUTXOs w) = None
              ∧ (∀ u, u ∈ lockedUTXOs w → u ∈ lockedUTXOs w0)
              ∧ ∃ pre, trace w = trace w0 ++ pre ∧ Forall calm pre)
    (utxoLockService_lockUTXO env id creating_vault)
    (λ _, held w0 id) (λ _ _, False).
Proof.
  intros w (Hnone & Hsub & pre & Htr & Hpre).
  unfold utxoLockService_lockUTXO. run.
  rewrite (lockUTXO_fresh _ _ _ _ Hnone). simpl.
  exists pre, []. rewrite Htr. split; [norm_app|].
  split; [by rewrite app_nil_r|]. split.
  - intros Hnil. unfold records in Hnil.
    eapply (filter_nil_not_elem_of _ _ _ Hnil); [|apply elem_of_app; right; left].
    done.
  - intros u [Hin|Hin]%elem_of_app Hne; [by apply Hsub|].
    apply list_elem_of_singleton in Hin as ->. done.
Qed.

Lemma released_discipline id w :
  released w0 id w →
  (∀ u, u ∈ lockedUTXOs w → u ∈ lockedUTXOs w0)
  ∧ ∃ evs, trace w = trace w0 ++ evs ∧ lock_discipline evs
      ∧ nothing_held evs w.
Proof.
  intros (pre & mid & post & Htr & Hcalm & Hpost & Hnone & Hsub).
  split; [done|]. eexists. split; [exact Htr|].
  assert (Forall (λ ev, ¬ acquires ev) (pre ++ mid)) as Hquiet.
  { eapply Forall_impl; [exact Hcalm|]. apply calm_not_acquires. }
  split.
  - apply (locked_then_released _ id pre mid post); [done| |].
    + rewrite app_assoc. by apply Forall_app.
    + eapply Forall_impl; [exact Hcalm|]. intros ev (_ & ? & ?). done.
  - intros id' Hin. by rewrite (only_lock id id' pre mid post).
Qed.

Lemma saved_discipline evs : released_and_saved evs → lock_discipline evs.
Proof.
  intros (id & pre & mid & post & vault & -> & Hcalm & Hpost).
  apply (locked_then_released _ id pre mid (post ++ [SaveVault vault]));
    [done| |].
  - rewrite !app_assoc. apply Forall_app. split.
    + apply Forall_app. split; [|done].
      eapply Forall_impl; [exact Hcalm|]. apply calm_not_acquires.
    + events_ok.
  - eapply Forall_impl; [exact Hcalm|]. intros ev (_ & ? & ?). done.
Qed.

Lemma prepare_run bs w :
  ∃ r, try_catch (createVaultPrepare env bs) (classifyCreateError env None) w
       = (r, w).
Proof.
  unfold createVaultPrepare, classifyCreateError.
  destruct (SpellBuilder.validateBeneficiaries bs); simpl negb; cbv iota.
  - rewrite run_try_catch, run_bind.
    destruct (getActiveWallet_run env w) as [[active|] ->]; run; [by eexists|].
    simpl. by eexists.
  - run. simpl. by eexists.
Qed.

Lemma selection_line_calm line : selection_line line → calm (Console line).
Proof. destruct line; simpl; intros []; by_event. Qed.

Lemma selected_unlocked t requiredAmount w candidates u :
  head (sortByValue (filter (eligible t requiredAmount w) candidates)) = Some u →
  findLock (formatUtxoId (txid u) (vout u))
    (clearExpiredLocks t (lockedUTXOs w)).1 = None.
Proof.
  intros (l1 & l2 & Hsplit & _)%head_sortByValue_Some.
  assert (u ∈ filter (eligible t requiredAmount w) candidates) as Hu.
  { rewrite Hsplit. apply elem_of_app. right. left. }
  apply list_elem_of_filter in Hu as [(_ & Hlive & _) _].
  rewrite <- findLock_swept in Hlive.
  destruct (findLock _ _); [|done]. exfalso. apply Hlive. eauto.
Qed.

(** C6. Whatever the collaborators answer, [createVault] leaves in the
    registry only records that were there before it ran, and none for a
    UTXO it locked.  Its events show the discipline: either it never locked,
    or it locked one UTXO once and unlocked it again, with no vault written
    and no failure recorded in between; when it returns, the record of the
    vault is written last, after the unlock. *)
Theorem createVault_releases_lock (amount delay : Z) (bs : list Beneficiary) :
  (∀ u, u ∈ lockedUTXOs (createVault env amount bs delay w0).2 →
        u ∈ lockedUTXOs w0)
  ∧ ∃ evs,
      trace (createVault env amount bs delay w0).2 = trace w0 ++ evs
      ∧ match (createVault env amount bs delay w0).1 with
        | Ok _ => released_and_saved evs
        | Throw _ => lock_discipline evs
        end
      ∧ nothing_held evs (createVault env amount bs delay w0).2.
Proof.
  unfold createVault. rewrite run_bind.
  destruct (prepare_run bs w0) as [[[walletState wallet]|e] ->].
  2:{ simpl. split; [done|]. exists []. rewrite app_nil_r. split; [done|].
      split; [by apply never_locked|]. intros id Hin. by apply elem_of_nil in Hin. }
  rewrite run_bind.
  destruct (selectFundingUTXO_run env (utxos walletState) amount w0)
    as (lines & -> & Hlines).
  set (t := Date_now env (awaited (trace w0))) in *.
  set (w1 := set_trace _ _).
  assert (∀ u, u ∈ lockedUTXOs w1 → u ∈ lockedUTXOs w0) as Hsub.
  { subst w1. simpl. rewrite clearExpiredLocks_state.
    by intros u [_ Hin]%list_elem_of_filter. }
  assert (Forall calm (Console <$> lines)) as Hcalm.
  { apply Forall_fmap. eapply Forall_impl; [exact Hlines|].
    apply selection_line_calm. }
  assert (trace w1 = trace w0 ++ (Console <$> lines)) as Htr by done.
  (* the outcomes that never lock *)
  assert (∀ e fundingUTXO,
            let out := classifyCreateError (A:=string) env fundingUTXO e w1 in
            (∀ u, u ∈ lockedUTXOs out.2 → u ∈ lockedUTXOs w0)
            ∧ ∃ evs, trace out.2 = trace w0 ++ evs
                ∧ match out.1 with
                  | Ok _ => released_and_saved evs
                  | Throw _ => lock_discipline evs
                  end
                ∧ nothing_held evs out.2) as Hnolock.
  { intros e fundingUTXO out.
    destruct (steps_classifyCreateError (λ ev, ¬ acquires ev)
                fundingUTXO e (λ _ : string, False)
                ltac:(intros; by_event) w1)
      as ((evs & Hevs & Hok) & Hlocks & Hnever).
    fold out in Hevs, Hlocks, Hnever. split.
    - intros u Hu. apply Hsub. by rewrite <- Hlocks.
    - exists ((Console <$> lines) ++ evs). rewrite Hevs, Htr, app_assoc.
      split; [done|].
      assert (Forall (λ ev, ¬ acquires ev) ((Console <$> lines) ++ evs))
        as Hquiet.
      { apply Forall_app. split; [|done].
        eapply Forall_impl; [exact Hcalm|]. apply calm_not_acquires. }
      split.
      + destruct (out.1) as [a|]; [by destruct (Hnever a)|].
        by apply never_locked.
      + intros id Hin. rewrite Forall_forall in Hquiet.
        destruct (Hquiet _ Hin). by exists id. }
  destruct (head _) as [fundingUTXO|] eqn:Hhead.
  2:{ rewrite run_try_catch. unfold createVaultFunded. run.
      apply (Hnolock insufficientFunds None). }
  apply selected_unlocked in Hhead.
  unfold createVaultFunded. case_bool_decide.
  { rewrite run_try_catch. run. apply Hnolock. }
  set (id := formatUtxoId (txid fundingUTXO) (vout fundingUTXO)) in *.
  assert (hoare
            (λ w, findLock id (lockedUTXOs w) = None
                  ∧ (∀ u, u ∈ lockedUTXOs w → u ∈ lockedUTXOs w0)
                  ∧ ∃ pre, trace w = trace w0 ++ pre ∧ Forall calm pre)
            (try_catch
               (utxoLockService_lockUTXO env id creating_vault;;
                try_catch
                  (createVaultLocked env amount bs delay walletState wallet
                     fundingUTXO id)
                  (λ innerError,
                     utxoLockService_unlockUTXO id;; throw innerError))
               (classifyCreateError env (Some fundingUTXO)))
            (λ _ w, (∀ u, u ∈ lockedUTXOs w → u ∈ lockedUTXOs w0)
                    ∧ ∃ evs, trace w = trace w0 ++ evs
                        ∧ released_and_saved evs ∧ nothing_held evs w)
            (λ _, released w0 id)) as Hrun.
  { eapply hoare_try_catch; [|intros e; apply classify_released].
    eapply hoare_bind.
    - eapply hoare_conseq; [apply (lock_fresh id) | done | | by intros ? ? []].
      intros ? ? Hw. exact Hw.
    - intros []. eapply hoare_try_catch; [apply createVaultLocked_triple|].
      intros e. apply unlock_and_rethrow. }
  specialize (Hrun w1).
  simpl in Hrun. destruct (try_catch _ _ w1) as [[vaultTxid|e] w'].
  - apply Hrun. split; [done|]. split; [done|]. by exists (Console <$> lines).
  - apply released_discipline in Hrun as [? (evs & ? & ? & ?)]; [by eauto|].
    split; [done|]. split; [done|]. by exists (Console <$> lines).
Qed.

End LockLifecycle.

(** ** The contract state sent with a spell *)

Ltac by_request :=
  intros ? Hev; discriminate Hev.

Section Pinned.

Import VaultService.

Variable env : Env.
Variable vaultId : string.
Variable c : Z.

Abbreviation ok := (requests_pinned_at c).
Abbreviation R := (created_kept vaultId c).

Lemma run_after {A B} (m : M A) (k : A → M B) (h : exn → M B) w a wc :
  m w = (Ok a, wc) → try_catch (m ≫= k) h w = try_catch (k a) h wc.
Proof. intros Hm. by rewrite !run_try_catch, run_bind, Hm. Qed.

Lemma getVault_run w v :
  (getVault vaultId w).1 = Ok v →
  ∃ wc, getVault vaultId w = (Ok v, wc) ∧ trace wc = trace w
        ∧ vaultsCache wc !! vaultId = Some v.
Proof.
  unfold getVault, loadVaultFromStorage. run.
  destruct (vaultsCache w !! vaultId) as [cached|] eqn:Hcache.
  - simpl. intros [= ->]. by exists w.
  - destruct (vaultStorage w !! vaultId) as [stored|]; simpl; [|done].
    intros [= ->]. eexists. split; [done|]. split; [done|]. simpl.
    apply lookup_insert_eq.
Qed.

Lemma getVault_cached w v :
  vaultsCache w !! vaultId = Some v → getVault vaultId w = (Ok v, w).
Proof. intros Hc. unfold getVault. run. by rewrite Hc. Qed.

Lemma steps_assign vault :
  createdBlock vault = c → steps ok R (assign vaultId vault) (λ _, True).
Proof.
  intros Hc. unfold assign. apply steps_modify; [done|].
  intros w _. simpl. exists vault. by rewrite lookup_insert_eq.
Qed.

Lemma steps_saveVaultToStorage vault :
  steps ok R (saveVaultToStorage vault) (λ _, True).
Proof.
  unfold saveVaultToStorage.
  eapply steps_bind; [apply steps_modify; [done | by intros w H]|].
  intros _ _. apply steps_emit. by_request.
Qed.

Lemma steps_rewrap {A} prefix code e (Q : A → Prop) :
  steps ok R (rewrap prefix code e) Q.
Proof. unfold rewrap. destruct (instanceof_CharmVaultError e); apply steps_throw. Qed.

(** A request built around a spell that spends the rebuilt contract state
    presents the block at which the vault was created. *)
Lemma request_pinned v (request : ProverRequest) (theSpell : SpellJSON) utxo_id :
  createdBlock v = c →
  spell request = theSpell →
  ins theSpell = [ {| utxo_id := utxo_id;
                      in_charms := Some {[ "$00" := vaultCharm_of v ]} |} ] →
  ok (ProveSpell request).
Proof.
  intros Hc Hspell Hins request' [= <-]. exists utxo_id, (vaultCharm_of v).
  by rewrite Hspell, Hins.
Qed.

Ltac step := eapply steps_bind; [ | intros ? ? ].

Lemma steps_signBoth wallet proverResponse :
  steps ok R (signBothAndBroadcast env wallet proverResponse) (λ _, True).
Proof. apply steps_signBothAndBroadcast; intros; by_request. Qed.

Lemma checkin_pinned w v :
  (getVault vaultId w).1 = Ok v → createdBlock v = c →
  (∃ evs, trace (checkin env vaultId w).2 = trace w ++ evs ∧ Forall ok evs)
  ∧ ∃ v', (getVault vaultId (checkin env vaultId w).2).1 = Ok v'
          ∧ createdBlock v' = c.
Proof.
  intros Hget Hc. destruct (getVault_run w v Hget) as (wc & Hrun & Htr & Hcache).
  unfold checkin. rewrite (run_after _ _ _ _ _ _ Hrun).
  match goal with |- context [try_catch ?body ?h wc] =>
    assert (steps ok R (try_catch body h) (λ _, True)) as Hsteps end.
  { apply steps_try_catch; [|intros e; apply steps_rewrap].
    destruct (negb _); [apply steps_throw|].
    step; [apply steps_getActiveWallet|].
    destruct a as [[walletState wallet]|]; [|apply steps_throw].
    step; [apply steps_getCurrentBlockHeight; by_request|].
    step; [apply steps_getFeeEstimates; by_request|].
    step; [apply steps_lift_eq|].
    step; [apply steps_getRawTransaction; by_request|].
    step; [apply steps_buildProverRequest; by_request|].
    step.
    { apply steps_proveSpell. cbv beta in *.
      match goal with
      | Hreq : spell _ = _, Hbuilt : SpellBuilder.buildCheckinSpell _ _ _ = Ok _
        |- _ => eapply (request_pinned _ _ _ _ Hc Hreq);
                injection Hbuilt as <-; reflexivity
      end. }
    step; [apply steps_signBoth|].
    step; [by apply steps_assign|].
    step; [apply steps_calculateUnlockDate|].
    step; [by apply steps_assign|].
    step; [apply steps_saveVaultToStorage|].
    by apply steps_ret. }
  destruct (Hsteps wc) as ((evs & Hevs & Hok) & Hkept & _).
  split; [exists evs; by rewrite Hevs, Htr|].
  destruct Hkept as (v' & Hv' & Hc'); [by eauto|].
  exists v'. by rewrite (getVault_cached _ _ Hv').
Qed.

Lemma updateBeneficiaries_pinned w v newBeneficiaries :
  (getVault vaultId w).1 = Ok v → createdBlock v = c →
  (∃ evs, trace (updateBeneficiaries env vaultId newBeneficiaries w).2
          = trace w ++ evs ∧ Forall ok evs)
  ∧ ∃ v', (getVault vaultId
             (updateBeneficiaries env vaultId newBeneficiaries w).2).1 = Ok v'
          ∧ createdBlock v' = c.
Proof.
  intros Hget Hc. destruct (getVault_run w v Hget) as (wc & Hrun & Htr & Hcache).
  unfold updateBeneficiaries.
  destruct (negb (SpellBuilder.validateBeneficiaries newBeneficiaries)).
  { run. simpl. split; [exists []; by rewrite app_nil_r | by eauto]. }
  rewrite (run_after _ _ _ _ _ _ Hrun).
  match goal with |- context [try_catch ?body ?h wc] =>
    assert (steps ok R (try_catch body h) (λ _, True)) as Hsteps end.
  { apply steps_try_catch; [|intros e; apply steps_rewrap].
    destruct (negb _); [apply steps_throw|].
    step; [apply steps_getActiveWallet|].
    destruct a as [[walletState wallet]|]; [|apply steps_throw].
    step; [apply steps_getCurrentBlockHeight; by_request|].
    step; [apply steps_getFeeEstimates; by_request|].
    step; [apply steps_lift_eq|].
    step; [apply steps_getRawTransaction; by_request|].
    step; [apply steps_buildProverRequest; by_request|].
    step.
    { apply steps_proveSpell. cbv beta in *.
      match goal with
      | Hreq : spell _ = _,
        Hbuilt : SpellBuilder.buildUpdateBeneficiariesSpell _ _ _ = Ok _
        |- _ => eapply (request_pinned _ _ _ _ Hc Hreq);
                injection Hbuilt as <-; reflexivity
      end. }
    step; [apply steps_signBoth|].
    step; [by apply steps_assign|].
    step; [by apply steps_assign|].
    step; [apply steps_calculateUnlockDate|].
    step; [by apply steps_assign|].
    step; [apply steps_saveVaultToStorage|].
    by apply steps_ret. }
  destruct (Hsteps wc) as ((evs & Hevs & Hok) & Hkept & _).
  split; [exists evs; by rewrite Hevs, Htr|].
  destruct Hkept as (v' & Hv' & Hc'); [by eauto|].
  exists v'. by rewrite (getVault_cached _ _ Hv').
Qed.

Lemma buildDistributeSpell_ins params theSpell :
  SpellBuilder.buildDistributeSpell (VITE_APP_VK env) (sha256_hex env) params
  = Ok theSpell →
  ins theSpell
  = [ {| utxo_id := formatUtxoId (txid (dv_vaultUTXO params))
                      (vout (dv_vaultUTXO params));
         in_charms := Some {[ "$00" := dv_vaultCharm params ]} |} ].
Proof.
  unfold SpellBuilder.buildDistributeSpell. case_bool_decide; [done|].
  by intros [= <-].
Qed.

Lemma distribute_pinned w v :
  (getVault vaultId w).1 = Ok v → createdBlock v = c →
  (∃ evs, trace (distribute env vaultId w).2 = trace w ++ evs ∧ Forall ok evs)
  ∧ ∃ v', (getVault vaultId (distribute env vaultId w).2).1 = Ok v'
          ∧ createdBlock v' = c.
Proof.
  intros Hget Hc. destruct (getVault_run w v Hget) as (wc & Hrun & Htr & Hcache).
  unfold distribute. rewrite (run_after _ _ _ _ _ _ Hrun).
  match goal with |- context [try_catch ?body ?h wc] =>
    assert (steps ok R (try_catch body h) (λ _, True)) as Hsteps end.
  { apply steps_try_catch; [|intros e; apply steps_rewrap].
    step; [apply steps_getCurrentBlockHeight; by_request|].
    case_bool_decide; [apply steps_throw|].
    step; [apply steps_getFeeEstimates; by_request|].
    step; [apply steps_lift_eq|].
    step; [apply steps_getRawTransaction; by_request|].
    step.
    { destruct (vault_beneficiaries v);
        [apply steps_throw | by apply (steps_ret _ (λ _, True))]. }
    step; [apply steps_buildProverRequest; by_request|].
    step.
    { apply steps_proveSpell. cbv beta in *.
      match goal with
      | Hreq : spell _ = _,
        Hbuilt : SpellBuilder.buildDistributeSpell _ _ _ = Ok _
        |- _ => eapply (request_pinned _ _ _ _ Hc Hreq);
                apply buildDistributeSpell_ins in Hbuilt; exact Hbuilt
      end. }
    step; [apply steps_getActiveWallet|].
    match goal with |- steps _ _ (match ?x with _ => _ end) _ =>
      destruct x as [[walletState wallet]|]; [|apply steps_throw] end.
    step; [apply steps_signBoth|].
    step; [by apply steps_assign|].
    step; [apply steps_saveVaultToStorage|].
    by apply steps_ret. }
  destruct (Hsteps wc) as ((evs & Hevs & Hok) & Hkept & _).
  split; [exists evs; by rewrite Hevs, Htr|].
  destruct Hkept as (v' & Hv' & Hc'); [by eauto|].
  exists v'. by rewrite (getVault_cached _ _ Hv').
Qed.

Lemma runOp_pinned op w v :
  (getVault vaultId w).1 = Ok v → createdBlock v = c →
  (∃ evs, trace (runOp env vaultId op w).2 = trace w ++ evs ∧ Forall ok evs)
  ∧ ∃ v', (getVault vaultId (runOp env vaultId op w).2).1 = Ok v'
          ∧ createdBlock v' = c.
Proof.
  destruct op; simpl.
  - apply checkin_pinned.
  - apply updateBeneficiaries_pinned.
  - apply distribute_pinned.
Qed.

Lemma runOps_pinned ops w v :
  (getVault vaultId w).1 = Ok v → createdBlock v = c →
  (∃ evs, trace (runOps env vaultId ops w) = trace w ++ evs ∧ Forall ok evs)
  ∧ ∃ v', (getVault vaultId (runOps env vaultId ops w)).1 = Ok v'
          ∧ createdBlock v' = c.
Proof.
  revert w v. induction ops as [|op ops IH]; intros w v Hget Hc.
  - simpl. split; [exists []; by rewrite app_nil_r | by eauto].
  - destruct (runOp_pinned op w v Hget Hc) as ((evs1 & Htr1 & Hok1) & v1 & Hget1 & Hc1).
    destruct (IH _ v1 Hget1 Hc1) as ((evs2 & Htr2 & Hok2) & Hkept).
    change (runOps env vaultId (op :: ops) w)
      with (runOps env vaultId ops (runOp env vaultId op w).2).
    split; [|done]. exists (evs1 ++ evs2). rewrite Htr2, Htr1, app_assoc.
    split; [done | by apply Forall_app].
Qed.

Ltac step_any :=
  eapply (hoare_step (λ _, True) any_world (λ _, True));
    [ | by intros ? | by intros ? | intros ? ? ].

(** A check-in that returns has moved [unlockBlock] to the height the chain
    answered plus the delay. *)
Lemma checkin_advances w v checkinTxid :
  (getVault vaultId w).1 = Ok v →
  (checkin env vaultId w).1 = Ok checkinTxid →
  ∃ currentBlock h v',
    bitcoinClient_getCurrentBlockHeight env h = Ok currentBlock
    ∧ (getVault vaultId (checkin env vaultId w).2).1 = Ok v'
    ∧ unlockBlock v' = currentBlock + triggerDelayBlocks v.
Proof.
  intros Hget. destruct (getVault_run w v Hget) as (wc & Hrun & _ & _).
  unfold checkin. rewrite (run_after _ _ _ _ _ _ Hrun).
  match goal with |- context [try_catch ?body ?h wc] =>
    assert (hoare (λ _, True) (try_catch body h)
              (λ _ w', ∃ currentBlock h0 v',
                 bitcoinClient_getCurrentBlockHeight env h0 = Ok currentBlock
                 ∧ vaultsCache w' !! vaultId = Some v'
                 ∧ unlockBlock v' = currentBlock + triggerDelayBlocks v)
              (λ _ _, True)) as Htriple end.
  { eapply hoare_try_catch with (E' := λ _ _, True).
    2:{ intros e. unfold rewrap.
        destruct (instanceof_CharmVaultError e); by apply hoare_throw. }
    destruct (negb _); [by apply hoare_throw|].
    step_any; [apply (steps_getActiveWallet env)|].
    destruct a as [[walletState wallet]|]; [|by apply hoare_throw].
    step_any; [by apply (steps_getCurrentBlockHeight env)|].
    step_any; [by apply (steps_getFeeEstimates env)|].
    step_any; [apply steps_lift_eq|].
    step_any; [by apply (steps_getRawTransaction env)|].
    step_any; [by apply (steps_buildProverRequest env)|].
    step_any; [by apply (steps_proveSpell env)|].
    step_any; [by apply (steps_signBothAndBroadcast env)|].
    step_any; [by apply steps_modify|].
    step_any; [apply (steps_calculateUnlockDate env)|].
    intros w' _. unfold assign, saveVaultToStorage. run. simpl.
    cbv beta in *.
    match goal with
    | Hh : ex _ |- _ =>
        destruct Hh as [hh Hh]; eexists _, hh, _;
        split; [exact Hh|]; split; [apply lookup_insert_eq|]; done
    end. }
  specialize (Htriple wc I).
  destruct (try_catch _ _ wc) as [[a|e] w']; simpl; [|done].
  intros _. destruct Htriple as (currentBlock & h0 & v' & Hh & Hv' & Hunlock).
  exists currentBlock, h0, v'. by rewrite (getVault_cached _ _ Hv').
Qed.

End Pinned.

(** C10. Through any session of check-ins, beneficiary updates and
    distributions on a vault, every request sent to the proof service
    presents a contract state whose [last_checkin_block] is the record's
    [createdBlock], and the record's [createdBlock] stays what it was;
    a check-in that returns nevertheless moves the record's [unlockBlock]
    to the current height plus the delay. *)
Theorem input_charm_pinned_to_createdBlock (env : Env) (vaultId : string)
    (ops : list VaultOp) (w : World) (v : Vault) :
  (VaultService.getVault vaultId w).1 = Ok v →
  (∃ evs, trace (runOps env vaultId ops w) = trace w ++ evs
          ∧ Forall (requests_pinned_at (createdBlock v)) evs)
  ∧ (∃ v', (VaultService.getVault vaultId (runOps env vaultId ops w)).1 = Ok v'
           ∧ createdBlock v' = createdBlock v)
  ∧ (∀ checkinTxid,
       (VaultService.checkin env vaultId w).1 = Ok checkinTxid →
       ∃ currentBlock h v',
         bitcoinClient_getCurrentBlockHeight env h = Ok currentBlock
         ∧ (VaultService.getVault vaultId
              (VaultService.checkin env vaultId w).2).1 = Ok v'
         ∧ unlockBlock v' = currentBlock + triggerDelayBlocks v).
Proof.
  intros Hget.
  destruct (runOps_pinned env vaultId (createdBlock v) ops w v Hget eq_refl)
    as [Hevs Hkept].
  split; [exact Hevs|]. split; [exact Hkept|].
  intros checkinTxid. by apply checkin_advances.
Qed.

Lemma input_charm_pinned_to_createdBlock_witness :
  Forall (requests_pinned_at 100)
    (trace (runOps (exampleEnv 1000 800000 [] psbtSigner openNode) "f00d:0"
              [Checkin; Checkin] (worldWithVault (exampleVault 100 50 150))))
  ∧ ∃ v',
      (VaultService.getVault "f00d:0"
         (VaultService.checkin (exampleEnv 1000 800000 [] psbtSigner openNode)
            "f00d:0" (worldWithVault (exampleVault 100 50 150))).2).1 = Ok v'
      ∧ unlockBlock v' = 800050.
Proof.
  split.
  - destruct (input_charm_pinned_to_createdBlock
                (exampleEnv 1000 800000 [] psbtSigner openNode) "f00d:0"
                [Checkin; Checkin] (worldWithVault (exampleVault 100 50 150))
                (exampleVault 100 50 150) eq_refl)
      as ((evs & Htrace & Hpinned) & _).
    rewrite Htrace. exact Hpinned.
  - destruct (input_charm_pinned_to_createdBlock
                (exampleEnv 1000 800000 [] psbtSigner openNode) "f00d:0"
                [] (worldWithVault (exampleVault 100 50 150))
                (exampleVault 100 50 150) eq_refl)
      as (_ & _ & Hadvance).
    destruct (Hadvance "f00d" eq_refl) as (currentBlock & h & v' & Hh & Hv' & Hu).
    exists v'. split; [exact Hv'|]. injection Hh as <-. exact Hu.
Defined.

(** ** The spell transaction on the way to the node *)

(** C1, at a failing input. With a wallet that returns a signed PSBT for
    whatever it is given, the proof service answers with the spell
    transaction ["5e"], and check-in, beneficiary update and distribution
    each hand the node the wallet's output for it, ["70736274ff5e"], not
    the transaction they received. *)
Theorem spell_tx_resigned_on_existing_vaults :
  (∀ h request,
     proverClient_proveSpell (exampleEnv 1000 800000 [] psbtSigner openNode)
       h request = Ok ("c0", "5e"))
  ∧ broadcasts
      (trace (VaultService.checkin
                (exampleEnv 1000 800000 [] psbtSigner openNode) "f00d:0"
                (worldWithVault (exampleVault 100 50 150))).2)
    = [("70736274ffc0", "70736274ff5e")]
  ∧ broadcasts
      (trace (VaultService.updateBeneficiaries
                (exampleEnv 1000 800000 [] psbtSigner openNode) "f00d:0"
                [heir "tb1qheir3" 100]
                (worldWithVault (exampleVault 100 50 150))).2)
    = [("70736274ffc0", "70736274ff5e")]
  ∧ broadcasts
      (trace (VaultService.distribute
                (exampleEnv 1000 800000 [] psbtSigner openNode) "f00d:0"
                (worldWithVault (exampleVault 100 50 150))).2)
    = [("70736274ffc0", "70736274ff5e")]
  ∧ "70736274ff5e" ≠ "5e".
Proof.
  split; [done|]. split; [by vm_compute|]. split; [by vm_compute|].
  split; [by vm_compute | done].
Qed.

(** [createVault], the sibling path, passes the spell transaction on as it
    received it: on the direct attempt and on the wallet-signing fallback. *)

Section AsReceived.

Import UTXOLockService VaultService.

Variable env : Env.

Abbreviation ok := (as_received env).

Ltac by_package := intros ? ? Hev; discriminate Hev.

Ltac step := eapply steps_bind; [ | intros ? ? ].

Lemma steps_console (lines : list console) :
  steps ok any_world (log lines) (λ _, True).
Proof. apply steps_log, Forall_true. intros line. by_package. Qed.

Lemma steps_set_locks l :
  steps ok any_world (modify (set_lockedUTXOs l)) (λ _, True).
Proof. by apply steps_modify. Qed.

Lemma steps_lockUTXO id ty :
  steps ok any_world (utxoLockService_lockUTXO env id ty) (λ _, True).
Proof.
  unfold utxoLockService_lockUTXO. step; [apply steps_now|].
  step; [by apply (steps_gets _ (λ _, True))|].
  destruct (lockUTXO _ _ _ _). step; [apply steps_set_locks|].
  apply steps_console.
Qed.

Lemma steps_unlockUTXO id :
  steps ok any_world (utxoLockService_unlockUTXO id) (λ _, True).
Proof.
  unfold utxoLockService_unlockUTXO.
  step; [by apply (steps_gets _ (λ _, True))|].
  destruct (unlockUTXO _ _). step; [apply steps_set_locks|].
  apply steps_console.
Qed.

Lemma steps_isLocked id :
  steps ok any_world (utxoLockService_isLocked env id) (λ _, True).
Proof.
  unfold utxoLockService_isLocked. step; [apply steps_now|].
  step; [by apply (steps_gets _ (λ _, True))|].
  destruct (isLocked _ _ _) as [[b l] out]. step; [apply steps_set_locks|].
  step; [apply steps_console|]. by apply steps_ret.
Qed.

Lemma steps_clearExpiredLocks :
  steps ok any_world (utxoLockService_clearExpiredLocks env) (λ _, True).
Proof.
  unfold utxoLockService_clearExpiredLocks. step; [apply steps_now|].
  step; [by apply (steps_gets _ (λ _, True))|].
  destruct (clearExpiredLocks _ _). step; [apply steps_set_locks|].
  apply steps_console.
Qed.

Lemma steps_suitable t requiredAmount u :
  steps ok any_world (suitable env t requiredAmount u) (λ _, True).
Proof.
  unfold suitable. case_bool_decide; [by apply steps_ret|].
  step; [apply steps_isLocked|].
  destruct a.
  { step; [apply steps_console | by apply steps_ret]. }
  step; [by apply (steps_gets _ (λ _, True))|].
  destruct a as [failure|]; [|by apply steps_ret].
  case_bool_decide; [|by apply steps_ret].
  step; [apply steps_console | by apply steps_ret].
Qed.

Lemma steps_filterM {A} (keep : A → M bool) (l : list A) :
  (∀ a, steps ok any_world (keep a) (λ _, True)) →
  steps ok any_world (filterM keep l) (λ _, True).
Proof.
  intros Hkeep. induction l as [|a l IH]; [by apply steps_ret|].
  cbn [filterM]. step; [apply Hkeep|]. step; [apply IH|]. by apply steps_ret.
Qed.

Lemma steps_selectFundingUTXO candidates requiredAmount :
  steps ok any_world (selectFundingUTXO env candidates requiredAmount)
    (λ _, True).
Proof.
  unfold selectFundingUTXO. step; [apply steps_now|].
  step; [apply steps_clearExpiredLocks|].
  step; [apply steps_filterM; intros; apply steps_suitable|].
  by apply steps_ret.
Qed.

Lemma steps_classify {A} fundingUTXO e (Q : A → Prop) :
  steps ok any_world (classifyCreateError env fundingUTXO e) Q.
Proof.
  unfold classifyCreateError.
  assert (steps ok any_world
            (if instanceof_CharmVaultError e then throw e
             else throw (CharmVaultError
                           ("Failed to create vault: " +:+ message_of e)
                           "CREATE_VAULT_ERROR" (Some e))) Q) as Hwrap.
  { destruct (instanceof_CharmVaultError e); apply steps_throw. }
  destruct fundingUTXO as [utxo|]; [|done].
  destruct (includes _ _); [|done].
  step; [|apply steps_throw]. unfold markUTXOFailed.
  step; [by apply (steps_gets _ (λ _, True))|].
  step; [apply steps_now|].
  step; [by apply steps_modify|].
  apply steps_console.
Qed.

Lemma steps_createVaultLocked amount bs delay walletState wallet fundingUTXO id :
  steps ok any_world
    (createVaultLocked env amount bs delay walletState wallet fundingUTXO id)
    (λ _, True).
Proof.
  unfold createVaultLocked.
  step; [apply steps_getCurrentBlockHeight; by_package|].
  step; [apply steps_getFeeEstimates; by_package|].
  step; [apply steps_lift_eq|].
  step; [apply steps_getRawTransaction; by_package|].
  step; [apply steps_buildProverRequest; by_package|].
  step; [apply steps_proveSpell; by_package|].
  cbv beta in *.
  match goal with |- steps _ _ (let '(_, _) := ?r in _) _ =>
    destruct r as [commitTx spellTx] end.
  assert (proved env spellTx) as Hproved.
  { match goal with Hh : ex _ |- _ => destruct Hh as [h Hh] end.
    by eexists h, _, commitTx. }
  step; [apply steps_lift_eq|].
  step; [apply steps_lift_eq|].
  step.
  { apply (steps_try_catch _ _ (λ _, True)).
    - apply steps_broadcastPackage. by intros ? ? [= _ <-].
    - intros _. apply steps_signAndBroadcast; [intros; by_package|].
      intros signedCommitTx. by intros ? ? [= _ <-]. }
  step; [apply steps_unlockUTXO|].
  step; [apply steps_calculateUnlockDate|].
  step; [apply steps_now|].
  step; [apply steps_now|].
  step; [by apply steps_modify|].
  step; [|by apply steps_ret].
  unfold saveVaultToStorage. step; [by apply steps_modify|].
  apply steps_emit. by_package.
Qed.

Lemma steps_createVault amount bs delay :
  steps ok any_world (createVault env amount bs delay) (λ _, True).
Proof.
  unfold createVault. step.
  { apply (steps_try_catch _ _ (λ _, True)); [|intros e; apply steps_classify].
    unfold createVaultPrepare. destruct (negb _); [apply steps_throw|].
    step; [apply steps_getActiveWallet|].
    destruct a; [by apply steps_ret | apply steps_throw]. }
  destruct a as [walletState wallet].
  step; [apply steps_selectFundingUTXO|].
  apply steps_try_catch; [|intros e; apply steps_classify].
  unfold createVaultFunded. destruct a as [fundingUTXO|]; [|apply steps_throw].
  case_bool_decide; [apply steps_throw|].
  step; [apply steps_lockUTXO|].
  apply steps_try_catch; [apply steps_createVaultLocked|].
  intros innerError. step; [apply steps_unlockUTXO | apply steps_throw].
Qed.

Lemma broadcasts_proved (evs : History) :
  Forall ok evs → Forall (λ package, proved env package.2) (broadcasts evs).
Proof.
  unfold broadcasts. induction 1 as [|ev evs Hev Hevs IH]; [constructor|].
  destruct ev; simpl; try exact IH. constructor; [|exact IH].
  by eapply Hev.
Qed.

(** Every package [createVault] hands to the node carries a spell
    transaction that the proof service returned, unchanged. *)
Lemma createVault_broadcasts_spell_as_received amount bs delay w :
  ∃ evs, trace (createVault env amount bs delay w).2 = trace w ++ evs
    ∧ Forall (λ package, proved env package.2) (broadcasts evs).
Proof.
  destruct (steps_createVault amount bs delay w) as ((evs & Htr & Hok) & _).
  exists evs. split; [done | by apply broadcasts_proved].
Qed.

End AsReceived.

(** The fallback at work: the node rejects the unsigned commit transaction,
    the wallet signs it, and the second package carries the same spell
    transaction ["5e"] next to the signed commit transaction. *)
Example createVault_fallback_keeps_spell :
  broadcasts
    (trace (VaultService.createVault
              (exampleEnv 1000 800000 [utxoA; utxoB] psbtSigner strictNode)
              4000 [heir "h1" 60; heir "h2" 40] 144 emptyWorld).2)
  = [("c0", "5e"); ("0200", "5e")].
Proof. by vm_compute. Qed.

(** ** The two gates of a distribution *)

(** The error of code [VAULT_LOCKED] comes from the orchestrator: it is
    thrown when the chain height is at most the record's [unlockBlock],
    before the spell builder is called. *)
Lemma distribute_vault_locked (env : Env) (vaultId : string) (w : World)
    (v : Vault) (B : Z) :
  (VaultService.getVault vaultId w).1 = Ok v →
  bitcoinClient_getCurrentBlockHeight env
    (awaited (trace w ++ [GetCurrentBlockHeight])) = Ok B →
  B <= unlockBlock v →
  (VaultService.distribute env vaultId w).1
  = Throw (VaultService.vaultLocked (unlockBlock v) B)
  ∧ code_of (VaultService.vaultLocked (unlockBlock v) B) = Some "VAULT_LOCKED".
Proof.
  intros Hget HB Hle. split; [|done].
  destruct (getVault_run vaultId w v Hget) as (wc & Hrun & Htr & _).
  unfold VaultService.distribute, VaultService.getCurrentBlockHeight.
  rewrite (run_after _ _ _ _ _ _ Hrun). run. simpl. rewrite Htr, HB.
  by rewrite bool_decide_eq_true_2.
Qed.

(** C2 (amended). Building a distribution spell fails if and only if
    [B <= L + D]; the failure is the plain error "Deadline not reached",
    which carries no error code; whenever [B > L + D] the builder succeeds
    and no output of the spell carries a contract state.  The error of code
    [VAULT_LOCKED] is thrown by [distribute] itself, when the chain height
    is at most the record's [unlockBlock]. *)
Theorem distribute_gate (appVk : string) (sha : string → string)
    (params : DistributeVaultParams) (env : Env) (vaultId : string)
    (w : World) (v : Vault) (height : Z) :
  let L := last_checkin_block (dv_vaultCharm params) in
  let D := trigger_delay_blocks (dv_vaultCharm params) in
  let B := dv_currentBlock params in
  ((∃ e, SpellBuilder.buildDistributeSpell appVk sha params = Throw e)
   ↔ B <= L + D)
  ∧ (B <= L + D →
     SpellBuilder.buildDistributeSpell appVk sha params
     = Throw (SpellBuilder.deadlineNotReached B (L + D))
     ∧ code_of (SpellBuilder.deadlineNotReached B (L + D)) = None)
  ∧ (L + D < B →
     ∃ theSpell, SpellBuilder.buildDistributeSpell appVk sha params = Ok theSpell
       ∧ Forall (λ o, out_charms o = None) (outs theSpell))
  ∧ ((VaultService.getVault vaultId w).1 = Ok v →
     bitcoinClient_getCurrentBlockHeight env
       (awaited (trace w ++ [GetCurrentBlockHeight])) = Ok height →
     height <= unlockBlock v →
     (VaultService.distribute env vaultId w).1
     = Throw (VaultService.vaultLocked (unlockBlock v) height)
     ∧ code_of (VaultService.vaultLocked (unlockBlock v) height)
       = Some "VAULT_LOCKED").
Proof.
  intros L D B.
  destruct (buildDistributeSpell_gate appVk sha params) as (Hiff & Hfail & Hok).
  split; [exact Hiff|]. split; [exact Hfail|]. split; [exact Hok|].
  apply distribute_vault_locked.
Qed.

Lemma distribute_gate_witness :
  SpellBuilder.buildDistributeSpell "vk" exampleDigest
    (exampleDistribute 100000 100 50 150 [heir "h1" 60; heir "h2" 40])
  = Throw (SpellBuilder.deadlineNotReached 150 150)
  ∧ (∃ theSpell,
       SpellBuilder.buildDistributeSpell "vk" exampleDigest
         (exampleDistribute 100000 100 50 151 [heir "h1" 60; heir "h2" 40])
       = Ok theSpell
       ∧ Forall (λ o, out_charms o = None) (outs theSpell))
  ∧ (VaultService.distribute (exampleEnv 1000 150 [] psbtSigner openNode)
       "f00d:0" (worldWithVault (exampleVault 100 50 150))).1
    = Throw (VaultService.vaultLocked 150 150).
Proof.
  destruct (distribute_gate "vk" exampleDigest
              (exampleDistribute 100000 100 50 150 [heir "h1" 60; heir "h2" 40])
              (exampleEnv 1000 150 [] psbtSigner openNode) "f00d:0"
              (worldWithVault (exampleVault 100 50 150))
              (exampleVault 100 50 150) 150)
    as (_ & Hfail & _ & Hlocked).
  destruct (distribute_gate "vk" exampleDigest
              (exampleDistribute 100000 100 50 151 [heir "h1" 60; heir "h2" 40])
              (exampleEnv 1000 150 [] psbtSigner openNode) "f00d:0"
              (worldWithVault (exampleVault 100 50 150))
              (exampleVault 100 50 150) 150)
    as (_ & _ & Hok & _).
  split; [apply Hfail; simpl; lia|]. split; [apply Hok; simpl; lia|].
  apply Hlocked; [reflexivity | reflexivity | simpl; lia].
Defined.

(** After a check-in at height 800000 the record unlocks at 800050 while
    the state sent to the builder still says 100 + 50: at height 1000 the
    orchestrator refuses with [VAULT_LOCKED]; the builder, asked alone with
    that state, would have built the spell. *)
Example distribute_gates_differ :
  (VaultService.distribute (exampleEnv 1000 1000 [] psbtSigner openNode)
     "f00d:0" (worldWithVault (exampleVault 100 50 800050))).1
  = Throw (VaultService.vaultLocked 800050 1000)
  ∧ ∃ theSpell,
      SpellBuilder.buildDistributeSpell "vk" exampleDigest
        {| dv_vaultUTXO := VaultService.vaultUTXO_of
                             (exampleEnv 1000 1000 [] psbtSigner openNode)
                             "f00d:0" (exampleVault 100 50 800050);
           dv_vaultCharm := VaultService.vaultCharm_of
                              (exampleVault 100 50 800050);
           dv_currentBlock := 1000;
           dv_feeRate := 5 |} = Ok theSpell.
Proof.
  split; [by vm_compute|]. eexists. by vm_compute.
Qed.

(** ** Two runs of [createVault] *)

(** A run that returns: the UTXO is locked, then unlocked, and no lock is
    left. *)
Example createVault_returns :
  (VaultService.createVault
     (exampleEnv 1000 800000 [utxoA; utxoB] psbtSigner openNode)
     4000 [heir "h1" 60; heir "h2" 40] 144 emptyWorld).1 = Ok "f00d"
  ∧ consoleLines
      (trace (VaultService.createVault
                (exampleEnv 1000 800000 [utxoA; utxoB] psbtSigner openNode)
                4000 [heir "h1" 60; heir "h2" 40] 144 emptyWorld).2)
    = [LogLocked "A:0"; LogUnlocked "A:0"]
  ∧ lockedUTXOs
      (VaultService.createVault
         (exampleEnv 1000 800000 [utxoA; utxoB] psbtSigner openNode)
         4000 [heir "h1" 60; heir "h2" 40] 144 emptyWorld).2 = [].
Proof. by vm_compute. Qed.

(** A run that throws after locking: the node refuses both packages; the
    UTXO is unlocked all the same. *)
Example createVault_throws :
  code_of
    match (VaultService.createVault
             (exampleEnv 1000 800000 [utxoA; utxoB] psbtSigner closedNode)
             4000 [heir "h1" 60; heir "h2" 40] 144 emptyWorld).1 with
    | Ok _ => Error ""
    | Throw e => e
    end = Some "CREATE_VAULT_ERROR"
  ∧ consoleLines
      (trace (VaultService.createVault
                (exampleEnv 1000 800000 [utxoA; utxoB] psbtSigner closedNode)
                4000 [heir "h1" 60; heir "h2" 40] 144 emptyWorld).2)
    = [LogLocked "A:0"; LogUnlocked "A:0"]
  ∧ lockedUTXOs
      (VaultService.createVault
         (exampleEnv 1000 800000 [utxoA; utxoB] psbtSigner closedNode)
         4000 [heir "h1" 60; heir "h2" 40] 144 emptyWorld).2 = [].
Proof. by vm_compute. Qed.

(** * Further properties *)

(** ** Doubles

    Rounding to the nearest double never reverses the order of two numbers,
    and leaves an integer of at most 53 bits as it is. *)

Section DoubleFacts.

Import Double.

Local Open Scope Q_scope.

Lemma pow2_pos (e : Z) : 0 < 2 ^ e.
Proof. by apply Qpower_0_lt. Qed.

Lemma pow2_add (a b : Z) : 2 ^ (a + b) == 2 ^ a * 2 ^ b.
Proof. by apply Qpower_plus. Qed.

Lemma pow2_le (a b : Z) : (a <= b)%Z → 2 ^ a <= 2 ^ b.
Proof. intros. by apply Qpower_le_compat_l. Qed.

Lemma pow2_lt (a b : Z) : (a < b)%Z → 2 ^ a < 2 ^ b.
Proof. intros. by apply Qpower_lt_compat_l. Qed.

Lemma pow2_inject (k : Z) : (0 <= k)%Z → 2 ^ k == inject_Z (2 ^ k).
Proof. intros. symmetry. by apply (Zpower_Qpower 2). Qed.

Lemma pow2_succ (a : Z) : 2 ^ (a + 1) == 2 * 2 ^ a.
Proof. rewrite pow2_add. change (2 ^ 1) with 2. lra. Qed.

Lemma nearestEven_comp (x y : Q) : x == y → nearestEven x = nearestEven y.
Proof.
  intros Hxy. unfold nearestEven. rewrite (Qfloor_comp _ _ Hxy).
  by rewrite (Qcompare_comp _ _ (ltac:(by rewrite Hxy) :
               x - inject_Z (Qfloor y) == y - inject_Z (Qfloor y))
               (1 # 2) (1 # 2) (Qeq_refl _)).
Qed.

Lemma nearestEven_bounds (q : Q) :
  (Qfloor q <= nearestEven q <= Qfloor q + 1)%Z.
Proof.
  unfold nearestEven. destruct (_ ?= _); [destruct (Z.even _)|..]; lia.
Qed.

Lemma nearestEven_inject (z : Z) : nearestEven (inject_Z z) = z.
Proof.
  unfold nearestEven. rewrite Qfloor_Z.
  destruct (Qcompare_spec (inject_Z z - inject_Z z) (1 # 2));
    [exfalso; lra | done | exfalso; lra].
Qed.

Lemma nearestEven_mono (x y : Q) :
  x <= y → (nearestEven x <= nearestEven y)%Z.
Proof.
  intros Hxy. pose proof (Qfloor_resp_le _ _ Hxy) as Hfloor.
  destruct (Z.eq_dec (Qfloor x) (Qfloor y)) as [Heq|Hne].
  - unfold nearestEven. rewrite Heq.
    destruct (Qcompare_spec (x - inject_Z (Qfloor y)) (1 # 2)) as [Hx|Hx|Hx];
      destruct (Qcompare_spec (y - inject_Z (Qfloor y)) (1 # 2)) as [Hy|Hy|Hy];
      try destruct (Z.even _); try lia; exfalso; lra.
  - pose proof (nearestEven_bounds x). pose proof (nearestEven_bounds y). lia.
Qed.

Lemma div_lt_div (x y z w : Q) :
  0 < y → 0 < w → x * w < z * y → x / y < z / w.
Proof.
  intros Hy Hw Hlt. apply Qlt_shift_div_r; [done|].
  assert (z / w * y == z * y / w) as -> by (field; lra).
  by apply Qlt_shift_div_l.
Qed.

Lemma exponent_spec (q : Q) :
  ¬ q == 0 → 2 ^ exponent q <= Qabs q ∧ Qabs q < 2 ^ (exponent q + 1).
Proof.
  intros Hq. destruct q as [n d]. unfold exponent. simpl Qnum. simpl Qden.
  assert (0 < Z.abs n)%Z as Hn by (unfold Qeq in Hq; simpl in Hq; lia).
  destruct (Z.log2_spec (Z.abs n) Hn) as [Hn1 Hn2].
  destruct (Z.log2_spec (Z.pos d) ltac:(done)) as [Hd1 Hd2].
  pose proof (Z.log2_nonneg (Z.abs n)) as Ha.
  pose proof (Z.log2_nonneg (Z.pos d)) as Hb.
  set (a := Z.log2 (Z.abs n)) in *. set (b := Z.log2 (Z.pos d)) in *.
  assert (Qabs (n # d) == inject_Z (Z.abs n) / inject_Z (Z.pos d)) as Habs.
  { unfold Qabs. apply Qmake_Qdiv. }
  rewrite Zle_Qle in Hn1, Hd1. rewrite Zlt_Qlt in Hn2, Hd2.
  rewrite <- pow2_inject in Hn1, Hd1, Hn2, Hd2 by lia.
  replace (Z.succ a) with (a + 1)%Z in Hn2 by lia.
  replace (Z.succ b) with (b + 1)%Z in Hd2 by lia.
  rewrite pow2_succ in Hn2, Hd2.
  pose proof (pow2_pos a) as HA. pose proof (pow2_pos b) as HB.
  assert (0 < inject_Z (Z.pos d)) as HD by lra.
  assert (2 ^ (a - b) == 2 ^ a / 2 ^ b) as Hdiff by (by apply Qpower_minus).
  destruct (Qle_bool (2 ^ (a - b)) (Qabs (n # d))) eqn:Htest.
  - apply Qle_bool_iff in Htest. split; [done|].
    rewrite pow2_succ, Hdiff, Habs.
    assert (2 * (2 ^ a / 2 ^ b) == 2 * 2 ^ a / 2 ^ b) as -> by (field; lra).
    apply div_lt_div; [done..|]. nra.
  - assert (Qabs (n # d) < 2 ^ (a - b)) as Hlt.
    { apply Qnot_le_lt. intros Hle. apply Qle_bool_iff in Hle. congruence. }
    replace (a - b - 1 + 1)%Z with (a - b)%Z by lia. split; [|done].
    assert (2 ^ (a - b - 1) == 2 ^ a / (2 * 2 ^ b)) as ->.
    { replace (a - b - 1)%Z with (a - (b + 1))%Z by lia.
      rewrite Qpower_minus by done. by rewrite pow2_succ. }
    rewrite Habs. apply Qlt_le_weak. apply div_lt_div; [lra|done|nra].
Qed.

Lemma exponent_abs (q : Q) : exponent (Qabs q) = exponent q.
Proof.
  destruct q as [n d]. unfold exponent. simpl. by rewrite Z.abs_idemp.
Qed.

Lemma scale_abs (q : Q) : scale (Qabs q) = scale q.
Proof. unfold scale. by rewrite exponent_abs. Qed.

Lemma roundTo_mono (s : Z) (x y : Q) : x <= y → roundTo s x <= roundTo s y.
Proof.
  intros Hxy. unfold roundTo. pose proof (pow2_pos s).
  apply Qmult_le_compat_r; [|lra]. rewrite <- Zle_Qle.
  apply nearestEven_mono. apply Qmult_le_compat_r; [done|].
  apply Qlt_le_weak. by apply Qinv_lt_0_compat.
Qed.

Lemma roundTo_fix (s K : Z) : roundTo s (inject_Z K * 2 ^ s) == inject_Z K * 2 ^ s.
Proof.
  unfold roundTo. pose proof (pow2_pos s).
  rewrite (nearestEven_comp _ (inject_Z K)) by (field; lra).
  by rewrite nearestEven_inject.
Qed.

Lemma roundTo_comp (s : Z) (x y : Q) : x == y → roundTo s x == roundTo s y.
Proof. intros Hxy. apply Qle_antisym; apply roundTo_mono; lra. Qed.

Lemma round_nonneg (q : Q) : 0 <= q → round q == roundTo (scale q) q.
Proof.
  intros Hq. unfold round. apply Qle_bool_iff in Hq as Htest. rewrite Htest.
  apply roundTo_comp. by apply Qabs_pos.
Qed.

Lemma round_neg (q : Q) : q < 0 → round q = - round (Qabs q).
Proof.
  intros Hq. unfold round at 1.
  assert (Qle_bool 0 q = false) as ->.
  { apply not_true_is_false. intros Hle. apply Qle_bool_iff in Hle. lra. }
  unfold round. pose proof (Qabs_nonneg q) as Habs.
  apply Qle_bool_iff in Habs. rewrite Habs, scale_abs. unfold roundTo.
  by rewrite (nearestEven_comp (Qabs (Qabs q) / 2 ^ scale q)
                (Qabs q / 2 ^ scale q))
    by (by rewrite (Qabs_pos (Qabs q)) by apply Qabs_nonneg).
Qed.

Lemma round_zero (q : Q) : q == 0 → round q == 0.
Proof.
  intros Hq. rewrite round_nonneg by lra.
  generalize (scale q). intros s. unfold roundTo.
  rewrite (nearestEven_comp _ (inject_Z 0)).
  - rewrite nearestEven_inject. apply Qmult_0_l.
  - unfold Qdiv. rewrite Hq. apply Qmult_0_l.
Qed.

Lemma roundTo_nonneg (s : Z) (q : Q) : 0 <= q → 0 <= roundTo s q.
Proof.
  intros Hq. pose proof (roundTo_mono s 0 q Hq) as Hle.
  assert (roundTo s 0 == 0) as Hzero.
  { unfold roundTo. rewrite (nearestEven_comp _ (inject_Z 0)).
    - rewrite nearestEven_inject. apply Qmult_0_l.
    - apply Qmult_0_l. }
  lra.
Qed.

Lemma round_sign (q : Q) : 0 <= q → 0 <= round q.
Proof. intros Hq. rewrite round_nonneg by done. by apply roundTo_nonneg. Qed.

Lemma exponent_mono (x y : Q) :
  0 < x → x <= y → (exponent x <= exponent y)%Z.
Proof.
  intros Hx Hxy.
  destruct (exponent_spec x) as [Hx1 _]; [lra|].
  destruct (exponent_spec y) as [_ Hy2]; [lra|].
  rewrite Qabs_pos in Hx1, Hy2 by lra.
  assert (2 ^ exponent x < 2 ^ (exponent y + 1)) as Hlt by lra.
  apply Qpower_lt_compat_l_inv in Hlt; [lia|done].
Qed.

Lemma round_mono_pos (x y : Q) : 0 < x → x <= y → round x <= round y.
Proof.
  intros Hx Hxy. rewrite !round_nonneg by lra. unfold scale.
  pose proof (exponent_mono x y Hx Hxy) as Hexp.
  destruct (exponent_spec x) as [_ Hx2]; [lra|].
  destruct (exponent_spec y) as [Hy1 _]; [lra|].
  rewrite Qabs_pos in Hx2, Hy1 by lra.
  set (ex := exponent x) in *. set (ey := exponent y) in *.
  destruct (Z.eq_dec (Z.max (ex - 52) (-1074)) (Z.max (ey - 52) (-1074)))
    as [->|Hne]; [by apply roundTo_mono|].
  assert (ex < ey)%Z as Hlt by lia.
  assert (Z.max (ey - 52) (-1074) = ey - 52)%Z as Hsy by lia.
  set (sx := Z.max (ex - 52) (-1074)) in *. rewrite Hsy.
  assert (x <= 2 ^ ey) as Hxg.
  { apply Qlt_le_weak. eapply Qlt_le_trans; [exact Hx2|].
    apply pow2_le. lia. }
  apply Qle_trans with (2 ^ ey).
  - assert (2 ^ ey == inject_Z (2 ^ (ey - sx)) * 2 ^ sx) as Hg.
    { rewrite <- pow2_inject, <- pow2_add by lia. by replace (ey - sx + sx)%Z with ey by lia. }
    rewrite Hg. rewrite <- roundTo_fix. apply roundTo_mono. by rewrite <- Hg.
  - assert (2 ^ ey == inject_Z (2 ^ 52) * 2 ^ (ey - 52)) as Hg.
    { rewrite <- pow2_inject, <- pow2_add by lia. by replace (52 + (ey - 52))%Z with ey by lia. }
    rewrite Hg. rewrite <- roundTo_fix. apply roundTo_mono. by rewrite <- Hg.
Qed.

Lemma round_mono (x y : Q) : x <= y → round x <= round y.
Proof.
  intros Hxy. destruct (Qlt_le_dec x 0) as [Hx|Hx].
  - rewrite (round_neg x Hx). pose proof (round_sign (Qabs x) (Qabs_nonneg x)).
    destruct (Qlt_le_dec y 0) as [Hy|Hy].
    + rewrite (round_neg y Hy). apply Qopp_le_compat.
      apply round_mono_pos.
      * rewrite Qabs_neg by lra. lra.
      * rewrite !Qabs_neg by lra. lra.
    + pose proof (round_sign y Hy). lra.
  - destruct (Qeq_dec x 0) as [Hzero|Hpos].
    + rewrite (round_zero x Hzero). apply round_sign. lra.
    + apply round_mono_pos; [|done].
      destruct (Qlt_le_dec 0 x); [done|]. exfalso. apply Hpos. lra.
Qed.

Lemma round_comp (x y : Q) : x == y → round x == round y.
Proof.
  intros Hxy. apply Qle_antisym; apply round_mono; lra.
Qed.

Lemma roundTo_exact (s K : Z) (q : Q) :
  q == inject_Z K * 2 ^ s → roundTo s q == q.
Proof.
  intros Hq. rewrite Hq at 2. rewrite <- roundTo_fix.
  apply Qle_antisym; apply roundTo_mono; lra.
Qed.

(** An integer of at most 53 bits is a double. *)
Lemma round_Z_pos (z : Z) :
  (0 < z <= 2 ^ 53)%Z → round (inject_Z z) == inject_Z z.
Proof.
  intros [Hpos Hmax]. pose proof Hpos as Hone.
  rewrite Zlt_Qlt in Hpos. rewrite Zle_Qle in Hmax.
  change (inject_Z 0) with 0 in Hpos.
  rewrite <- pow2_inject in Hmax by done.
  rewrite round_nonneg by lra. unfold scale.
  destruct (exponent_spec (inject_Z z)) as [He1 He2]; [lra|].
  rewrite Qabs_pos in He1, He2 by lra.
  set (e := exponent (inject_Z z)) in *.
  assert (0 <= e <= 53)%Z as He.
  { split.
    - assert (2 ^ 0 < 2 ^ (e + 1)) as Hlt.
      { change (2 ^ 0) with 1. eapply Qle_lt_trans; [|exact He2].
        change 1 with (inject_Z 1). rewrite <- Zle_Qle. lia. }
      apply (Qpower_lt_compat_l_inv 2 0 (e + 1)) in Hlt; [lia|done].
    - assert (2 ^ e <= 2 ^ 53) as Hle by lra.
      by apply (Qpower_le_compat_l_inv 2 e 53) in Hle. }
  replace (Z.max (e - 52) (-1074)) with (e - 52)%Z by lia.
  destruct (Z.eq_dec e 53%Z) as [->|Hne].
  - apply (roundTo_exact _ (2 ^ 52)%Z). change (53 - 52)%Z with 1%Z.
    assert (inject_Z z == 2 ^ 53) as -> by lra. reflexivity.
  - apply (roundTo_exact _ (z * 2 ^ (52 - e))%Z).
    rewrite inject_Z_mult, <- pow2_inject by lia.
    rewrite <- Qmult_assoc, <- pow2_add.
    replace (52 - e + (e - 52))%Z with 0%Z by lia.
    change (2 ^ 0) with 1. lra.
Qed.

Lemma round_Z (z : Z) :
  (Z.abs z <= 2 ^ 53)%Z → round (inject_Z z) == inject_Z z.
Proof.
  intros Hz. destruct (Z.lt_trichotomy z 0) as [Hneg|[->|Hpos]].
  - rewrite round_neg by (by rewrite (Zlt_Qlt z 0) in Hneg).
    change (Qabs (inject_Z z)) with (inject_Z (Z.abs z)).
    rewrite round_Z_pos by lia. rewrite <- inject_Z_opp.
    by replace (- Z.abs z)%Z with z by lia.
  - by apply round_zero.
  - apply round_Z_pos. lia.
Qed.

(** What is not an integer need not survive: 7000 satoshis are 0.00007 BTC,
    and [0.00007 * 100000000] is [6999.999999999999]. *)
Example round_trip_7000 :
  Qfloor (round (round (inject_Z 7000 / 100000000) * 100000000)) = 6999%Z
  ∧ Qfloor (round (round (inject_Z 100000 / 100000000) * 100000000))
    = 100000%Z.
Proof. by vm_compute. Qed.

End DoubleFacts.



(** ** More on the lock registry *)

Section RegistryMore.

Import UTXOLockService.

Implicit Types (l : Locks) (x y id : string) (u : LockedUTXO).

Lemma isLocked_state t id l :
  (isLocked t id l).1.2 = l
  ∨ (isLocked t id l).1.2 = filter (λ u, utxoId u ≠ id) l.
Proof.
  unfold isLocked. destruct (findLock id l); [|by left].
  case_bool_decide; [|by left].
  destruct (unlockUTXO id l) as [st out] eqn:Hun. simpl. right.
  by rewrite <- (unlockUTXO_state id l), Hun.
Qed.

Lemma getLockedUTXOs_state t l :
  getLockedUTXOs t l
  = ((clearExpiredLocks t l).1, (clearExpiredLocks t l).1,
     (clearExpiredLocks t l).2).
Proof. unfold getLockedUTXOs. by destruct (clearExpiredLocks t l). Qed.

Lemma sweep_filter t l :
  (clearExpiredLocks t l).1 = filter (λ u, t < expiresAt u) l.
Proof.
  rewrite clearExpiredLocks_state. apply list_filter_iff. intros u. lia.
Qed.

Lemma findLock_filter_other x y l :
  x ≠ y → findLock y (filter (λ u, utxoId u ≠ x) l) = findLock y l.
Proof.
  intros Hxy. unfold findLock. induction l as [|u l IH]; [done|].
  rewrite filter_cons. simpl. case_decide as Hu.
  - simpl. by rewrite IH.
  - rewrite IH. rewrite bool_decide_eq_false_2; [done|]. intros Hy.
    apply Hxy. by rewrite <- Hu, Hy.
Qed.

Lemma findLock_app_other x y l u :
  utxoId u ≠ y → findLock y (l ++ [u]) = findLock y l.
Proof.
  intros Hu. unfold findLock. induction l as [|u' l IH]; simpl.
  - by rewrite bool_decide_eq_false_2.
  - by destruct (bool_decide (utxoId u' = y)).
Qed.

Lemma isLocked_answer t id l :
  (isLocked t id l).1.1
  = match findLock id l with
    | Some lock => bool_decide (t < expiresAt lock)
    | None => false
    end.
Proof.
  unfold isLocked. destruct (findLock id l) as [lock|]; [|done].
  case_bool_decide.
  - destruct (unlockUTXO id l). simpl. by rewrite bool_decide_eq_false_2 by lia.
  - simpl. by rewrite bool_decide_eq_true_2 by lia.
Qed.

(** X1. Locking an id, unlocking it, or evicting its expired lock never
    changes what [isLocked] answers for another id, nor the records held
    for another id. *)
Theorem locks_independent (t t' : Z) (x y : string) (ty : LockType) (l : Locks) :
  x ≠ y →
  (isLocked t y (lockUTXO t' x ty l).1).1.1 = (isLocked t y l).1.1
  ∧ (isLocked t y (unlockUTXO x l).1).1.1 = (isLocked t y l).1.1
  ∧ (isLocked t y (isLocked t' x l).1.2).1.1 = (isLocked t y l).1.1
  ∧ records y (lockUTXO t' x ty l).1 = records y l
  ∧ records y (unlockUTXO x l).1 = records y l
  ∧ records y (isLocked t' x l).1.2 = records y l.
Proof.
  intros Hxy. rewrite !isLocked_answer.
  split; [|split; [|split; [|split; [|split]]]].
  - unfold lockUTXO. destruct (findLock x l); [done|]. simpl.
    by rewrite findLock_app_other.
  - by rewrite unlockUTXO_state, findLock_filter_other.
  - destruct (isLocked_state t' x l) as [->| ->]; [done|].
    by rewrite findLock_filter_other.
  - unfold lockUTXO. destruct (findLock x l); [done|]. simpl.
    unfold records. rewrite filter_app, filter_cons_False, filter_nil by done.
    by rewrite app_nil_r.
  - by apply unlockUTXO_other.
  - destruct (isLocked_state t' x l) as [->| ->]; [done|].
    rewrite <- (unlockUTXO_state x l). by apply unlockUTXO_other.
Qed.

Lemma locks_independent_witness :
  "a:0" ≠ "b:1"
  ∧ (isLocked 10 "b:1"
       (lockUTXO 5 "a:0" creating_vault
          (lockUTXO 2 "b:1" creating_savings []).1).1).1.1 = true
  ∧ (isLocked 10 "b:1"
       (unlockUTXO "a:0" (lockUTXO 2 "b:1" creating_savings []).1).1).1.1 = true
  ∧ (isLocked 900005 "a:0"
       (lockUTXO 5 "a:0" creating_vault
          (lockUTXO 900004 "b:1" creating_savings []).1).1).1.1 = false
  ∧ records "b:1"
      (isLocked 900005 "a:0"
         (lockUTXO 5 "a:0" creating_vault
            (lockUTXO 900004 "b:1" creating_savings []).1).1).1.2
    = [ {| utxoId := "b:1"; lockedAt := 900004;
           lockType := creating_savings; expiresAt := 1800004 |} ]
  ∧ records "a:0"
      (isLocked 900005 "a:0"
         (lockUTXO 5 "a:0" creating_vault
            (lockUTXO 900004 "b:1" creating_savings []).1).1).1.2
    = [].
Proof.
  split; [done|].
  destruct (locks_independent 10 5 "a:0" "b:1" creating_vault
              (lockUTXO 2 "b:1" creating_savings []).1) as (H1 & H2 & _);
    [done|].
  split; [rewrite H1; reflexivity|]. split; [rewrite H2; reflexivity|].
  destruct (locks_independent 10 900005 "a:0" "b:1" creating_vault
              (lockUTXO 5 "a:0" creating_vault
                 (lockUTXO 900004 "b:1" creating_savings []).1).1)
    as (_ & _ & _ & _ & _ & H6); [done|].
  split; [reflexivity|]. split; [rewrite H6|]; reflexivity.
Defined.

Lemma findLock_is_Some id l :
  is_Some (findLock id l) ↔ ∃ u, u ∈ l ∧ utxoId u = id.
Proof.
  split.
  - intros [u Hu]. exists u. by apply findLock_Some.
  - intros (u & Hin & Hid). destruct (findLock id l) eqn:Hfind; [by eexists|].
    apply findLock_None in Hfind. exfalso.
    assert (u ∈ records id l) as Hrec by (by apply list_elem_of_filter).
    rewrite Hfind in Hrec. by apply not_elem_of_nil in Hrec.
Qed.

(** X2. [getLockedUTXOs] returns the records that have not expired, in
    the order they were taken, and leaves exactly those stored; on what is
    stored [isLocked] answers [true] for the ids returned and for no
    other. *)
Theorem getLockedUTXOs_live (t : Z) (l : Locks) :
  (getLockedUTXOs t l).1.1 = filter (λ u, t < expiresAt u) l
  ∧ (getLockedUTXOs t l).1.2 = (getLockedUTXOs t l).1.1
  ∧ ∀ id, (isLocked t id (getLockedUTXOs t l).1.2).1.1 = true
          ↔ ∃ u, u ∈ (getLockedUTXOs t l).1.1 ∧ utxoId u = id.
Proof.
  rewrite getLockedUTXOs_state. simpl.
  split; [apply sweep_filter|]. split; [done|]. intros id.
  rewrite isLocked_swept by apply clearExpiredLocks_live. simpl.
  rewrite bool_decide_eq_true. apply findLock_is_Some.
Qed.

Lemma timed_filter (P : LockedUTXO → Prop) `{∀ u, Decision (P u)} l :
  Forall timed l → Forall timed (filter P l).
Proof.
  rewrite !Forall_forall. intros Hl u Hu.
  apply list_elem_of_filter in Hu as [_ Hu]. by apply Hl.
Qed.

Lemma runRegistryOp_keeps op l :
  wf l ∧ Forall timed l → wf (runRegistryOp op l) ∧ Forall timed (runRegistryOp op l).
Proof.
  intros [Hwf Htimed]. destruct op as [t id ty|id|t id|t|t]; simpl.
  - split; [by apply wf_lockUTXO|]. unfold lockUTXO.
    destruct (findLock id l); [done|]. simpl.
    apply Forall_app. split; [done|]. by apply Forall_singleton.
  - split; [by apply wf_unlockUTXO|]. rewrite unlockUTXO_state.
    by apply timed_filter.
  - split; [by apply wf_isLocked|].
    destruct (isLocked_state t id l) as [->| ->]; [done | by apply timed_filter].
  - split; [by apply wf_clearExpiredLocks|]. rewrite clearExpiredLocks_state.
    by apply timed_filter.
  - rewrite getLockedUTXOs_state. simpl.
    split; [by apply wf_clearExpiredLocks|]. rewrite clearExpiredLocks_state.
    by apply timed_filter.
Qed.

(** X3. Whatever calls are made on a registry that starts empty, and at
    whatever times, it never holds two records for one id, and every
    record expires fifteen minutes after it was taken. *)
Theorem registry_invariants (ops : list RegistryOp) :
  wf (runRegistry ops [])
  ∧ Forall (λ u, expiresAt u = lockedAt u + 15 * 60 * 1000) (runRegistry ops []).
Proof.
  cut (∀ l, wf l ∧ Forall timed l →
            wf (runRegistry ops l) ∧ Forall timed (runRegistry ops l)).
  { intros Hkeep. apply Hkeep. split; [apply wf_nil | constructor]. }
  induction ops as [|op ops IH]; intros l Hl; [done|].
  apply (IH (runRegistryOp op l)), runRegistryOp_keeps, Hl.
Qed.

(** X4. Sweeping expired locks twice at one time is sweeping once, and the
    second sweep writes nothing; a sweep followed by a later sweep leaves
    what the later sweep alone leaves; and on a registry with one record
    per id a sweep does not change what [isLocked] answers at that time. *)
Theorem clearExpiredLocks_composes (t t' : Z) (l : Locks) :
  clearExpiredLocks t (clearExpiredLocks t l).1 = ((clearExpiredLocks t l).1, [])
  ∧ (t <= t' →
     (clearExpiredLocks t' (clearExpiredLocks t l).1).1
     = (clearExpiredLocks t' l).1)
  ∧ (wf l →
     ∀ id, (isLocked t id (clearExpiredLocks t l).1).1.1 = (isLocked t id l).1.1).
Proof.
  split; [|split].
  - assert (filter (λ lock, ¬ t >= expiresAt lock) (clearExpiredLocks t l).1
            = (clearExpiredLocks t l).1) as Hkeep.
    { rewrite clearExpiredLocks_state, list_filter_filter.
      apply list_filter_iff. intros u. lia. }
    assert (filter (λ lock, t >= expiresAt lock) (clearExpiredLocks t l).1 = [])
      as Hnone.
    { apply filter_none. intros u Hu. apply clearExpiredLocks_live in Hu. lia. }
    unfold clearExpiredLocks at 1. rewrite Hkeep, Hnone.
    case_decide; [lia | done].
  - intros Hle. rewrite !sweep_filter, list_filter_filter.
    apply list_filter_iff. intros u. lia.
  - intros Hwf id. rewrite !isLocked_answer, sweep_filter.
    destruct (findLock id l) as [u|] eqn:Hfind.
    + destruct (findLock_Some _ _ _ Hfind) as [Hin Hid].
      case_bool_decide as Hlive.
      * assert (findLock id (filter (λ u0, t < expiresAt u0) l) = Some u) as ->.
        { clear Hwf. unfold findLock in *. induction l as [|u' l IH]; [done|].
          simpl in Hfind. rewrite filter_cons. case_bool_decide as Hu'.
          - injection Hfind as ->. rewrite decide_True by done. simpl.
            by rewrite bool_decide_eq_true_2.
          - apply elem_of_cons in Hin as [->|Hin]; [done|].
            case_decide; simpl; [rewrite bool_decide_eq_false_2 by done|];
              by apply IH. }
        by rewrite bool_decide_eq_true_2.
      * destruct (findLock id (filter _ l)) as [u'|] eqn:Hfind'; [|done].
        destruct (findLock_Some _ _ _ Hfind') as [Hin' Hid'].
        apply list_elem_of_filter in Hin' as [Hlive' Hin'].
        assert (u' = u) as ->; [|done].
        pose proof (wf_records id l Hwf) as Hone.
        assert (u ∈ records id l) as Hu by (by apply list_elem_of_filter).
        assert (u' ∈ records id l) as Hu' by (by apply list_elem_of_filter).
        destruct (records id l) as [|r [|r' rest]]; simpl in Hone; [| |lia].
        -- by apply not_elem_of_nil in Hu.
        -- apply list_elem_of_singleton in Hu, Hu'. congruence.
    + apply findLock_None in Hfind.
      destruct (findLock id (filter _ l)) as [u'|] eqn:Hfind'; [|done].
      destruct (findLock_Some _ _ _ Hfind') as [Hin' Hid'].
      apply list_elem_of_filter in Hin' as [_ Hin'].
      assert (u' ∈ records id l) as Hu' by (by apply list_elem_of_filter).
      rewrite Hfind in Hu'. by apply not_elem_of_nil in Hu'.
Qed.

End RegistryMore.

Lemma clearExpiredLocks_composes_witness :
  let l := (UTXOLockService.lockUTXO 10 "b:1" UTXOLockService.creating_savings
              (UTXOLockService.lockUTXO 0 "a:0" UTXOLockService.creating_vault
                 []).1).1 in
  900005 <= 900011
  ∧ UTXOLockService.wf l
  ∧ (UTXOLockService.clearExpiredLocks 900011
       (UTXOLockService.clearExpiredLocks 900005 l).1).1
    = (UTXOLockService.clearExpiredLocks 900011 l).1
  ∧ (UTXOLockService.isLocked 900005 "a:0"
       (UTXOLockService.clearExpiredLocks 900005 l).1).1.1
    = (UTXOLockService.isLocked 900005 "a:0" l).1.1.
Proof.
  intros l.
  assert (UTXOLockService.wf l) as Hwf.
  { unfold UTXOLockService.wf. apply (bool_decide_unpack _). by vm_compute. }
  destruct (clearExpiredLocks_composes 900005 900011 l) as (_ & Hlater & Hsame).
  split; [lia|]. split; [exact Hwf|].
  split; [apply Hlater; lia | apply Hsame, Hwf].
Defined.


(** ** More on the spell assembler *)

Section AssemblerMore.

Import SpellBuilder.

Variable appVk : string.
Variable sha : string → string.



Lemma Qceiling_inject (z : Z) (q : Q) : (q == inject_Z z)%Q → Qceiling q = z.
Proof. intros ->. apply Qceiling_Z. Qed.

(** X6. With the rate omitted, [estimateFee] is 100 + 300 per input + 100
    per output (as long as that is an integer a double holds exactly); at a
    rate that is not negative it never decreases when inputs or outputs are
    added, whatever the rounding of the product. *)
Theorem estimateFee_monotone (numInputs numInputs' numOutputs numOutputs' : Z)
    (feeRate : Q) :
  (Z.abs (100 + 300 * numInputs + 100 * numOutputs) <= 2 ^ 53 →
   estimateFee numInputs numOutputs None
   = 100 + 300 * numInputs + 100 * numOutputs)
  ∧ ((0 <= feeRate)%Q → numInputs <= numInputs' → numOutputs <= numOutputs' →
     estimateFee numInputs numOutputs (Some feeRate)
     <= estimateFee numInputs' numOutputs' (Some feeRate)).
Proof.
  split.
  - intros Hrange. unfold estimateFee. simpl. apply Qceiling_inject.
    rewrite <- (round_Z _ Hrange). apply round_comp.
    unfold Qeq, Qmult, inject_Z. simpl. lia.
  - intros Hrate Hin Hout. unfold estimateFee. simpl.
    apply Qceiling_resp_le, round_mono, Qmult_le_compat_r; [|done].
    rewrite <- Zle_Qle. lia.
Qed.

Lemma sum_Permutation (l l' : list Z) :
  l ≡ₚ l' → foldr Z.add 0 l = foldr Z.add 0 l'.
Proof. induction 1; simpl; lia. Qed.

(** X7. Validation looks at the percentages only: two lists whose
    percentages are the same up to order are both accepted or both
    rejected, whatever their addresses. *)
Theorem validateBeneficiaries_order (bs bs' : list Beneficiary) :
  percentage <$> bs ≡ₚ percentage <$> bs' →
  validateBeneficiaries bs = validateBeneficiaries bs'.
Proof.
  intros Hperm. unfold validateBeneficiaries.
  by rewrite !totalPercentage_foldr, (sum_Permutation _ _ Hperm).
Qed.

End AssemblerMore.


Lemma estimateFee_monotone_witness :
  Z.abs (100 + 300 * 1 + 100 * 3) <= 2 ^ 53
  ∧ (0 <= Double.round (11 # 10))%Q ∧ 1 <= 2 ∧ 0 <= 3
  ∧ SpellBuilder.estimateFee 1 3 None = 700
  ∧ SpellBuilder.estimateFee 1 0 (Some (Double.round (11 # 10))) = 221
  ∧ SpellBuilder.estimateFee 1 0 (Some (Double.round (11 # 10)))
    <= SpellBuilder.estimateFee 2 3 (Some (Double.round (11 # 10))).
Proof.
  destruct (estimateFee_monotone 1 2 3 6 0) as [Hdefault _].
  destruct (estimateFee_monotone 1 2 0 3 (Double.round (11 # 10)))
    as [_ Hmono].
  assert (Z.abs (100 + 300 * 1 + 100 * 3) <= 2 ^ 53) as Hrange by (by vm_compute).
  assert (0 <= Double.round (11 # 10))%Q as Hrate by (by vm_compute).
  split; [exact Hrange|]. split; [exact Hrate|]. split; [lia|]. split; [lia|].
  split; [exact (Hdefault Hrange)|]. split; [by vm_compute|].
  apply Hmono; [exact Hrate | lia | lia].
Defined.

Lemma validateBeneficiaries_order_witness :
  percentage <$> [heir "h1" 60; heir "h2" 40]
  ≡ₚ percentage <$> [heir "h3" 40; heir "h4" 60]
  ∧ SpellBuilder.validateBeneficiaries [heir "h1" 60; heir "h2" 40]
    = SpellBuilder.validateBeneficiaries [heir "h3" 40; heir "h4" 60].
Proof.
  assert (percentage <$> [heir "h1" 60; heir "h2" 40]
          ≡ₚ percentage <$> [heir "h3" 40; heir "h4" 60]) as Hperm
    by apply perm_swap.
  split; [exact Hperm|]. by apply validateBeneficiaries_order.
Defined.

(** ** UTXO ids, written and read back *)

Section UtxoIds.

Import SpellBuilder.

Lemma digitOf_char (d : N) : (d < 10)%N → digitOf (pretty_N_char d) = Some (Z.of_N d).
Proof.
  intros Hd.
  assert (d = 0 ∨ d = 1 ∨ d = 2 ∨ d = 3 ∨ d = 4 ∨ d = 5 ∨ d = 6 ∨ d = 7
          ∨ d = 8 ∨ d = 9)%N as Hcases by lia.
  repeat (destruct Hcases as [->|Hcases]; [reflexivity|]). by subst.
Qed.

Lemma parseDigits_pretty_N_go (x : N) :
  (0 < x)%N →
  ∃ k : Z, 0 <= k ∧ ∀ acc s,
    parseDigits acc (pretty_N_go x s)
    = parseDigits (Some (default 0 acc * 10 ^ k + Z.of_N x)) s.
Proof.
  induction (N.lt_wf_0 x) as [x _ IH]. intros Hx.
  destruct (N.eq_0_gt_0_cases (x `div` 10)) as [Hq|Hq].
  - exists 1. split; [done|]. intros acc s.
    rewrite pretty_N_go_step, Hq, pretty_N_go_0 by done. simpl.
    rewrite digitOf_char by (apply N.mod_lt; lia).
    do 2 f_equal. rewrite (N.div_mod x 10) at 2 by done. lia.
  - destruct (IH (x `div` 10)%N) as (k & Hk & Hparse);
      [apply N.div_lt; lia | done |].
    exists (k + 1). split; [lia|]. intros acc s.
    rewrite pretty_N_go_step, Hparse by done. simpl.
    rewrite digitOf_char by (apply N.mod_lt; lia). simpl.
    do 2 f_equal. rewrite Z.pow_add_r by lia.
    rewrite (N.div_mod x 10) at 3 by done. lia.
Qed.

Lemma pretty_N_go_head (x : N) (s : string) :
  (0 < x)%N →
  ∃ d s', (d < 10)%N ∧ pretty_N_go x s = String (pretty_N_char d) s'.
Proof.
  revert s. induction (N.lt_wf_0 x) as [x _ IH]. intros s Hx.
  rewrite pretty_N_go_step by done.
  destruct (N.eq_0_gt_0_cases (x `div` 10)) as [Hq|Hq].
  - rewrite Hq, pretty_N_go_0. eexists _, _. split; [|done].
    apply N.mod_lt. lia.
  - apply IH; [apply N.div_lt; lia | done].
Qed.

Lemma index_colon_cons (c : ascii) (s : string) :
  c ≠ ":"%char →
  String.index 0 ":" (String c s)
  = match String.index 0 ":" s with Some n => Some (S n) | None => None end.
Proof.
  intros Hc.
  change (String.index 0 ":" (String c s))
    with (if (if Ascii.ascii_dec ":" c then String.prefix "" s else false)
          then Some 0%nat
          else match String.index 0 ":" s with
               | Some n => Some (S n)
               | None => None
               end).
  by destruct (Ascii.ascii_dec ":" c) as [<-|_].
Qed.

Lemma pretty_N_char_plain (d : N) :
  (d < 10)%N →
  pretty_N_char d ≠ ":"%char ∧ pretty_N_char d ≠ "-"%char
  ∧ pretty_N_char d ≠ "+"%char ∧ isWhiteSpace (pretty_N_char d) = false.
Proof.
  intros Hd.
  assert (d = 0 ∨ d = 1 ∨ d = 2 ∨ d = 3 ∨ d = 4 ∨ d = 5 ∨ d = 6 ∨ d = 7
          ∨ d = 8 ∨ d = 9)%N as Hcases by lia.
  repeat (destruct Hcases as [->|Hcases]; [by vm_compute|]). subst. by vm_compute.
Qed.

Lemma pretty_N_go_no_colon (x : N) (s : string) :
  String.index 0 ":" s = None → String.index 0 ":" (pretty_N_go x s) = None.
Proof.
  revert s. induction (N.lt_wf_0 x) as [x _ IH]. intros s Hs.
  destruct (N.eq_0_gt_0_cases x) as [->|Hx]; [by rewrite pretty_N_go_0|].
  rewrite pretty_N_go_step by done. apply IH; [apply N.div_lt; lia|].
  rewrite index_colon_cons, Hs; [done|].
  apply pretty_N_char_plain, N.mod_lt. lia.
Qed.

Lemma pretty_Z_no_colon (z : Z) : String.index 0 ":" (pretty z) = None.
Proof.
  destruct z as [|p|p]; [done|..].
  - apply (pretty_N_go_no_colon (N.pos p) ""). done.
  - change (pretty (Z.neg p)) with (String "-" (pretty_N_go (N.pos p) "")).
    rewrite index_colon_cons by done.
    by rewrite (pretty_N_go_no_colon (N.pos p) "").
Qed.

Lemma parseInt10_pretty (z : Z) : parseInt10 (Some (pretty z)) = Some z.
Proof.
  destruct z as [|p|p]; [done|..].
  - change (pretty (Z.pos p)) with (pretty_N_go (N.pos p) "").
    destruct (pretty_N_go_head (N.pos p) "") as (d & s' & Hd & Hhead); [done|].
    destruct (parseDigits_pretty_N_go (N.pos p)) as (k & _ & Hparse); [done|].
    destruct (pretty_N_char_plain d Hd) as (_ & Hminus & Hplus & Hws).
    unfold parseInt10. rewrite Hhead.
    change (trimStart (String (pretty_N_char d) s'))
      with (if isWhiteSpace (pretty_N_char d) then trimStart s'
            else String (pretty_N_char d) s').
    rewrite Hws. cbv beta iota. rewrite !bool_decide_eq_false_2 by done.
    rewrite <- Hhead, Hparse. simpl; f_equal; lia.
  - change (pretty (Z.neg p)) with (String "-" (pretty_N_go (N.pos p) "")).
    destruct (parseDigits_pretty_N_go (N.pos p)) as (k & _ & Hparse); [done|].
    unfold parseInt10. simpl. rewrite Hparse. simpl; f_equal; lia.
Qed.

Lemma index_colon_app (txid rest : string) :
  String.index 0 ":" txid = None →
  String.index 0 ":" (txid +:+ ":" +:+ rest) = Some (String.length txid).
Proof.
  induction txid as [|c txid IH]; [intros _; cbn; by destruct rest|].
  intros Hnone. change ((String c txid) +:+ ":" +:+ rest)
    with (String c (txid +:+ ":" +:+ rest)).
  destruct (decide (c = ":"%char)) as [->|Hc];
    [exfalso; revert Hnone; cbn; by destruct txid|].
  rewrite index_colon_cons in Hnone |- * by done.
  destruct (String.index 0 ":" txid); [done|]. by rewrite IH.
Qed.

Lemma substring_app_l (a b : string) :
  String.substring 0 (String.length a) (a +:+ b) = a.
Proof.
  induction a as [|c a IH]; simpl; [by destruct b|]. by rewrite IH.
Qed.

Lemma substring_all (s : string) : String.substring 0 (String.length s) s = s.
Proof. induction s as [|c s IH]; simpl; [done|]. by rewrite IH. Qed.

Lemma substring_app_r (a b : string) :
  String.substring (S (String.length a))
    (String.length (a +:+ ":" +:+ b) - S (String.length a)) (a +:+ ":" +:+ b) = b.
Proof.
  induction a as [|c a IH]; simpl.
  - rewrite Nat.sub_0_r. apply substring_all.
  - apply IH.
Qed.

Lemma splitUtxoId_format (txid : string) (vout : Z) :
  String.index 0 ":" txid = None →
  splitUtxoId (formatUtxoId txid vout) = (txid, Some (pretty vout)).
Proof.
  intros Hnone. unfold splitUtxoId, formatUtxoId.
  rewrite index_colon_app by done.
  rewrite substring_app_l, substring_app_r, pretty_Z_no_colon. done.
Qed.

(** X8. An id written by [formatUtxoId] from a transaction id that holds no
    colon is read back by [parseUtxoId] as the same transaction id and
    output index, and the orchestrator's own split of a vault id finds the
    same two parts; an id that holds no colon is read as its own
    transaction id with the output index [NaN]. *)
Theorem parseUtxoId_round_trip (txid : string) (vout : Z) :
  includes txid ":" = false →
  parseUtxoId (formatUtxoId txid vout) = (txid, Some vout)
  ∧ VaultService.splitVaultId (formatUtxoId txid vout) = (txid, pretty vout)
  ∧ parseUtxoId txid = (txid, None).
Proof.
  unfold includes. destruct (String.index 0 ":" txid) eqn:Hnone; [done|].
  intros _. split; [|split].
  - unfold parseUtxoId. rewrite splitUtxoId_format by done.
    by rewrite parseInt10_pretty.
  - unfold VaultService.splitVaultId, formatUtxoId.
    rewrite index_colon_app by done.
    rewrite substring_app_l, substring_app_r, pretty_Z_no_colon. done.
  - unfold parseUtxoId, splitUtxoId. by rewrite Hnone.
Qed.

End UtxoIds.

Lemma parseUtxoId_round_trip_witness :
  includes "f00d" ":" = false
  ∧ SpellBuilder.parseUtxoId (formatUtxoId "f00d" 12) = ("f00d", Some 12)
  ∧ VaultService.splitVaultId (formatUtxoId "f00d" 12) = ("f00d", "12")
  ∧ SpellBuilder.parseUtxoId "f00d" = ("f00d", None).
Proof.
  split; [reflexivity|]. apply (parseUtxoId_round_trip "f00d" 12). reflexivity.
Defined.


(** ** More on the transaction format converter *)

Section ConverterMore.

Import PsbtHelper.

Variable bitcoin : Bitcoinjs.

Lemma TxOutput_eta (o : TxOutput) :
  {| script := script o; out_value := out_value o |} = o.
Proof. by destruct o. Qed.

Lemma addInputs_appends (prevOut : TxOutput) (ins : list TxInput) (k : nat)
    (psbt psbt' : Psbt) :
  appends bitcoin →
  forEach
    (λ psbt '(i, input),
       let prevTxId := toHex (reverse (hash input)) in
       let prevVout := index input in
       if bool_decide (i = 0%nat)
       then Psbt_addInput bitcoin psbt
              (plainInput prevTxId prevVout
                 (Some {| script := script prevOut;
                          out_value := out_value prevOut |}))
       else Psbt_addInput bitcoin psbt (plainInput prevTxId prevVout None))
    (imap (λ i input, ((k + i)%nat, input)) ins) psbt = Ok psbt' →
  psbt' = {| psbt_network := psbt_network psbt;
             inputs := inputs psbt
                       ++ imap (λ i, convertedInput prevOut (k + i)) ins;
             outputs := outputs psbt |}.
Proof.
  intros [Hadd _]. revert k psbt.
  induction ins as [|input ins IH]; intros k psbt.
  - simpl. intros [= <-]. rewrite app_nil_r. by destruct psbt.
  - simpl. rewrite Nat.add_0_r.
    destruct (if bool_decide (k = 0%nat) then _ else _) as [psbt1|e] eqn:Hfirst;
      [|done].
    assert (psbt1 = {| psbt_network := psbt_network psbt;
                       inputs := inputs psbt ++ [convertedInput prevOut k input];
                       outputs := outputs psbt |}) as ->.
    { unfold convertedInput. rewrite TxOutput_eta in Hfirst.
      case_bool_decide; by apply Hadd in Hfirst. }
    intros Hrest.
    rewrite (imap_ext _ (λ i input, ((S k + i)%nat, input))) in Hrest
      by (intros; simpl; f_equal; lia).
    apply IH in Hrest as ->. simpl. rewrite <- app_assoc. simpl.
    do 2 f_equal. f_equal. apply imap_ext. intros i x _. simpl. f_equal. lia.
Qed.

Lemma addOutputs_appends (outs : list TxOutput) (psbt psbt' : Psbt) :
  appends bitcoin →
  forEach (λ psbt output,
             Psbt_addOutput bitcoin psbt
               {| script := script output; out_value := out_value output |})
          outs psbt = Ok psbt' →
  psbt' = {| psbt_network := psbt_network psbt;
             inputs := inputs psbt;
             outputs := outputs psbt ++ outs |}.
Proof.
  intros [_ Hadd]. revert psbt.
  induction outs as [|output outs IH]; intros psbt.
  - simpl. intros [= <-]. rewrite app_nil_r. by destruct psbt.
  - simpl. destruct (Psbt_addOutput _ _ _) as [psbt1|e] eqn:Hfirst; [|done].
    apply Hadd in Hfirst as ->. rewrite TxOutput_eta.
    intros Hrest. apply IH in Hrest as ->. simpl. by rewrite <- app_assoc.
Qed.

(** X9. When [convertRawTxToPsbt] returns, over a builder that appends, the
    PSBT it serialised holds one input per input of the transaction, in
    order, each spending the same outpoint; the first carries the previous
    output at [inputIndex] as its witness UTXO, the others carry none; the
    outputs are those of the transaction. *)
Theorem convertRawTxToPsbt_shape (unsignedTxHex prevTxHex : string)
    (inputIndex : Z) (network : Network) (psbtHex : string) :
  appends bitcoin →
  convertRawTxToPsbt bitcoin unsignedTxHex prevTxHex inputIndex network
  = Ok psbtHex →
  ∃ unsignedTx prevTx prevOut,
    Transaction_fromHex bitcoin unsignedTxHex = Ok unsignedTx
    ∧ Transaction_fromHex bitcoin prevTxHex = Ok prevTx
    ∧ at_index (tx_outs prevTx) inputIndex = Some prevOut
    ∧ psbtHex
      = Psbt_toHex bitcoin
          {| psbt_network := network;
             inputs := imap (convertedInput prevOut) (tx_ins unsignedTx);
             outputs := tx_outs unsignedTx |}.
Proof.
  intros Happ. unfold convertRawTxToPsbt.
  destruct (Transaction_fromHex bitcoin unsignedTxHex) as [unsignedTx|] eqn:Htx;
    [|done].
  destruct (Transaction_fromHex bitcoin prevTxHex) as [prevTx|] eqn:Hprev;
    [|done].
  simpl. destruct (at_index (tx_outs prevTx) inputIndex) as [prevOut|] eqn:Hout;
    [|done].
  destruct (forEach _ (imap _ _) _) as [psbt1|] eqn:Hins; [|done].
  simpl. destruct (forEach _ (tx_outs _) _) as [psbt2|] eqn:Houts; [|done].
  simpl. intros [= <-].
  apply (addInputs_appends prevOut _ 0%nat) in Hins as ->; [|done].
  apply addOutputs_appends in Houts as ->; [|done].
  by exists unsignedTx, prevTx, prevOut.
Qed.

Lemma forEach_ext {A S : Type} (body body' : S → A → Res S) (l : list A) (s : S) :
  (∀ s a, a ∈ l → body s a = body' s a) →
  forEach body l s = forEach body' l s.
Proof.
  revert s. induction l as [|a l IH]; intros s Hext; [done|].
  simpl. rewrite (Hext s a) by apply list_elem_of_here.
  destruct (body' s a); [|done]. apply IH. intros s' a' Hin.
  apply Hext. by apply list_elem_of_further.
Qed.

(** X10. [convertRawTxToPsbtMultiple] reads the hex of each listed previous
    transaction and never its [vout]; on a transaction with one input it
    returns the PSBT that [convertRawTxToPsbt] returns for the output the
    input spends, and throws whenever that one throws; with no previous
    transaction listed it fails at input 0. *)
Theorem convertRawTxToPsbtMultiple_reads (unsignedTxHex : string)
    (network : Network) (unsignedTx : Transaction) :
  Transaction_fromHex bitcoin unsignedTxHex = Ok unsignedTx →
  (∀ prevTxsData prevTxsData',
     txHex <$> prevTxsData = txHex <$> prevTxsData' →
     convertRawTxToPsbtMultiple bitcoin unsignedTxHex prevTxsData network
     = convertRawTxToPsbtMultiple bitcoin unsignedTxHex prevTxsData' network)
  ∧ (∀ input prevTxHex v,
       tx_ins unsignedTx = [input] →
       match convertRawTxToPsbt bitcoin unsignedTxHex prevTxHex (index input)
               network with
       | Ok psbtHex =>
           convertRawTxToPsbtMultiple bitcoin unsignedTxHex
             [{| txHex := prevTxHex; prev_vout := v |}] network = Ok psbtHex
       | Throw _ =>
           ∃ e, convertRawTxToPsbtMultiple bitcoin unsignedTxHex
                  [{| txHex := prevTxHex; prev_vout := v |}] network = Throw e
       end)
  ∧ (tx_ins unsignedTx ≠ [] →
     convertRawTxToPsbtMultiple bitcoin unsignedTxHex [] network
     = Throw (Error "Previous transaction data for input 0 not found")).
Proof.
  intros Htx. split; [|split].
  - intros data data' Hhex. unfold convertRawTxToPsbtMultiple. rewrite Htx.
    simpl. erewrite forEach_ext; [reflexivity|].
    intros psbt [i input] _. simpl.
    assert (txHex <$> data !! i = txHex <$> data' !! i) as Hi
      by (by rewrite <- !list_lookup_fmap, Hhex).
    destruct (data !! i) as [d|], (data' !! i) as [d'|]; try done.
    simpl in Hi. injection Hi as Hi. by rewrite Hi.
  - intros input prevTxHex v Hins.
    unfold convertRawTxToPsbtMultiple, convertRawTxToPsbt. rewrite Htx.
    simpl. rewrite Hins. simpl.
    destruct (Transaction_fromHex bitcoin prevTxHex) as [prevTx|];
      [|by eexists].
    simpl. destruct (at_index (tx_outs prevTx) (index input)); [|by eexists].
    destruct (Psbt_addInput _ _ _) as [psbt1|]; [|by eexists]. simpl.
    destruct (forEach _ _ psbt1) as [psbt2|]; [done | by eexists].
  - intros Hins. unfold convertRawTxToPsbtMultiple. rewrite Htx. simpl.
    by destruct (tx_ins unsignedTx).
Qed.

Lemma setInput_frame (psbt : Psbt) (i : nat) (input : PsbtInput) :
  psbt_network (setInput psbt i input) = psbt_network psbt
  ∧ outputs (setInput psbt i input) = outputs psbt
  ∧ length (inputs (setInput psbt i input)) = length (inputs psbt)
  ∧ ∀ j, j ≠ i → inputs (setInput psbt i input) !! j = inputs psbt !! j.
Proof.
  unfold setInput. simpl. split; [done|]. split; [done|].
  split; [apply length_insert|]. intros j Hj. by apply list_lookup_insert_ne.
Qed.

Lemma finalizeManually_frame (psbt psbt' : Psbt) (i : nat) :
  finalizeManually bitcoin psbt i = Ok psbt' →
  psbt_network psbt' = psbt_network psbt
  ∧ outputs psbt' = outputs psbt
  ∧ length (inputs psbt') = length (inputs psbt)
  ∧ (∀ j, j ≠ i → inputs psbt' !! j = inputs psbt !! j)
  ∧ ∀ input, inputs psbt !! i = Some input →
      ∃ result, inputs psbt' !! i = Some result
                ∧ finalizedBy bitcoin input i result.
Proof.
  unfold finalizeManually, finalizedBy.
  destruct (inputs psbt !! i) as [input|] eqn:Hlook; [|by intros [= <-]].
  assert (i < length (inputs psbt))%nat as Hlt by (by eapply lookup_lt_Some).
  destruct (alreadyFinalized input) eqn:Hdone.
  { intros [= <-]. repeat split; try done. intros ? [= <-]. exists input.
    by rewrite Hdone. }
  destruct (Psbt_finalizeInput bitcoin psbt i) as [finalized|] eqn:Hlib.
  { intros [= <-].
    destruct (setInput_frame psbt i finalized) as (? & ? & ? & ?).
    repeat split; try done. intros ? [= <-]. exists finalized. rewrite Hdone.
    split; [by apply list_lookup_insert_eq | left; by exists psbt]. }
  destruct (manualWitness input) as [w|] eqn:Hw; [|done].
  intros [= <-].
  destruct (setInput_frame psbt i (setFinalScriptWitness input w))
    as (? & ? & ? & ?).
  repeat split; try done. intros ? [= <-]. eexists. rewrite Hdone.
  split; [by apply list_lookup_insert_eq | right; by exists w].
Qed.

(** X11. When the manual finalization loop has gone through the first [n]
    inputs, the network, the outputs and the number of inputs are as
    before, the inputs from [n] on are untouched, and each input before
    [n] is the one found there if it was finalized already, and otherwise
    what the library's finalizer returned for it or the input itself with
    the witness assembled from its signature. *)
Theorem manual_finalization_frame (psbt final : Psbt) (n : nat) :
  forEach (finalizeManually bitcoin) (seq 0 n) psbt = Ok final →
  psbt_network final = psbt_network psbt
  ∧ outputs final = outputs psbt
  ∧ length (inputs final) = length (inputs psbt)
  ∧ (∀ j, (n <= j)%nat → inputs final !! j = inputs psbt !! j)
  ∧ ∀ j input, (j < n)%nat → inputs psbt !! j = Some input →
      ∃ result, inputs final !! j = Some result
                ∧ finalizedBy bitcoin input j result.
Proof.
  cut (∀ k psbt, forEach (finalizeManually bitcoin) (seq k n) psbt = Ok final →
         psbt_network final = psbt_network psbt
         ∧ outputs final = outputs psbt
         ∧ length (inputs final) = length (inputs psbt)
         ∧ (∀ j, (j < k ∨ k + n <= j)%nat →
                 inputs final !! j = inputs psbt !! j)
         ∧ ∀ j input, (k <= j < k + n)%nat → inputs psbt !! j = Some input →
             ∃ result, inputs final !! j = Some result
                       ∧ finalizedBy bitcoin input j result).
  { intros Hcut Hrun. destruct (Hcut 0%nat psbt Hrun) as (? & ? & ? & Hout & Hin).
    repeat split; try done.
    - intros j Hj. apply Hout. lia.
    - intros j input Hj. apply Hin. lia. }
  induction n as [|n IH]; clear psbt; intros k psbt; simpl.
  - intros [= <-]. repeat split; try done. lia.
  - destruct (finalizeManually bitcoin psbt k) as [psbt1|] eqn:Hone; [|done].
    intros Hrest. apply IH in Hrest as (Hnet & Houts & Hlen & Hother & Hmine).
    apply finalizeManually_frame in Hone
      as (Hnet1 & Houts1 & Hlen1 & Hother1 & Hmine1).
    split; [congruence|]. split; [congruence|]. split; [congruence|]. split.
    + intros j Hj. rewrite Hother, Hother1; [done| |]; lia.
    + intros j input Hj Hlook. destruct (decide (j = k)) as [->|Hne].
      * destruct (Hmine1 input Hlook) as (result & Hres & Hby).
        exists result. split; [|done]. rewrite Hother; [done|]. lia.
      * apply Hmine; [lia|]. rewrite Hother1; [done|]. lia.
Qed.

End ConverterMore.

Lemma convertRawTxToPsbt_shape_witness :
  appends recordingBitcoinjs
  ∧ PsbtHelper.convertRawTxToPsbt recordingBitcoinjs "c0" "0100" 0
      PsbtHelper.testnet = Ok "70736274ff11"
  ∧ ∃ unsignedTx prevTx prevOut,
      PsbtHelper.Transaction_fromHex recordingBitcoinjs "c0" = Ok unsignedTx
      ∧ PsbtHelper.Transaction_fromHex recordingBitcoinjs "0100" = Ok prevTx
      ∧ PsbtHelper.at_index (PsbtHelper.tx_outs prevTx) 0 = Some prevOut
      ∧ "70736274ff11"
        = PsbtHelper.Psbt_toHex recordingBitcoinjs
            {| PsbtHelper.psbt_network := PsbtHelper.testnet;
               PsbtHelper.inputs :=
                 imap (convertedInput prevOut) (PsbtHelper.tx_ins unsignedTx);
               PsbtHelper.outputs := PsbtHelper.tx_outs unsignedTx |}.
Proof.
  assert (appends recordingBitcoinjs) as Happ.
  { split; intros ? ? ? Hadd; injection Hadd as <-; reflexivity. }
  split; [exact Happ|]. split; [reflexivity|].
  apply (convertRawTxToPsbt_shape recordingBitcoinjs "c0" "0100" 0
           PsbtHelper.testnet "70736274ff11" Happ).
  reflexivity.
Defined.

Lemma convertRawTxToPsbtMultiple_reads_witness :
  (∃ unsignedTx,
     PsbtHelper.Transaction_fromHex recordingBitcoinjs "c0" = Ok unsignedTx)
  ∧ PsbtHelper.convertRawTxToPsbtMultiple recordingBitcoinjs "c0"
      [{| PsbtHelper.txHex := "0100"; PsbtHelper.prev_vout := 7 |}]
      PsbtHelper.testnet
    = PsbtHelper.convertRawTxToPsbtMultiple recordingBitcoinjs "c0"
        [{| PsbtHelper.txHex := "0100"; PsbtHelper.prev_vout := 0 |}]
        PsbtHelper.testnet
  ∧ PsbtHelper.convertRawTxToPsbtMultiple recordingBitcoinjs "c0" []
      PsbtHelper.testnet
    = Throw (Error "Previous transaction data for input 0 not found").
Proof.
  destruct (convertRawTxToPsbtMultiple_reads recordingBitcoinjs "c0"
              PsbtHelper.testnet
              {| PsbtHelper.tx_ins :=
                   [ {| PsbtHelper.hash := [171; 205]; PsbtHelper.index := 0 |} ];
                 PsbtHelper.tx_outs :=
                   [ {| PsbtHelper.script := [81; 32];
                        PsbtHelper.out_value := 5000 |} ] |} eq_refl)
    as (Hhex & _ & Hnone).
  split; [by eexists|]. split; [by apply Hhex | by apply Hnone].
Defined.

Lemma manual_finalization_frame_witness :
  ∃ final,
    forEach (PsbtHelper.finalizeManually strictBitcoinjs) (seq 0 2) examplePsbt
    = Ok final
    ∧ PsbtHelper.outputs final = PsbtHelper.outputs examplePsbt
    ∧ length (PsbtHelper.inputs final) = 2%nat
    ∧ PsbtHelper.finalScriptWitness <$> PsbtHelper.inputs final
      = [Some [1; 2; 171; 205]; Some [2; 3; 48; 1; 2; 2; 2; 3]].
Proof.
  eexists. split; [reflexivity|].
  destruct (manual_finalization_frame strictBitcoinjs examplePsbt _ 2 eq_refl)
    as (_ & Houts & Hlen & _).
  split; [exact Houts|]. split; [exact Hlen | reflexivity].
Defined.


(** ** The proof service client *)

(** X12. The estimated proof time is always between one and ten minutes,
    never decreases with the number of cycles, is one minute up to six
    million cycles and ten minutes from sixty million on. *)
Theorem estimateProofTime_clamped (cycles cycles' : Q) :
  (60000 <= ProverClient.estimateProofTime cycles <= 600000)%Q
  ∧ ((cycles <= cycles')%Q →
     (ProverClient.estimateProofTime cycles
      <= ProverClient.estimateProofTime cycles')%Q)
  ∧ ((cycles <= 6000000)%Q →
     (ProverClient.estimateProofTime cycles == 60000)%Q)
  ∧ ((60000000 <= cycles)%Q →
     (ProverClient.estimateProofTime cycles == 600000)%Q).
Proof.
  unfold ProverClient.estimateProofTime.
  assert (∀ c, (c <= 6000000)%Q → (Double.round (c / 100) <= 60000)%Q)
    as Hlow.
  { intros c Hc. rewrite <- (round_Z 60000) by (by vm_compute).
    apply round_mono, Qle_shift_div_r; [done|].
    eapply Qle_trans; [exact Hc|]. by vm_compute. }
  assert (∀ c, (60000000 <= c)%Q → (600000 <= Double.round (c / 100))%Q)
    as Hhigh.
  { intros c Hc. rewrite <- (round_Z 600000) by (by vm_compute).
    apply round_mono, Qle_shift_div_l; [done|].
    eapply Qle_trans; [|exact Hc]. by vm_compute. }
  split; [split|split; [|split]].
  - apply Q.le_max_l.
  - apply Q.max_lub; [done | apply Q.le_min_l].
  - intros Hle. apply Q.max_le_compat_l, Q.min_le_compat_l, round_mono.
    apply Qmult_le_compat_r; [done|]. done.
  - intros Hc. apply Q.max_l.
    eapply Qle_trans; [apply Q.le_min_r | by apply Hlow].
  - intros Hc. rewrite Q.min_l by (by apply Hhigh). by apply Q.max_r.
Qed.

Lemma estimateProofTime_clamped_witness :
  (1000000 <= 100000000)%Q
  ∧ (ProverClient.estimateProofTime 1000000
     <= ProverClient.estimateProofTime 100000000)%Q
  ∧ (ProverClient.estimateProofTime 1000000 == 60000)%Q
  ∧ (ProverClient.estimateProofTime 100000000 == 600000)%Q.
Proof.
  destruct (estimateProofTime_clamped 1000000 100000000) as (_ & Hmono & Hlow & _).
  destruct (estimateProofTime_clamped 100000000 100000000) as (_ & _ & _ & Hhigh).
  split; [done|]. split; [by apply Hmono|].
  split; [by apply Hlow | by apply Hhigh].
Defined.


(** ** Vault records, thrown errors and the failure memory *)

Section Records.

Import VaultService.

Variable env : Env.

(** X13. An id that neither the cache nor the storage knows makes
    [getVault], [checkin], [distribute] and (with valid percentages)
    [updateBeneficiaries] throw [VAULT_NOT_FOUND] and leave the world as it
    was: no collaborator is called. *)
Theorem unknown_vault_rejected (vaultId : string) (w : World)
    (newBeneficiaries : list Beneficiary) :
  vaultsCache w !! vaultId = None →
  vaultStorage w !! vaultId = None →
  getVault vaultId w = (Throw (vaultNotFound vaultId), w)
  ∧ checkin env vaultId w = (Throw (vaultNotFound vaultId), w)
  ∧ distribute env vaultId w = (Throw (vaultNotFound vaultId), w)
  ∧ (SpellBuilder.validateBeneficiaries newBeneficiaries = true →
     updateBeneficiaries env vaultId newBeneficiaries w
     = (Throw (vaultNotFound vaultId), w))
  ∧ code_of (vaultNotFound vaultId) = Some "VAULT_NOT_FOUND".
Proof.
  intros Hcache Hstore.
  assert (getVault vaultId w = (Throw (vaultNotFound vaultId), w)) as Hget.
  { unfold getVault, loadVaultFromStorage. run. by rewrite Hcache, Hstore. }
  split; [done|]. split; [|split; [|split; [|done]]].
  - unfold checkin. by rewrite run_try_catch, run_bind, Hget.
  - unfold distribute. by rewrite run_try_catch, run_bind, Hget.
  - intros Hvalid. unfold updateBeneficiaries. rewrite Hvalid. simpl.
    by rewrite run_try_catch, run_bind, Hget.
Qed.

(** X14. A record saved to storage is what [getVault] returns for its id
    while the cache holds nothing under that id; while the cache holds a
    record, [getVault] returns the cached one and changes nothing; and a
    second [getVault] returns what the first returned and changes
    nothing. *)
Theorem saved_vault_read_back (vault : Vault) (vaultId : string) (w : World) :
  let w1 := (saveVaultToStorage vault w).2 in
  (vaultsCache w !! id vault = None →
   (getVault (id vault) w1).1 = Ok vault)
  ∧ (∀ cached, vaultsCache w !! vaultId = Some cached →
       getVault vaultId w1 = (Ok cached, w1))
  ∧ (∀ found, (getVault vaultId w).1 = Ok found →
       getVault vaultId (getVault vaultId w).2
       = (Ok found, (getVault vaultId w).2)).
Proof.
  intros w1. split; [|split].
  - intros Hcache. unfold getVault, loadVaultFromStorage. run. subst w1.
    unfold saveVaultToStorage. run. simpl. rewrite Hcache. simpl.
    by rewrite lookup_insert_eq.
  - intros cached Hcache. by apply getVault_cached.
  - intros found Hget.
    destruct (getVault_run vaultId w found Hget) as (wc & Hrun & _ & Hcache).
    rewrite Hrun. simpl. by apply getVault_cached.
Qed.

Lemma rewrap_throws {A} prefix code (e : exn) (w : World) :
  ∃ e', rewrap (A:=A) prefix code e w = (Throw e', w)
        ∧ instanceof_CharmVaultError e' = true
        ∧ (instanceof_CharmVaultError e = true → e' = e)
        ∧ (instanceof_CharmVaultError e = false →
           e' = CharmVaultError (prefix +:+ message_of e) code (Some e)).
Proof.
  unfold rewrap. destruct (instanceof_CharmVaultError e) eqn:He; run;
    eexists; (split; [reflexivity|]); by repeat split.
Qed.

Lemma classifyCreateError_throws {A} fundingUTXO (e : exn) (w : World) :
  ∃ e' w', classifyCreateError (A:=A) env fundingUTXO e w = (Throw e', w')
           ∧ instanceof_CharmVaultError e' = true.
Proof.
  unfold classifyCreateError.
  assert (∃ e' w',
            (if instanceof_CharmVaultError e then throw e
             else throw (CharmVaultError
                           ("Failed to create vault: " +:+ message_of e)
                           "CREATE_VAULT_ERROR" (Some e)) : M A) w
            = (Throw e', w') ∧ instanceof_CharmVaultError e' = true) as Hwrap.
  { destruct (instanceof_CharmVaultError e) eqn:He; run; by eexists _, _. }
  destruct fundingUTXO as [utxo|]; [|done].
  destruct (includes _ _); [|done].
  unfold markUTXOFailed. run. by eexists _, _.
Qed.

Lemma try_catch_rewrap {A} (body : M A) prefix code (w : World) (e : exn) :
  (try_catch body (rewrap prefix code) w).1 = Throw e →
  instanceof_CharmVaultError e = true.
Proof.
  rewrite run_try_catch. destruct (body w) as [[a|e0] w']; [done|].
  destruct (rewrap_throws (A:=A) prefix code e0 w') as (e' & -> & He' & _).
  by intros [= <-].
Qed.

(** X15. Whatever [createVault], [checkin], [updateBeneficiaries] or
    [distribute] throws is a [CharmVaultError]: it carries a code. *)
Theorem operations_throw_CharmVaultError (w : World) (vaultId : string)
    (amount delay : Z) (bs : list Beneficiary) (e : exn) :
  (createVault env amount bs delay w).1 = Throw e
  ∨ (checkin env vaultId w).1 = Throw e
  ∨ (updateBeneficiaries env vaultId bs w).1 = Throw e
  ∨ (distribute env vaultId w).1 = Throw e →
  ∃ message code details, e = CharmVaultError message code details.
Proof.
  intros Hop. cut (instanceof_CharmVaultError e = true).
  { destruct e; [done | by eauto]. }
  destruct Hop as [Hthrow|[Hthrow|[Hthrow|Hthrow]]];
    [|by eapply try_catch_rewrap..].
  revert Hthrow. unfold createVault. rewrite run_bind, run_try_catch.
  destruct (createVaultPrepare env bs w) as [[[walletState wallet]|e0] w1].
  2:{ destruct (classifyCreateError_throws (A:=WalletState * WalletKind)
                  None e0 w1) as (e' & w' & -> & He').
      by intros [= <-]. }
  rewrite run_bind.
  destruct (selectFundingUTXO_run env (utxos walletState) amount w1)
    as (lines & -> & _).
  rewrite run_try_catch.
  destruct (createVaultFunded _ _ _ _ _ _ _ _) as [[a|e0] w2]; [done|].
  destruct (classifyCreateError_throws (A:=string) (head (sortByValue
              (filter (eligible (Date_now env (awaited (trace w1))) amount w1)
                 (utxos walletState)))) e0 w2) as (e' & w' & -> & He').
  by intros [= <-].
Qed.

Lemma markUTXOFailed_run (utxo : UTXO) (reason : string) (w : World) :
  let utxoId := formatUtxoId (txid utxo) (vout utxo) in
  let attempt := default 0 (count <$> failedUTXOs w !! utxoId) + 1 in
  markUTXOFailed env utxo reason w
  = (Ok tt,
     set_trace (trace w ++ [Console (WarnMarkedFailed utxoId attempt)])
       (set_failedUTXOs
          (<[utxoId := {| count := attempt;
                          lastFailed := Date_now env (awaited (trace w)) |}]>
             (failedUTXOs w)) w)).
Proof. unfold markUTXOFailed. by run. Qed.

(** X16. [markUTXOFailed] counts one more failure for the UTXO and stamps it
    with the clock; while that entry stands, the selector returns no UTXO
    of that id within five minutes of the stamp, and from five minutes on
    the UTXO counts again: if it is a candidate, large enough and not
    locked, the selector returns a UTXO that is not larger. *)
Theorem failed_utxo_cools_down (utxo : UTXO) (reason : string) (w w2 : World)
    (candidates : list UTXO) (requiredAmount : Z) :
  let utxoId := formatUtxoId (txid utxo) (vout utxo) in
  let w1 := (markUTXOFailed env utxo reason w).2 in
  let t0 := Date_now env (awaited (trace w)) in
  let t := Date_now env (awaited (trace w2)) in
  failedUTXOs w1 !! utxoId
  = Some {| count := default 0 (count <$> failedUTXOs w !! utxoId) + 1;
            lastFailed := t0 |}
  ∧ (failedUTXOs w2 !! utxoId = failedUTXOs w1 !! utxoId →
     (t - t0 < 5 * 60 * 1000 →
      ∀ u, (selectFundingUTXO env candidates requiredAmount w2).1 = Ok (Some u) →
           formatUtxoId (txid u) (vout u) ≠ utxoId)
     ∧ (5 * 60 * 1000 <= t - t0 →
        utxo ∈ candidates → requiredAmount <= value utxo →
        ¬ liveLock t utxoId (lockedUTXOs w2) →
        ∃ u, (selectFundingUTXO env candidates requiredAmount w2).1 = Ok (Some u)
             ∧ value u <= value utxo)).
Proof.
  intros utxoId w1 t0 t.
  assert (failedUTXOs w1 !! utxoId
          = Some {| count := default 0 (count <$> failedUTXOs w !! utxoId) + 1;
                    lastFailed := t0 |}) as Hmarked.
  { subst w1. rewrite markUTXOFailed_run. simpl. apply lookup_insert_eq. }
  split; [done|]. rewrite Hmarked. intros Hkept.
  destruct (selectFundingUTXO_run env candidates requiredAmount w2)
    as (lines & -> & _). fold t. simpl. split.
  - intros Hsoon u [= Hhead] Hid.
    apply head_sortByValue_Some in Hhead as (l1 & l2 & Hsplit & _).
    assert (u ∈ filter (eligible t requiredAmount w2) candidates) as Hin.
    { rewrite Hsplit. apply elem_of_app. right. apply list_elem_of_here. }
    apply list_elem_of_filter in Hin as [(_ & _ & Hcool) _].
    apply Hcool. unfold coolingDown. rewrite Hid. fold utxoId.
    by rewrite Hkept.
  - intros Hlate Hin Hamount Hfree.
    assert (eligible t requiredAmount w2 utxo) as Helig.
    { split; [done|]. split; [done|]. unfold coolingDown. fold utxoId.
      rewrite Hkept. simpl. lia. }
    assert (utxo ∈ filter (eligible t requiredAmount w2) candidates) as Hin'
      by (by apply list_elem_of_filter).
    destruct (head (sortByValue _)) as [u|] eqn:Hhead.
    + exists u. split; [done|].
      apply head_sortByValue_Some in Hhead as (l1 & l2 & Hsplit & Hl1 & Hl2).
      rewrite Hsplit in Hin'.
      apply elem_of_app in Hin' as [Hin'|Hin']; [apply Hl1 in Hin'; lia|].
      apply elem_of_cons in Hin' as [->|Hin']; [lia | by apply Hl2].
    + apply head_sortByValue_None in Hhead. rewrite Hhead in Hin'.
      by apply not_elem_of_nil in Hin'.
Qed.

End Records.

Lemma unknown_vault_rejected_witness :
  vaultsCache emptyWorld !! "f00d:0" = None
  ∧ vaultStorage emptyWorld !! "f00d:0" = None
  ∧ VaultService.checkin (exampleEnv 1000 800000 [] psbtSigner openNode)
      "f00d:0" emptyWorld
    = (Throw (VaultService.vaultNotFound "f00d:0"), emptyWorld)
  ∧ VaultService.distribute (exampleEnv 1000 800000 [] psbtSigner openNode)
      "f00d:0" emptyWorld
    = (Throw (VaultService.vaultNotFound "f00d:0"), emptyWorld).
Proof.
  destruct (unknown_vault_rejected
              (exampleEnv 1000 800000 [] psbtSigner openNode) "f00d:0"
              emptyWorld [] eq_refl eq_refl) as (_ & Hcheckin & Hdistribute & _).
  split; [reflexivity|]. split; [reflexivity|]. by split.
Defined.

Lemma saved_vault_read_back_witness :
  vaultsCache emptyWorld !! id (exampleVault 100 50 150) = None
  ∧ (VaultService.getVault "f00d:0"
       (VaultService.saveVaultToStorage (exampleVault 100 50 150)
          emptyWorld).2).1
    = Ok (exampleVault 100 50 150).
Proof.
  split; [reflexivity|].
  apply (saved_vault_read_back (exampleVault 100 50 150) "f00d:0" emptyWorld).
  reflexivity.
Defined.

Lemma operations_throw_CharmVaultError_witness :
  (VaultService.createVault (exampleEnv 1000 800000 [utxoA] psbtSigner openNode)
     4000 [heir "h1" 60; heir "h2" 60] 144 emptyWorld).1
  = Throw VaultService.validationError
  ∧ ∃ message code details,
      VaultService.validationError = CharmVaultError message code details.
Proof.
  split; [reflexivity|].
  apply (operations_throw_CharmVaultError
           (exampleEnv 1000 800000 [utxoA] psbtSigner openNode) emptyWorld
           "f00d:0" 4000 144 [heir "h1" 60; heir "h2" 60]).
  left. reflexivity.
Defined.

Lemma failed_utxo_cools_down_witness :
  let env := tickingEnv [utxoA; utxoB] in
  let w1 := (VaultService.markUTXOFailed env utxoA "duplicate funding UTXO"
               (worldAfter 1)).2 in
  let later := set_trace (trace w1 ++ [GetFeeEstimates; GetFeeEstimates]) w1 in
  failedUTXOs w1 !! "A:0" = Some {| count := 1; lastFailed := 240000 |}
  ∧ (VaultService.selectFundingUTXO env [utxoA; utxoB] 4000 w1).1
    = Ok (Some utxoB)
  ∧ formatUtxoId (txid utxoB) (vout utxoB) ≠ "A:0"
  ∧ ∃ u, (VaultService.selectFundingUTXO env [utxoA; utxoB] 4000 later).1
         = Ok (Some u)
         ∧ value u <= value utxoA.
Proof.
  intros env w1 later.
  destruct (failed_utxo_cools_down env utxoA "duplicate funding UTXO"
              (worldAfter 1) w1 [utxoA; utxoB] 4000) as (Hmarked & Hsoon).
  destruct (Hsoon eq_refl) as (Hskip & _).
  destruct (failed_utxo_cools_down env utxoA "duplicate funding UTXO"
              (worldAfter 1) later [utxoA; utxoB] 4000) as (_ & Hlate).
  destruct (Hlate eq_refl) as (_ & Hback).
  split; [exact Hmarked|]. split; [reflexivity|].
  split; [apply (Hskip ltac:(by vm_compute) utxoB); reflexivity|].
  apply Hback.
  - by vm_compute.
  - apply list_elem_of_here.
  - by vm_compute.
  - intros Hlive. apply Exists_exists in Hlive as (u & Hu & _).
    by apply elem_of_nil in Hu.
Defined.


(** ** Frame rules for the rest of the orchestrator *)

Section OperationSteps.

Import VaultService.

Context {ok : Event → Prop} {R : World → World → Prop}.
Context `{!Reflexive R, !Transitive R, !TraceFrame R}.
Variable env : Env.
Hypothesis R_cache : ∀ w c, R w (set_vaultsCache c w).

Lemma steps_getVault vaultId : steps ok R (getVault vaultId) (λ _, True).
Proof.
  unfold getVault, loadVaultFromStorage.
  eapply steps_bind; [by apply (steps_gets _ (λ _, True))|].
  intros [cached|] _; [by apply steps_ret|].
  eapply steps_bind; [by apply (steps_gets _ (λ _, True))|].
  intros [stored|] _; [|apply steps_throw].
  eapply steps_bind; [by apply steps_modify | intros; by apply steps_ret].
Qed.

Lemma steps_assign_cache vaultId vault :
  steps ok R (assign vaultId vault) (λ _, True).
Proof. unfold assign. by apply steps_modify. Qed.

Lemma steps_rewrap_any {A} prefix code e (Q : A → Prop) :
  steps ok R (rewrap prefix code e) Q.
Proof. unfold rewrap. destruct (instanceof_CharmVaultError e); apply steps_throw. Qed.

Hypothesis R_storage : ∀ w s, R w (set_vaultStorage s w).

Lemma steps_save vault :
  ok (SaveVault vault) → steps ok R (saveVaultToStorage vault) (λ _, True).
Proof.
  intros Hok. unfold saveVaultToStorage.
  eapply steps_bind; [by apply steps_modify|]. intros _ _. by apply steps_emit.
Qed.

End OperationSteps.

Section FundingSteps.

Import UTXOLockService VaultService.

Context {ok : Event → Prop} {R : World → World → Prop}.
Context `{!Reflexive R, !Transitive R, !TraceFrame R}.
Variable env : Env.
Hypothesis ok_console : ∀ line, ok (Console line).
Hypothesis R_locks : ∀ w l, R w (set_lockedUTXOs l w).
Hypothesis R_failed : ∀ w f, R w (set_failedUTXOs f w).

Ltac step := eapply steps_bind; [ | intros ? ? ].

Lemma steps_lines (lines : list console) : steps ok R (log lines) (λ _, True).
Proof. apply steps_log, Forall_true. intros line. apply ok_console. Qed.

Lemma steps_lock id ty :
  steps ok R (utxoLockService_lockUTXO env id ty) (λ _, True).
Proof.
  unfold utxoLockService_lockUTXO. step; [apply steps_now|].
  step; [by apply (steps_gets _ (λ _, True))|].
  destruct (lockUTXO _ _ _ _). step; [by apply steps_modify|].
  apply steps_lines.
Qed.

Lemma steps_unlock id : steps ok R (utxoLockService_unlockUTXO id) (λ _, True).
Proof.
  unfold utxoLockService_unlockUTXO.
  step; [by apply (steps_gets _ (λ _, True))|].
  destruct (unlockUTXO _ _). step; [by apply steps_modify|].
  apply steps_lines.
Qed.

Lemma steps_select candidates requiredAmount :
  steps ok R (selectFundingUTXO env candidates requiredAmount)
    (λ r, ∀ u, r = Some u → u ∈ candidates ∧ requiredAmount <= value u).
Proof.
  intros w.
  destruct (selectFundingUTXO_run env candidates requiredAmount w)
    as (lines & Hrun & _).
  rewrite Hrun. simpl. split; [|split].
  - exists (Console <$> lines). split; [done|].
    apply Forall_fmap, Forall_true. intros line. apply ok_console.
  - etrans; [apply R_locks | apply trace_frame].
  - intros r [= <-] u Hhead.
    apply head_sortByValue_Some in Hhead as (l1 & l2 & Hsplit & _).
    assert (u ∈ filter (eligible (Date_now env (awaited (trace w)))
                          requiredAmount w) candidates) as Hin.
    { rewrite Hsplit. apply elem_of_app. right. apply list_elem_of_here. }
    apply list_elem_of_filter in Hin as [(Hamount & _) Hin]. done.
Qed.

Lemma steps_unlockDate currentBlock delayBlocks :
  steps ok R (calculateUnlockDate env currentBlock delayBlocks)
    (λ d, ∃ h, d = Date_now env h + delayBlocks * 10 * 60 * 1000).
Proof.
  unfold calculateUnlockDate, now, toISOString. intros w. run. simpl.
  split; [exists []; by rewrite app_nil_r|]. split; [done|].
  case_bool_decide; [|done]. intros a [= <-]. by eexists.
Qed.

Lemma steps_mark utxo reason :
  steps ok R (markUTXOFailed env utxo reason) (λ _, True).
Proof.
  unfold markUTXOFailed. step; [by apply (steps_gets _ (λ _, True))|].
  step; [apply steps_now|].
  step; [by apply steps_modify|].
  apply steps_lines.
Qed.

Lemma steps_classify_any {A} fundingUTXO e (Q : A → Prop) :
  steps ok R (classifyCreateError env fundingUTXO e) Q.
Proof.
  unfold classifyCreateError.
  assert (steps ok R
            (if instanceof_CharmVaultError e then throw e
             else throw (CharmVaultError
                           ("Failed to create vault: " +:+ message_of e)
                           "CREATE_VAULT_ERROR" (Some e))) Q) as Hwrap.
  { destruct (instanceof_CharmVaultError e); apply steps_throw. }
  destruct fundingUTXO as [utxo|]; [|done].
  destruct (includes _ _); [|done].
  step; [apply steps_mark | apply steps_throw].
Qed.

Lemma steps_prepare bs :
  steps ok R (try_catch (createVaultPrepare env bs) (classifyCreateError env None))
    (λ _, True).
Proof.
  apply (steps_try_catch _ _ (λ _, True)); [|intros e; apply steps_classify_any].
  unfold createVaultPrepare. destruct (negb _); [apply steps_throw|].
  step; [apply steps_getActiveWallet|].
  match goal with |- steps _ _ (match ?x with _ => _ end) _ =>
    destruct x; [by apply steps_ret | apply steps_throw] end.
Qed.

End FundingSteps.

(** ** Operations on an existing vault and the funding state *)

Section Untouched.

Import VaultService.

Variable env : Env.

Abbreviation ok := silent.
Abbreviation R := same_funding.

Ltac step := eapply steps_bind; [ | intros ? ? ].
Ltac by_silent := intros ? Hev; discriminate Hev.

Lemma steps_signBoth_silent wallet proverResponse :
  steps ok R (signBothAndBroadcast env wallet proverResponse) (λ _, True).
Proof. apply steps_signBothAndBroadcast; intros; by_silent. Qed.

Lemma checkin_untouched vaultId : steps ok R (checkin env vaultId) (λ _, True).
Proof.
  unfold checkin. apply steps_try_catch; [|intros e; apply steps_rewrap_any].
  step; [by apply steps_getVault|].
  destruct (negb _); [apply steps_throw|].
  step; [apply steps_getActiveWallet|].
  match goal with |- steps _ _ (match ?x with _ => _ end) _ =>
    destruct x as [[walletState wallet]|]; [|apply steps_throw] end.
  step; [apply steps_getCurrentBlockHeight; by_silent|].
  step; [apply steps_getFeeEstimates; by_silent|].
  step; [apply steps_lift_eq|].
  step; [apply steps_getRawTransaction; by_silent|].
  step; [apply steps_buildProverRequest; by_silent|].
  step; [apply steps_proveSpell; by_silent|].
  step; [apply steps_signBoth_silent|].
  step; [by apply steps_assign_cache|].
  step; [apply steps_calculateUnlockDate|].
  step; [by apply steps_assign_cache|].
  step; [apply steps_save; [done..|by_silent]|].
  by apply steps_ret.
Qed.

End Untouched.

(** ** An operation that throws writes nothing *)

Section Unsaved.

Import UTXOLockService VaultService.

Variable env : Env.
Variable w0 : World.

Abbreviation quiet := (λ ev : Event, ¬ persists ev).

Ltac by_quiet := intros [? Hev]; discriminate Hev.

Lemma stable_unsaved : stable quiet same_storage (unsaved w0).
Proof.
  intros w w' evs (Hstore & evs0 & Htr & Hquiet) Htr' Hevs Hsame. split.
  - by rewrite Hsame.
  - exists (evs0 ++ evs). rewrite Htr', Htr, app_assoc. split; [done|].
    by apply Forall_app.
Qed.

Lemma unsaved_start : unsaved w0 w0.
Proof. split; [done|]. exists []. by rewrite app_nil_r. Qed.

Ltac step_unsaved :=
  eapply (hoare_step quiet same_storage (unsaved w0));
    [ | apply stable_unsaved | by intros ? ? | intros ? ? ].

Lemma rewrap_unsaved prefix code e :
  hoare (unsaved w0) (rewrap prefix code e) (λ (_ : string) _, True)
    (λ _, unsaved w0).
Proof.
  unfold rewrap. destruct (instanceof_CharmVaultError e); by apply hoare_throw.
Qed.

Lemma signBoth_quiet wallet proverResponse :
  steps quiet same_storage (signBothAndBroadcast env wallet proverResponse)
    (λ _, True).
Proof. apply steps_signBothAndBroadcast; intros; by_quiet. Qed.

Lemma checkin_unsaved vaultId :
  hoare (unsaved w0) (checkin env vaultId) (λ _ _, True) (λ _, unsaved w0).
Proof.
  unfold checkin. eapply hoare_try_catch; [|intros e; apply rewrap_unsaved].
  step_unsaved; [by apply steps_getVault|].
  destruct (negb _); [by apply hoare_throw|].
  step_unsaved; [apply steps_getActiveWallet|].
  match goal with |- hoare _ (match ?x with _ => _ end) _ _ =>
    destruct x as [[walletState wallet]|]; [|by apply hoare_throw] end.
  step_unsaved; [apply steps_getCurrentBlockHeight; by_quiet|].
  step_unsaved; [apply steps_getFeeEstimates; by_quiet|].
  step_unsaved; [apply steps_lift_eq|].
  step_unsaved; [apply steps_getRawTransaction; by_quiet|].
  step_unsaved; [apply steps_buildProverRequest; by_quiet|].
  step_unsaved; [apply steps_proveSpell; by_quiet|].
  step_unsaved; [apply signBoth_quiet|].
  step_unsaved; [by apply steps_assign_cache|].
  step_unsaved; [apply steps_calculateUnlockDate|].
  intros w _. unfold assign, saveVaultToStorage. by run.
Qed.

Lemma updateBeneficiaries_unsaved vaultId newBeneficiaries :
  hoare (unsaved w0) (updateBeneficiaries env vaultId newBeneficiaries)
    (λ _ _, True) (λ _, unsaved w0).
Proof.
  unfold updateBeneficiaries.
  eapply hoare_try_catch; [|intros e; apply rewrap_unsaved].
  destruct (negb _); [by apply hoare_throw|].
  step_unsaved; [by apply steps_getVault|].
  destruct (negb _); [by apply hoare_throw|].
  step_unsaved; [apply steps_getActiveWallet|].
  match goal with |- hoare _ (match ?x with _ => _ end) _ _ =>
    destruct x as [[walletState wallet]|]; [|by apply hoare_throw] end.
  step_unsaved; [apply steps_getCurrentBlockHeight; by_quiet|].
  step_unsaved; [apply steps_getFeeEstimates; by_quiet|].
  step_unsaved; [apply steps_lift_eq|].
  step_unsaved; [apply steps_getRawTransaction; by_quiet|].
  step_unsaved; [apply steps_buildProverRequest; by_quiet|].
  step_unsaved; [apply steps_proveSpell; by_quiet|].
  step_unsaved; [apply signBoth_quiet|].
  step_unsaved; [by apply steps_assign_cache|].
  step_unsaved; [by apply steps_assign_cache|].
  step_unsaved; [apply steps_calculateUnlockDate|].
  intros w _. unfold assign, saveVaultToStorage. by run.
Qed.

Lemma distribute_unsaved vaultId :
  hoare (unsaved w0) (distribute env vaultId) (λ _ _, True) (λ _, unsaved w0).
Proof.
  unfold distribute. eapply hoare_try_catch; [|intros e; apply rewrap_unsaved].
  step_unsaved; [by apply steps_getVault|].
  step_unsaved; [apply steps_getCurrentBlockHeight; by_quiet|].
  case_bool_decide; [by apply hoare_throw|].
  step_unsaved; [apply steps_getFeeEstimates; by_quiet|].
  step_unsaved; [apply steps_lift_eq|].
  step_unsaved; [apply steps_getRawTransaction; by_quiet|].
  step_unsaved.
  { match goal with |- steps _ _ (match ?x with _ => _ end) _ =>
      destruct x; [apply steps_throw | by apply (steps_ret _ (λ _, True))] end. }
  step_unsaved; [apply steps_buildProverRequest; by_quiet|].
  step_unsaved; [apply steps_proveSpell; by_quiet|].
  step_unsaved; [apply steps_getActiveWallet|].
  match goal with |- hoare _ (match ?x with _ => _ end) _ _ =>
    destruct x as [[walletState wallet]|]; [|by apply hoare_throw] end.
  step_unsaved; [apply signBoth_quiet|].
  intros w _. unfold assign, saveVaultToStorage. by run.
Qed.

Lemma createVaultLocked_unsaved amount bs delay walletState wallet fundingUTXO id :
  hoare (unsaved w0)
    (createVaultLocked env amount bs delay walletState wallet fundingUTXO id)
    (λ _ _, True) (λ _, unsaved w0).
Proof.
  unfold createVaultLocked.
  step_unsaved; [apply steps_getCurrentBlockHeight; by_quiet|].
  step_unsaved; [apply steps_getFeeEstimates; by_quiet|].
  step_unsaved; [apply steps_lift_eq|].
  step_unsaved; [apply steps_getRawTransaction; by_quiet|].
  step_unsaved; [apply steps_buildProverRequest; by_quiet|].
  step_unsaved; [apply steps_proveSpell; by_quiet|].
  match goal with |- hoare _ (let '(_, _) := ?r in _) _ _ =>
    destruct r as [commitTx spellTx] end.
  step_unsaved; [apply steps_lift_eq|].
  step_unsaved; [apply steps_lift_eq|].
  step_unsaved.
  { apply (steps_try_catch _ _ (λ _, True));
      [apply steps_broadcastPackage; by_quiet|].
    intros _. apply steps_signAndBroadcast; intros; by_quiet. }
  step_unsaved; [apply steps_unlock; [intros; by_quiet | done]|].
  step_unsaved; [apply steps_calculateUnlockDate|].
  step_unsaved; [apply steps_now|].
  step_unsaved; [apply steps_now|].
  intros w _. unfold saveVaultToStorage. by run.
Qed.

Lemma createVault_unsaved amount bs delay :
  hoare (unsaved w0) (createVault env amount bs delay)
    (λ _ _, True) (λ _, unsaved w0).
Proof.
  unfold createVault.
  step_unsaved; [apply steps_prepare; [intros; by_quiet | done]|].
  match goal with |- hoare _ (let '(_, _) := ?r in _) _ _ =>
    destruct r as [walletState wallet] end.
  step_unsaved; [apply steps_select; [intros; by_quiet | done]|].
  eapply hoare_try_catch with (E' := λ _, unsaved w0).
  2:{ intros e.
      eapply hoare_conseq;
        [apply (steps_hoare (ok:=quiet) (R:=same_storage) _ (λ _, True));
           [apply steps_classify_any; [intros; by_quiet | done]
           | apply stable_unsaved]
        | done | done | done]. }
  unfold createVaultFunded.
  match goal with |- hoare _ (match ?x with _ => _ end) _ _ =>
    destruct x as [fundingUTXO|]; [|by apply hoare_throw] end.
  case_bool_decide; [by apply hoare_throw|].
  step_unsaved; [apply steps_lock; [intros; by_quiet | done]|].
  eapply hoare_try_catch; [apply createVaultLocked_unsaved|].
  intros e.
  step_unsaved; [apply steps_unlock; [intros; by_quiet | done]|].
  by apply hoare_throw.
Qed.

End Unsaved.

(** X17. An operation that throws has written no vault record: the storage
    is as it was and no write is among its events. *)
Theorem failed_operation_writes_nothing (env : Env) (w : World)
    (vaultId : string) (amount delay : Z) (bs : list Beneficiary) (e : exn) :
  ((VaultService.createVault env amount bs delay w).1 = Throw e →
   unsaved w (VaultService.createVault env amount bs delay w).2)
  ∧ ((VaultService.checkin env vaultId w).1 = Throw e →
     unsaved w (VaultService.checkin env vaultId w).2)
  ∧ ((VaultService.updateBeneficiaries env vaultId bs w).1 = Throw e →
     unsaved w (VaultService.updateBeneficiaries env vaultId bs w).2)
  ∧ ((VaultService.distribute env vaultId w).1 = Throw e →
     unsaved w (VaultService.distribute env vaultId w).2).
Proof.
  pose proof (createVault_unsaved env w amount bs delay w (unsaved_start w)) as H1.
  pose proof (checkin_unsaved env w vaultId w (unsaved_start w)) as H2.
  pose proof (updateBeneficiaries_unsaved env w vaultId bs w (unsaved_start w))
    as H3.
  pose proof (distribute_unsaved env w vaultId w (unsaved_start w)) as H4.
  destruct (VaultService.createVault _ _ _ _ _) as [[?|?] ?],
    (VaultService.checkin _ _ _) as [[?|?] ?],
    (VaultService.updateBeneficiaries _ _ _ _) as [[?|?] ?],
    (VaultService.distribute _ _ _) as [[?|?] ?];
    simpl in *; (split; [|split; [|split]]); intros; done.
Qed.

Lemma failed_operation_writes_nothing_witness :
  let run := VaultService.createVault
               (exampleEnv 1000 800000 [utxoA; utxoB] psbtSigner closedNode)
               4000 [heir "h1" 60; heir "h2" 40] 144 emptyWorld in
  code_of match run.1 with Ok _ => Error "" | Throw e => e end
  = Some "CREATE_VAULT_ERROR"
  ∧ broadcasts (trace run.2) = [("c0", "5e"); ("0200", "5e")]
  ∧ unsaved emptyWorld run.2.
Proof.
  intros run. split; [reflexivity|]. split; [reflexivity|].
  destruct (failed_operation_writes_nothing
              (exampleEnv 1000 800000 [utxoA; utxoB] psbtSigner closedNode)
              emptyWorld "f00d:0" 4000 144 [heir "h1" 60; heir "h2" 40]
              match run.1 with Ok _ => Error "" | Throw e => e end)
    as (Hcreate & _).
  apply Hcreate. reflexivity.
Defined.

Section UntouchedMore.

Import VaultService.

Variable env : Env.

Ltac step := eapply steps_bind; [ | intros ? ? ].
Ltac by_silent := intros ? Hev; discriminate Hev.

Lemma updateBeneficiaries_untouched vaultId newBeneficiaries :
  steps silent same_funding (updateBeneficiaries env vaultId newBeneficiaries)
    (λ _, True).
Proof.
  unfold updateBeneficiaries.
  apply steps_try_catch; [|intros e; apply steps_rewrap_any].
  destruct (negb _); [apply steps_throw|].
  step; [by apply steps_getVault|].
  destruct (negb _); [apply steps_throw|].
  step; [apply steps_getActiveWallet|].
  match goal with |- steps _ _ (match ?x with _ => _ end) _ =>
    destruct x as [[walletState wallet]|]; [|apply steps_throw] end.
  step; [apply steps_getCurrentBlockHeight; by_silent|].
  step; [apply steps_getFeeEstimates; by_silent|].
  step; [apply steps_lift_eq|].
  step; [apply steps_getRawTransaction; by_silent|].
  step; [apply steps_buildProverRequest; by_silent|].
  step; [apply steps_proveSpell; by_silent|].
  step; [apply steps_signBoth_silent|].
  step; [by apply steps_assign_cache|].
  step; [by apply steps_assign_cache|].
  step; [apply steps_calculateUnlockDate|].
  step; [by apply steps_assign_cache|].
  step; [apply steps_save; [done..|by_silent]|].
  by apply steps_ret.
Qed.

Lemma distribute_untouched vaultId :
  steps silent same_funding (distribute env vaultId) (λ _, True).
Proof.
  unfold distribute. apply steps_try_catch; [|intros e; apply steps_rewrap_any].
  step; [by apply steps_getVault|].
  step; [apply steps_getCurrentBlockHeight; by_silent|].
  case_bool_decide; [apply steps_throw|].
  step; [apply steps_getFeeEstimates; by_silent|].
  step; [apply steps_lift_eq|].
  step; [apply steps_getRawTransaction; by_silent|].
  step.
  { match goal with |- steps _ _ (match ?x with _ => _ end) _ =>
      destruct x; [apply steps_throw | by apply (steps_ret _ (λ _, True))] end. }
  step; [apply steps_buildProverRequest; by_silent|].
  step; [apply steps_proveSpell; by_silent|].
  step; [apply steps_getActiveWallet|].
  match goal with |- steps _ _ (match ?x with _ => _ end) _ =>
    destruct x as [[walletState wallet]|]; [|apply steps_throw] end.
  step; [apply steps_signBoth_silent|].
  step; [by apply steps_assign_cache|].
  step; [apply steps_save; [done..|by_silent]|].
  by apply steps_ret.
Qed.

Lemma silent_consoleLines (evs : History) :
  Forall silent evs → consoleLines evs = [].
Proof.
  unfold consoleLines. induction 1 as [|ev evs Hev _ IH]; [done|].
  destruct ev; simpl; try exact IH. by destruct (Hev line).
Qed.

End UntouchedMore.

(** X18. A check-in, a beneficiary update and a distribution leave the lock
    registry and the failure memory as they were and write no console
    line of the registries, whatever their outcome. *)
Theorem existing_vault_operations_leave_funding (env : Env) (vaultId : string)
    (op : VaultOp) (w : World) :
  lockedUTXOs (runOp env vaultId op w).2 = lockedUTXOs w
  ∧ failedUTXOs (runOp env vaultId op w).2 = failedUTXOs w
  ∧ ∃ evs, trace (runOp env vaultId op w).2 = trace w ++ evs
           ∧ consoleLines evs = [].
Proof.
  assert (steps silent same_funding (runOp env vaultId op) (λ _, True)) as Hsteps.
  { destruct op; simpl;
      [apply checkin_untouched | apply updateBeneficiaries_untouched
      | apply distribute_untouched]. }
  destruct (Hsteps w) as ((evs & Htr & Hsilent) & [Hlocks Hfailed] & _).
  split; [done|]. split; [done|]. exists evs. split; [done|].
  by apply silent_consoleLines.
Qed.

(** ** The record after an operation that returns *)

Section RecordUpdates.

Import VaultService.

Variable env : Env.
Variable vaultId : string.

Ltac step_any :=
  eapply (hoare_step (λ _, True) any_world (λ _, True));
    [ | by intros ? | by intros ? | intros ? ? ].

Lemma rewrap_any prefix code e (Q : string → World → Prop) :
  hoare (λ _, True) (rewrap prefix code e) Q (λ _ _, True).
Proof.
  unfold rewrap. destruct (instanceof_CharmVaultError e); by apply hoare_throw.
Qed.

Lemma checkin_records w v checkinTxid :
  (getVault vaultId w).1 = Ok v →
  (checkin env vaultId w).1 = Ok checkinTxid →
  checkedIn env vaultId v (checkin env vaultId w).2.
Proof.
  intros Hget. destruct (getVault_run vaultId w v Hget) as (wc & Hrun & _ & _).
  unfold checkin. rewrite (run_after _ _ _ _ _ _ Hrun).
  match goal with |- context [try_catch ?body ?h wc] =>
    assert (hoare (λ _, True) (try_catch body h) (λ _, checkedIn env vaultId v)
              (λ _ _, True)) as Htriple end.
  { eapply hoare_try_catch with (E' := λ _ _, True);
      [|intros e; apply rewrap_any].
    destruct (negb _); [by apply hoare_throw|].
    step_any; [apply (steps_getActiveWallet env)|].
    match goal with |- hoare _ (match ?x with _ => _ end) _ _ =>
      destruct x as [[walletState wallet]|]; [|by apply hoare_throw] end.
    step_any; [by apply (steps_getCurrentBlockHeight env)|].
    step_any; [by apply (steps_getFeeEstimates env)|].
    step_any; [apply steps_lift_eq|].
    step_any; [by apply (steps_getRawTransaction env)|].
    step_any; [by apply (steps_buildProverRequest env)|].
    step_any; [by apply (steps_proveSpell env)|].
    step_any; [by apply (steps_signBothAndBroadcast env)|].
    step_any; [by apply steps_modify|].
    step_any; [apply (steps_unlockDate env)|].
    intros w' _. unfold assign, saveVaultToStorage. run. simpl.
    cbv beta in *.
    repeat match goal with Hh : ex _ |- _ => destruct Hh as [? Hh] end.
    subst. eexists _, _, _. split; [eassumption|]. simpl.
    split; apply lookup_insert_eq. }
  specialize (Htriple wc I).
  destruct (try_catch _ _ wc) as [[a|e] w']; simpl; [|done]. by intros _.
Qed.

Lemma updateBeneficiaries_records w v newBeneficiaries newTxid :
  (getVault vaultId w).1 = Ok v →
  (updateBeneficiaries env vaultId newBeneficiaries w).1 = Ok newTxid →
  updated env vaultId newBeneficiaries v
    (updateBeneficiaries env vaultId newBeneficiaries w).2.
Proof.
  intros Hget. destruct (getVault_run vaultId w v Hget) as (wc & Hrun & _ & _).
  unfold updateBeneficiaries.
  destruct (negb (SpellBuilder.validateBeneficiaries newBeneficiaries));
    [by run|].
  rewrite (run_after _ _ _ _ _ _ Hrun).
  match goal with |- context [try_catch ?body ?h wc] =>
    assert (hoare (λ _, True) (try_catch body h)
              (λ _, updated env vaultId newBeneficiaries v) (λ _ _, True)) as Htriple end.
  { eapply hoare_try_catch with (E' := λ _ _, True);
      [|intros e; apply rewrap_any].
    destruct (negb _); [by apply hoare_throw|].
    step_any; [apply (steps_getActiveWallet env)|].
    match goal with |- hoare _ (match ?x with _ => _ end) _ _ =>
      destruct x as [[walletState wallet]|]; [|by apply hoare_throw] end.
    step_any; [by apply (steps_getCurrentBlockHeight env)|].
    step_any; [by apply (steps_getFeeEstimates env)|].
    step_any; [apply steps_lift_eq|].
    step_any; [by apply (steps_getRawTransaction env)|].
    step_any; [by apply (steps_buildProverRequest env)|].
    step_any; [by apply (steps_proveSpell env)|].
    step_any; [by apply (steps_signBothAndBroadcast env)|].
    step_any; [by apply steps_modify|].
    step_any; [by apply steps_modify|].
    step_any; [apply (steps_unlockDate env)|].
    intros w' _. unfold assign, saveVaultToStorage. run. simpl.
    cbv beta in *.
    repeat match goal with Hh : ex _ |- _ => destruct Hh as [? Hh] end.
    subst. eexists _, _, _. split; [eassumption|]. simpl.
    split; apply lookup_insert_eq. }
  specialize (Htriple wc I).
  destruct (try_catch _ _ wc) as [[a|e] w']; simpl; [|done]. by intros _.
Qed.

Lemma distribute_records w v distributeTxid :
  (getVault vaultId w).1 = Ok v →
  (distribute env vaultId w).1 = Ok distributeTxid →
  vaultsCache (distribute env vaultId w).2 !! vaultId
  = Some (with_status Distributed v)
  ∧ vaultStorage (distribute env vaultId w).2 !! id v
    = Some (with_status Distributed v).
Proof.
  intros Hget. destruct (getVault_run vaultId w v Hget) as (wc & Hrun & _ & _).
  unfold distribute. rewrite (run_after _ _ _ _ _ _ Hrun).
  match goal with |- context [try_catch ?body ?h wc] =>
    assert (hoare (λ _, True) (try_catch body h)
              (λ _ w', vaultsCache w' !! vaultId
                       = Some (with_status Distributed v)
                       ∧ vaultStorage w' !! id v
                         = Some (with_status Distributed v))
              (λ _ _, True)) as Htriple end.
  { eapply hoare_try_catch with (E' := λ _ _, True);
      [|intros e; apply rewrap_any].
    step_any; [by apply (steps_getCurrentBlockHeight env)|].
    case_bool_decide; [by apply hoare_throw|].
    step_any; [by apply (steps_getFeeEstimates env)|].
    step_any; [apply steps_lift_eq|].
    step_any; [by apply (steps_getRawTransaction env)|].
    step_any.
    { match goal with |- steps _ _ (match ?x with _ => _ end) _ =>
        destruct x; [apply steps_throw | by apply (steps_ret _ (λ _, True))] end. }
    step_any; [by apply (steps_buildProverRequest env)|].
    step_any; [by apply (steps_proveSpell env)|].
    step_any; [apply (steps_getActiveWallet env)|].
    match goal with |- hoare _ (match ?x with _ => _ end) _ _ =>
      destruct x as [[walletState wallet]|]; [|by apply hoare_throw] end.
    step_any; [by apply (steps_signBothAndBroadcast env)|].
    intros w' _. unfold assign, saveVaultToStorage. run. simpl.
    split; apply lookup_insert_eq. }
  specialize (Htriple wc I).
  destruct (try_catch _ _ wc) as [[a|e] w']; simpl; [|done]. by intros _.
Qed.

Lemma inactive_rejected w v newBeneficiaries :
  vaultsCache w !! vaultId = Some v → vault_status v ≠ Active →
  checkin env vaultId w
  = (Throw (invalidVaultStatus "Can only check in on active vaults"), w)
  ∧ (SpellBuilder.validateBeneficiaries newBeneficiaries = true →
     updateBeneficiaries env vaultId newBeneficiaries w
     = (Throw (invalidVaultStatus
                 "Can only update beneficiaries on active vaults"), w)).
Proof.
  intros Hcache Hstatus. pose proof (getVault_cached vaultId w v Hcache) as Hget.
  split.
  - unfold checkin. rewrite (run_after _ _ _ _ _ _ Hget).
    rewrite bool_decide_eq_false_2 by done. by run.
  - intros Hvalid. unfold updateBeneficiaries. rewrite Hvalid. simpl.
    rewrite (run_after _ _ _ _ _ _ Hget).
    rewrite bool_decide_eq_false_2 by done. by run.
Qed.

End RecordUpdates.

(** X19. An operation that returns has rewritten the record it read in the
    cache and in the storage alike: a check-in moves the unlock block to
    the height the chain answered plus the delay and the unlock date to
    the clock plus ten minutes per block of delay; an update does the same
    and replaces the beneficiaries; a distribution sets the status to
    [Distributed]; every other field is kept. *)
Theorem returning_operation_updates_record (env : Env) (vaultId : string)
    (w : World) (v : Vault) (newBeneficiaries : list Beneficiary)
    (newTxid : string) :
  (VaultService.getVault vaultId w).1 = Ok v →
  ((VaultService.checkin env vaultId w).1 = Ok newTxid →
   checkedIn env vaultId v (VaultService.checkin env vaultId w).2)
  ∧ ((VaultService.updateBeneficiaries env vaultId newBeneficiaries w).1
     = Ok newTxid →
     updated env vaultId newBeneficiaries v
       (VaultService.updateBeneficiaries env vaultId newBeneficiaries w).2)
  ∧ ((VaultService.distribute env vaultId w).1 = Ok newTxid →
     vaultsCache (VaultService.distribute env vaultId w).2 !! vaultId
     = Some (VaultService.with_status Distributed v)
     ∧ vaultStorage (VaultService.distribute env vaultId w).2 !! id v
       = Some (VaultService.with_status Distributed v)).
Proof.
  intros Hget. split; [|split].
  - by apply checkin_records.
  - by apply updateBeneficiaries_records.
  - by apply distribute_records.
Qed.

Lemma returning_operation_updates_record_witness :
  let env := exampleEnv 1000 800000 [] psbtSigner openNode in
  let w := worldWithVault (exampleVault 100 50 150) in
  (VaultService.getVault "f00d:0" w).1 = Ok (exampleVault 100 50 150)
  ∧ (VaultService.checkin env "f00d:0" w).1 = Ok "f00d"
  ∧ checkedIn env "f00d:0" (exampleVault 100 50 150)
      (VaultService.checkin env "f00d:0" w).2
  ∧ vaultStorage (VaultService.distribute env "f00d:0" w).2 !! "f00d:0"
    = Some (VaultService.with_status Distributed (exampleVault 100 50 150)).
Proof.
  intros env w.
  destruct (returning_operation_updates_record env "f00d:0" w
              (exampleVault 100 50 150) [] "f00d" eq_refl)
    as (Hcheckin & _ & Hdistribute).
  split; [reflexivity|]. split; [reflexivity|].
  split; [by apply Hcheckin | by apply Hdistribute].
Defined.

(** X20. On a vault that is not active, [checkin] and [updateBeneficiaries]
    throw [INVALID_VAULT_STATUS] without calling any collaborator; after a
    distribution has returned the vault is in that state, and both
    operations throw and leave the world as it is. *)
Theorem inactive_vault_rejected (env : Env) (vaultId : string) (w : World)
    (v : Vault) (newBeneficiaries : list Beneficiary) (distributeTxid : string) :
  (VaultService.getVault vaultId w).1 = Ok v →
  SpellBuilder.validateBeneficiaries newBeneficiaries = true →
  (vault_status v ≠ Active →
   (VaultService.checkin env vaultId w).1
   = Throw (VaultService.invalidVaultStatus "Can only check in on active vaults")
   ∧ (VaultService.updateBeneficiaries env vaultId newBeneficiaries w).1
     = Throw (VaultService.invalidVaultStatus
                "Can only update beneficiaries on active vaults")
   ∧ trace (VaultService.checkin env vaultId w).2 = trace w
   ∧ trace (VaultService.updateBeneficiaries env vaultId newBeneficiaries w).2
     = trace w)
  ∧ ((VaultService.distribute env vaultId w).1 = Ok distributeTxid →
     let w' := (VaultService.distribute env vaultId w).2 in
     VaultService.checkin env vaultId w'
     = (Throw (VaultService.invalidVaultStatus
                 "Can only check in on active vaults"), w')
     ∧ VaultService.updateBeneficiaries env vaultId newBeneficiaries w'
       = (Throw (VaultService.invalidVaultStatus
                   "Can only update beneficiaries on active vaults"), w')).
Proof.
  intros Hget Hvalid. split.
  - intros Hstatus.
    destruct (getVault_run vaultId w v Hget) as (wc & Hrun & Htr & Hcache).
    destruct (inactive_rejected env vaultId wc v newBeneficiaries Hcache Hstatus)
      as [Hcheckin Hupdate].
    specialize (Hupdate Hvalid).
    assert (VaultService.checkin env vaultId w
            = VaultService.checkin env vaultId wc) as ->.
    { unfold VaultService.checkin.
      rewrite (run_after _ _ _ _ _ _ Hrun).
      by rewrite (run_after _ _ _ _ _ _ (getVault_cached vaultId wc v Hcache)). }
    assert (VaultService.updateBeneficiaries env vaultId newBeneficiaries w
            = VaultService.updateBeneficiaries env vaultId newBeneficiaries wc)
      as ->.
    { unfold VaultService.updateBeneficiaries. rewrite Hvalid. simpl.
      rewrite (run_after _ _ _ _ _ _ Hrun).
      by rewrite (run_after _ _ _ _ _ _ (getVault_cached vaultId wc v Hcache)). }
    by rewrite Hcheckin, Hupdate.
  - intros Hret w'.
    destruct (distribute_records env vaultId w v distributeTxid Hget Hret)
      as [Hcache _].
    destruct (inactive_rejected env vaultId w' _ newBeneficiaries Hcache)
      as [Hcheckin Hupdate]; [done|].
    split; [done | by apply Hupdate].
Qed.

Lemma inactive_vault_rejected_witness :
  let env := exampleEnv 1000 800000 [] psbtSigner openNode in
  (VaultService.getVault "f00d:0" (worldWithVault distributedVault)).1
  = Ok distributedVault
  ∧ SpellBuilder.validateBeneficiaries [heir "h3" 100] = true
  ∧ vault_status distributedVault ≠ Active
  ∧ (VaultService.checkin env "f00d:0" (worldWithVault distributedVault)).1
    = Throw (VaultService.invalidVaultStatus "Can only check in on active vaults")
  ∧ trace (VaultService.checkin env "f00d:0" (worldWithVault distributedVault)).2
    = [].
Proof.
  intros env.
  destruct (inactive_vault_rejected env "f00d:0" (worldWithVault distributedVault)
              distributedVault [heir "h3" 100] "f00d" eq_refl eq_refl)
    as (Hinactive & _).
  destruct Hinactive as (Hcheckin & _ & Htrace & _); [done|].
  split; [reflexivity|]. split; [reflexivity|]. split; [done|]. by split.
Defined.

(** ** The record of a new vault *)

Section Created.

Import UTXOLockService VaultService.

Variable env : Env.

Ltac step_any :=
  eapply (hoare_step (λ _, True) any_world (λ _, True));
    [ | by intros ? | by intros ? | intros ? ? ].

Lemma createVaultLocked_kept amount bs delay walletState wallet fundingUTXO id :
  hoare (λ _, True)
    (createVaultLocked env amount bs delay walletState wallet fundingUTXO id)
    (kept env amount delay bs) (λ _ _, True).
Proof.
  unfold createVaultLocked.
  step_any; [by apply (steps_getCurrentBlockHeight env)|].
  step_any; [by apply (steps_getFeeEstimates env)|].
  step_any; [apply steps_lift_eq|].
  step_any; [by apply (steps_getRawTransaction env)|].
  step_any; [by apply (steps_buildProverRequest env)|].
  step_any; [by apply (steps_proveSpell env)|].
  match goal with |- hoare _ (let '(_, _) := ?r in _) _ _ =>
    destruct r as [commitTx spellTx] end.
  step_any; [apply steps_lift_eq|].
  step_any; [apply steps_lift_eq|].
  step_any.
  { apply (steps_try_catch _ _ (λ _, True));
      [by apply (steps_broadcastPackage env)|].
    intros _. by apply (steps_signAndBroadcast env). }
  step_any; [by apply steps_unlock|].
  step_any; [apply (steps_unlockDate env)|].
  intros w' _. unfold saveVaultToStorage. run. simpl. cbv beta in *.
  eexists. split; [|split; apply lookup_insert_eq].
  repeat match goal with Hh : ex _ |- _ => destruct Hh as [? Hh] end.
  subst. repeat split; simpl; eauto.
  eexists. split; [reflexivity|]. done.
Qed.

Lemma classify_never_returns {A} fundingUTXO e (Q : A → World → Prop) :
  hoare (λ _, True) (classifyCreateError env fundingUTXO e) Q (λ _ _, True).
Proof.
  intros w _.
  destruct (classifyCreateError_throws env (A:=A) fundingUTXO e w)
    as (e' & w' & -> & _). done.
Qed.

Lemma createVault_kept amount bs delay :
  hoare (λ _, True) (createVault env amount bs delay)
    (λ vaultTxid w', kept env amount delay bs vaultTxid w'
                     ∧ SpellBuilder.totalPercentage bs = 100)
    (λ _ _, True).
Proof.
  unfold createVault. unfold createVaultPrepare.
  destruct (negb (SpellBuilder.validateBeneficiaries bs)) eqn:Hvalid.
  { intros w _. rewrite run_bind, run_try_catch. run.
    destruct (classifyCreateError_throws env (A:=WalletState * WalletKind)
                None validationError w) as (e' & w' & -> & _). done. }
  apply negb_false_iff, validateBeneficiaries_spec in Hvalid.
  step_any.
  { apply (steps_try_catch _ _ (λ _, True)).
    - eapply steps_bind; [apply steps_getActiveWallet|]. intros active _.
      destruct active; [by apply steps_ret | apply steps_throw].
    - intros e. by apply steps_classify_any. }
  match goal with |- hoare _ (let '(_, _) := ?r in _) _ _ =>
    destruct r as [walletState wallet] end.
  step_any; [by apply steps_select|].
  eapply hoare_try_catch with (E' := λ _ _, True);
    [|intros e; apply classify_never_returns].
  unfold createVaultFunded.
  match goal with |- hoare _ (match ?x with _ => _ end) _ _ =>
    destruct x as [fundingUTXO|]; [|by apply hoare_throw] end.
  case_bool_decide; [by apply hoare_throw|].
  step_any; [by apply steps_lock|].
  eapply hoare_try_catch with (E' := λ _ _, True).
  - eapply hoare_conseq; [apply createVaultLocked_kept | done | | done].
    intros txid' w' Hkept. by split.
  - intros e. step_any; [by apply steps_unlock|]. by apply hoare_throw.
Qed.

End Created.

(** X21. When [createVault] returns a transaction id, the storage holds
    under that id and output 0 a record that [getVault] returns: active,
    of the amount, beneficiaries and delay asked for, created at the
    height the chain answered and unlocking one delay later; and the
    percentages asked for add up to 100. *)
Theorem created_vault_is_recorded (env : Env) (amount delay : Z)
    (bs : list Beneficiary) (w : World) (vaultTxid : string) :
  (VaultService.createVault env amount bs delay w).1 = Ok vaultTxid →
  let w' := (VaultService.createVault env amount bs delay w).2 in
  ∃ vault,
    createdRecord env amount delay bs vaultTxid vault
    ∧ vaultStorage w' !! (vaultTxid +:+ ":0") = Some vault
    ∧ VaultService.getVault (vaultTxid +:+ ":0") w' = (Ok vault, w')
    ∧ SpellBuilder.totalPercentage bs = 100.
Proof.
  intros Hret w'. pose proof (createVault_kept env amount bs delay w I) as Hkept.
  subst w'. destruct (VaultService.createVault _ _ _ _ _) as [[a|e] w'];
    [|done].
  simpl in *. injection Hret as ->.
  destruct Hkept as [(vault & Hrec & Hcache & Hstore) Hsum].
  exists vault. split; [done|]. split; [done|].
  split; [by apply getVault_cached | done].
Qed.

Lemma created_vault_is_recorded_witness :
  let env := exampleEnv 1000 800000 [utxoA; utxoB] psbtSigner openNode in
  let run := VaultService.createVault env 4000 [heir "h1" 60; heir "h2" 40] 144
               emptyWorld in
  run.1 = Ok "f00d"
  ∧ ∃ vault,
      createdRecord env 4000 144 [heir "h1" 60; heir "h2" 40] "f00d" vault
      ∧ vaultStorage run.2 !! "f00d:0" = Some vault
      ∧ VaultService.getVault "f00d:0" run.2 = (Ok vault, run.2)
      ∧ SpellBuilder.totalPercentage [heir "h1" 60; heir "h2" 40] = 100.
Proof.
  intros env run. split; [reflexivity|].
  apply (created_vault_is_recorded env 4000 144 [heir "h1" 60; heir "h2" 40]
           emptyWorld "f00d").
  reflexivity.
Defined.

(** ** What [createVault] asks the proof service *)

Section Funded.

Import UTXOLockService VaultService.

Variable env : Env.
Variable amount : Z.

Abbreviation ok := (requests_funded amount).

Ltac step := eapply steps_bind; [ | intros ? ? ].

Lemma halfHourFeeOrDefault_nonzero (feeEstimates : FeeEstimates) :
  ¬ (halfHourFeeOrDefault feeEstimates == 0)%Q.
Proof.
  unfold halfHourFeeOrDefault.
  destruct (Qeq_bool (halfHourFee feeEstimates) 0) eqn:Hzero; [done|].
  by apply Qeq_bool_neq.
Qed.

Lemma steps_request {R : World → World → Prop}
    `{!Reflexive R, !Transitive R, !TraceFrame R} theSpell prevTxs fundingUtxo
    fundingUtxoValue changeAddress feeRate :
  steps ok R
    (buildProverRequest env theSpell prevTxs fundingUtxo fundingUtxoValue
       changeAddress feeRate)
    (λ request, spell request = theSpell
                ∧ funding_utxo request = fundingUtxo
                ∧ funding_utxo_value request = fundingUtxoValue
                ∧ change_address request = changeAddress
                ∧ fee_rate request = feeRate).
Proof.
  unfold buildProverRequest. apply steps_try_catch.
  - eapply steps_bind; [apply steps_call; by_request|].
    intros wasm _. by apply steps_ret.
  - intros e. apply steps_throw.
Qed.

Lemma createVaultLocked_funded bs delay walletState wallet fundingUTXO id :
  3000 <= value fundingUTXO → amount <= value fundingUTXO →
  steps ok any_world
    (createVaultLocked env amount bs delay walletState wallet fundingUTXO id)
    (λ _, True).
Proof.
  intros Hmin Hamount. unfold createVaultLocked.
  step; [apply steps_getCurrentBlockHeight; by_request|].
  step; [apply steps_getFeeEstimates; by_request|].
  step; [apply steps_lift_eq|].
  step; [apply steps_getRawTransaction; by_request|].
  step; [apply steps_request|].
  step.
  { apply steps_proveSpell. cbv beta in *. intros request [= <-].
    match goal with
    | Hreq : spell _ = _ ∧ _, Hbuilt : SpellBuilder.buildCreateVaultSpell _ _ _ = Ok _
      |- _ => destruct Hreq as (Hs & Hf & Hv & Hc & Hr);
              injection Hbuilt as <-
    end.
    unfold funded. rewrite Hs, Hf, Hv, Hc, Hr. simpl.
    split; [done|]. split; [done|].
    split; [apply halfHourFeeOrDefault_nonzero|]. split; [done|].
    by eexists. }
  match goal with |- steps _ _ (let '(_, _) := ?r in _) _ =>
    destruct r as [commitTx spellTx] end.
  step; [apply steps_lift_eq|].
  step; [apply steps_lift_eq|].
  step.
  { apply (steps_try_catch _ _ (λ _, True)).
    - apply steps_broadcastPackage. by_request.
    - intros _. apply steps_signAndBroadcast; intros; by_request. }
  step; [apply steps_unlock; [intros; by_request | done]|].
  step; [apply steps_calculateUnlockDate|].
  step; [apply steps_now|].
  step; [apply steps_now|].
  step; [by apply steps_modify|].
  step; [|by apply steps_ret].
  apply steps_save; [done | by_request].
Qed.

Lemma createVault_funded bs delay :
  steps ok any_world (createVault env amount bs delay) (λ _, True).
Proof.
  unfold createVault.
  step; [apply steps_prepare; [intros; by_request | done]|].
  match goal with |- steps _ _ (let '(_, _) := ?r in _) _ =>
    destruct r as [walletState wallet] end.
  step; [apply steps_select; [intros; by_request | done]|].
  apply steps_try_catch;
    [|intros e; apply steps_classify_any; [intros; by_request | done]].
  unfold createVaultFunded. cbv beta in *.
  match goal with
  | Hsel : ∀ u, ?r = Some u → _ |- steps _ _ (match ?r with _ => _ end) _ =>
      destruct r as [fundingUTXO|]; [|apply steps_throw];
      destruct (Hsel fundingUTXO eq_refl) as [_ Hamount]
  end.
  unfold MIN_UTXO_VALUE. case_bool_decide; [apply steps_throw|].
  step; [apply steps_lock; [intros; by_request | done]|].
  apply steps_try_catch; [apply createVaultLocked_funded; [lia | done]|].
  intros innerError.
  step; [apply steps_unlock; [intros; by_request | done] | apply steps_throw].
Qed.

End Funded.

(** X22. Every request [createVault] sends to the proof service spends one
    plain funding UTXO worth at least the amount and at least 3000 sats
    into one output of exactly the amount, to the change address, at a fee
    rate that is not zero. *)
Theorem createVault_requests_funded (env : Env) (amount delay : Z)
    (bs : list Beneficiary) (w : World) :
  ∃ evs,
    trace (VaultService.createVault env amount bs delay w).2 = trace w ++ evs
    ∧ ∀ request, ProveSpell request ∈ evs → funded amount request.
Proof.
  destruct (createVault_funded env amount bs delay w) as ((evs & Htr & Hok) & _).
  exists evs. split; [done|]. intros request Hin.
  rewrite Forall_forall in Hok. by apply (Hok _ Hin).
Qed.

(** ** A rejected funding UTXO is remembered *)

Section Remembered.

Import UTXOLockService VaultService.

Variable env : Env.
Variable w0 : World.

Abbreviation plain := (λ ev : Event, ¬ classifies ev).

Ltac by_plain := intros (? & ? & Hev); discriminate Hev.
Ltac step := eapply steps_bind; [ | intros ? ? ].
Ltac lines_plain :=
  apply steps_log; repeat (apply List.Forall_cons; [by_plain|]);
  apply List.Forall_nil.

Lemma stable_unmarked : stable plain any_world (unmarked w0).
Proof.
  intros w w' evs (pre & Htr & Hpre) Htr' Hevs _.
  exists (pre ++ evs). rewrite Htr', Htr, app_assoc. split; [done|].
  by apply Forall_app.
Qed.

Ltac step_unmarked :=
  eapply (hoare_step plain any_world (unmarked w0));
    [ | apply stable_unmarked | intros; by left | intros ? ? ].

Lemma lock_plain id ty :
  steps plain any_world (utxoLockService_lockUTXO env id ty) (λ _, True).
Proof.
  unfold utxoLockService_lockUTXO. step; [apply steps_now|].
  step; [by apply (steps_gets _ (λ _, True))|].
  unfold lockUTXO. destruct (findLock _ _);
    (step; [by apply steps_modify | lines_plain]).
Qed.

Lemma unlock_plain id :
  steps plain any_world (utxoLockService_unlockUTXO id) (λ _, True).
Proof.
  unfold utxoLockService_unlockUTXO.
  step; [by apply (steps_gets _ (λ _, True))|].
  unfold unlockUTXO. case_decide;
    (step; [by apply steps_modify | lines_plain]).
Qed.

Lemma select_plain candidates requiredAmount :
  steps plain any_world (selectFundingUTXO env candidates requiredAmount)
    (λ _, True).
Proof.
  intros w.
  destruct (selectFundingUTXO_run env candidates requiredAmount w)
    as (lines & -> & Hlines).
  simpl. split; [|done]. exists (Console <$> lines). split; [done|].
  apply Forall_fmap. eapply Forall_impl; [exact Hlines|].
  intros line Hline. by destruct (selection_line_calm line Hline) as (_ & _ & ?).
Qed.

Lemma createVaultLocked_plain amount bs delay walletState wallet fundingUTXO id :
  steps plain any_world
    (createVaultLocked env amount bs delay walletState wallet fundingUTXO id)
    (λ _, True).
Proof.
  unfold createVaultLocked.
  step; [apply steps_getCurrentBlockHeight; by_plain|].
  step; [apply steps_getFeeEstimates; by_plain|].
  step; [apply steps_lift_eq|].
  step; [apply steps_getRawTransaction; by_plain|].
  step; [apply steps_buildProverRequest; by_plain|].
  step; [apply steps_proveSpell; by_plain|].
  match goal with |- steps _ _ (let '(_, _) := ?r in _) _ =>
    destruct r as [commitTx spellTx] end.
  step; [apply steps_lift_eq|].
  step; [apply steps_lift_eq|].
  step.
  { apply (steps_try_catch _ _ (λ _, True)).
    - apply steps_broadcastPackage. by_plain.
    - intros _. apply steps_signAndBroadcast; intros; by_plain. }
  step; [apply unlock_plain|].
  step; [apply steps_calculateUnlockDate|].
  step; [apply steps_now|].
  step; [apply steps_now|].
  step; [by apply steps_modify|].
  step; [|by apply steps_ret].
  apply steps_save; [done | by_plain].
Qed.

Lemma classify_marks {A} fundingUTXO e :
  hoare (unmarked w0) (classifyCreateError (A:=A) env fundingUTXO e)
    (λ _ _, False) (λ e' w, unmarked w0 w ∨ marked w0 e' w).
Proof.
  intros w Hw. unfold classifyCreateError.
  assert (match (if instanceof_CharmVaultError e then throw e
                 else throw (CharmVaultError
                               ("Failed to create vault: " +:+ message_of e)
                               "CREATE_VAULT_ERROR" (Some e)) : M A) w with
          | (Ok _, _) => False
          | (Throw e', w') => unmarked w0 w' ∨ marked w0 e' w'
          end) as Hwrap.
  { destruct (instanceof_CharmVaultError e); run; by left. }
  destruct fundingUTXO as [utxo|]; [|done].
  destruct (includes _ _) eqn:Hdup; [|done].
  rewrite run_bind, markUTXOFailed_run. run. right.
  destruct Hw as (pre & Htr & Hpre).
  eexists e, pre, _, _, _. split; [done|]. split; [done|].
  split; [simpl; by rewrite Htr, <- app_assoc|]. split; [done|].
  simpl. apply lookup_insert_eq.
Qed.

Lemma createVault_marks amount bs delay :
  hoare (unmarked w0) (createVault env amount bs delay)
    (λ _, unmarked w0) (λ e w, unmarked w0 w ∨ marked w0 e w).
Proof.
  unfold createVault.
  eapply hoare_bind with (Q1 := λ _, unmarked w0).
  { eapply hoare_try_catch with (E' := λ _, unmarked w0).
    - unfold createVaultPrepare. destruct (negb _); [by apply hoare_throw|].
      eapply (hoare_step plain any_world (unmarked w0));
        [apply steps_getActiveWallet | apply stable_unmarked | done|].
      intros active _.
      destruct active; [by apply hoare_ret | by apply hoare_throw].
    - intros e. eapply hoare_conseq; [apply classify_marks | done | done | done]. }
  intros [walletState wallet].
  step_unmarked; [apply select_plain|].
  eapply hoare_try_catch with (E' := λ _, unmarked w0).
  2:{ intros e. eapply hoare_conseq; [apply classify_marks | done | done | done]. }
  unfold createVaultFunded.
  match goal with |- hoare _ (match ?x with _ => _ end) _ _ =>
    destruct x as [fundingUTXO|]; [|by apply hoare_throw] end.
  case_bool_decide; [by apply hoare_throw|].
  eapply (hoare_step plain any_world (unmarked w0));
    [apply lock_plain | apply stable_unmarked | done|].
  intros _ _.
  eapply hoare_conseq;
    [apply (steps_hoare (ok:=plain) (R:=any_world) _ (λ _, True));
       [|apply stable_unmarked]
    | done | by intros ? ? [? _] | done].
  apply steps_try_catch; [apply createVaultLocked_plain|].
  intros innerError. step; [apply unlock_plain | apply steps_throw].
Qed.

End Remembered.

(** X23. If [createVault] records a failure against a UTXO, it does so as
    the last thing it does: it then throws [DUPLICATE_UTXO], caused by an
    error whose message says [duplicate funding UTXO], and the failure
    memory holds the attempt it has just logged for that UTXO. *)
Theorem duplicate_funding_utxo_is_remembered (env : Env) (amount delay : Z)
    (bs : list Beneficiary) (w : World) (utxoId : string) (attempt : Z)
    (evs : History) :
  trace (VaultService.createVault env amount bs delay w).2 = trace w ++ evs →
  Console (WarnMarkedFailed utxoId attempt) ∈ evs →
  ∃ cause t,
    (VaultService.createVault env amount bs delay w).1
    = Throw (VaultService.duplicateUTXO cause)
    ∧ includes (message_of cause) "duplicate funding UTXO" = true
    ∧ code_of (VaultService.duplicateUTXO cause) = Some "DUPLICATE_UTXO"
    ∧ failedUTXOs (VaultService.createVault env amount bs delay w).2 !! utxoId
      = Some {| count := attempt; lastFailed := t |}
    ∧ last evs = Some (Console (WarnMarkedFailed utxoId attempt)).
Proof.
  intros Htr Hin.
  assert (unmarked w w) as Hstart by (exists []; by rewrite app_nil_r).
  pose proof (createVault_marks env w amount bs delay w Hstart) as Hrun.
  assert (∀ w', unmarked w w' → trace w' = trace w ++ evs → False) as Hclean.
  { intros w' (pre & Hpre & Hplain) Hevs. rewrite Hpre in Hevs.
    apply app_inv_head in Hevs as ->. rewrite Forall_forall in Hplain.
    apply (Hplain _ Hin). by eexists _, _. }
  destruct (VaultService.createVault _ _ _ _ _) as [[a|e] w']; simpl in *.
  - by destruct (Hclean w').
  - destruct Hrun as [Hun|(cause & pre & id' & n & t & -> & Hdup & Hpre & Hplain & Hfail)];
      [by destruct (Hclean w')|].
    rewrite Hpre in Htr. apply app_inv_head in Htr as <-.
    apply elem_of_app in Hin as [Hin|Hin].
    { rewrite Forall_forall in Hplain. destruct (Hplain _ Hin). by eexists _, _. }
    apply list_elem_of_singleton in Hin. injection Hin as -> ->.
    exists cause, t. split; [done|]. split; [done|]. split; [done|].
    split; [done|]. by rewrite last_snoc.
Qed.

Lemma duplicate_funding_utxo_is_remembered_witness :
  let run := VaultService.createVault (duplicateEnv 1000 800000 [utxoA; utxoB])
               4000 [heir "h1" 60; heir "h2" 40] 144 emptyWorld in
  consoleLines (trace run.2)
  = [LogLocked "A:0"; LogUnlocked "A:0"; WarnMarkedFailed "A:0" 1]
  ∧ ∃ cause t,
      run.1 = Throw (VaultService.duplicateUTXO cause)
      ∧ includes (message_of cause) "duplicate funding UTXO" = true
      ∧ code_of (VaultService.duplicateUTXO cause) = Some "DUPLICATE_UTXO"
      ∧ failedUTXOs run.2 !! "A:0" = Some {| count := 1; lastFailed := t |}
      ∧ last (trace run.2) = Some (Console (WarnMarkedFailed "A:0" 1)).
Proof.
  intros run. split; [reflexivity|].
  apply (duplicate_funding_utxo_is_remembered
           (duplicateEnv 1000 800000 [utxoA; utxoB]) 4000 144
           [heir "h1" 60; heir "h2" 40] emptyWorld "A:0" 1 (trace run.2));
    [reflexivity|].
  vm_compute.
  repeat first [apply list_elem_of_here | apply list_elem_of_further].
Defined.

(** ** Records without beneficiaries, delays out of range *)

Section Edges.

Import UTXOLockService VaultService.

Variable env : Env.

Ltac step := eapply steps_bind; [ | intros ? ? ].
Ltac step_any :=
  eapply (hoare_step (λ _, True) any_world (λ _, True));
    [ | by intros ? | by intros ? | intros ? ? ].

Lemma distribute_unfunded vaultId w v :
  (getVault vaultId w).1 = Ok v → vault_beneficiaries v = [] →
  (∃ evs, trace (distribute env vaultId w).2 = trace w ++ evs
          ∧ Forall reads_chain evs)
  ∧ ∀ a, (distribute env vaultId w).1 ≠ Ok a.
Proof.
  intros Hget Hnone.
  destruct (getVault_run vaultId w v Hget) as (wc & Hrun & Htr & _).
  unfold distribute. rewrite (run_after _ _ _ _ _ _ Hrun).
  match goal with |- context [try_catch ?body ?h wc] =>
    assert (steps reads_chain any_world (try_catch body h) (λ _, False))
      as Hsteps end.
  { apply steps_try_catch; [|intros e; apply steps_rewrap_any].
    step; [apply steps_getCurrentBlockHeight; by left|].
    case_bool_decide; [apply steps_throw|].
    step; [apply steps_getFeeEstimates; right; by left|].
    step; [apply steps_lift_eq|].
    step; [apply steps_getRawTransaction; right; right; by eexists|].
    step; [rewrite Hnone; apply (steps_throw _ (λ _, False))|].
    done. }
  destruct (Hsteps wc) as ((evs & Hevs & Hok) & _ & Hnever).
  split; [exists evs; by rewrite Hevs, Htr|].
  intros a Ha. by apply (Hnever a).
Qed.

Lemma unlockDate_throws {ok : Event → Prop} currentBlock delayBlocks :
  (∀ h, ¬ (-8640000000000000 <= Date_now env h + delayBlocks * 10 * 60 * 1000
           <= 8640000000000000)) →
  steps ok any_world (calculateUnlockDate env currentBlock delayBlocks)
    (λ _, False).
Proof.
  intros Hrange. unfold calculateUnlockDate, now, toISOString. intros w. run.
  simpl. split; [exists []; by rewrite app_nil_r|]. split; [done|].
  rewrite bool_decide_eq_false_2 by apply Hrange. done.
Qed.

Lemma createVault_out_of_range amount bs delay :
  (∀ h, ¬ (-8640000000000000 <= Date_now env h + delay * 10 * 60 * 1000
           <= 8640000000000000)) →
  hoare (λ _, True) (createVault env amount bs delay)
    (λ _ _, False) (λ _ _, True).
Proof.
  intros Hrange. unfold createVault.
  step_any; [by apply steps_prepare|].
  match goal with |- hoare _ (let '(_, _) := ?r in _) _ _ =>
    destruct r as [walletState wallet] end.
  step_any; [by apply steps_select|].
  eapply hoare_try_catch with (E' := λ _ _, True);
    [|intros e; apply classify_never_returns].
  unfold createVaultFunded.
  match goal with |- hoare _ (match ?x with _ => _ end) _ _ =>
    destruct x as [fundingUTXO|]; [|by apply hoare_throw] end.
  case_bool_decide; [by apply hoare_throw|].
  step_any; [by apply steps_lock|].
  eapply hoare_try_catch with (E' := λ _ _, True).
  2:{ intros e. step_any; [by apply steps_unlock|]. by apply hoare_throw. }
  unfold createVaultLocked.
  step_any; [by apply (steps_getCurrentBlockHeight env)|].
  step_any; [by apply (steps_getFeeEstimates env)|].
  step_any; [apply steps_lift_eq|].
  step_any; [by apply (steps_getRawTransaction env)|].
  step_any; [by apply (steps_buildProverRequest env)|].
  step_any; [by apply (steps_proveSpell env)|].
  match goal with |- hoare _ (let '(_, _) := ?r in _) _ _ =>
    destruct r as [commitTx spellTx] end.
  step_any; [apply steps_lift_eq|].
  step_any; [apply steps_lift_eq|].
  step_any.
  { apply (steps_try_catch _ _ (λ _, True));
      [by apply (steps_broadcastPackage env)|].
    intros _. by apply (steps_signAndBroadcast env). }
  step_any; [by apply steps_unlock|].
  eapply (hoare_step (λ _, True) any_world (λ _, True));
    [by apply unlockDate_throws | by intros ? | by intros ? | by intros ? []].
Qed.

Lemma checkin_out_of_range vaultId w v :
  (getVault vaultId w).1 = Ok v →
  (∀ h, ¬ (-8640000000000000
           <= Date_now env h + triggerDelayBlocks v * 10 * 60 * 1000
           <= 8640000000000000)) →
  ∀ a, (checkin env vaultId w).1 ≠ Ok a.
Proof.
  intros Hget Hrange.
  destruct (getVault_run vaultId w v Hget) as (wc & Hrun & _ & _).
  unfold checkin. rewrite (run_after _ _ _ _ _ _ Hrun).
  match goal with |- context [try_catch ?body ?h wc] =>
    assert (steps (λ _, True) any_world (try_catch body h) (λ _, False))
      as Hsteps end.
  { apply steps_try_catch; [|intros e; apply steps_rewrap_any].
    destruct (negb _); [apply steps_throw|].
    step; [apply steps_getActiveWallet|].
    match goal with |- steps _ _ (match ?x with _ => _ end) _ =>
      destruct x as [[walletState wallet]|]; [|apply steps_throw] end.
    step; [by apply steps_getCurrentBlockHeight|].
    step; [by apply steps_getFeeEstimates|].
    step; [apply steps_lift_eq|].
    step; [by apply steps_getRawTransaction|].
    step; [by apply steps_buildProverRequest|].
    step; [by apply steps_proveSpell|].
    step; [by apply steps_signBothAndBroadcast|].
    step; [by apply steps_modify|].
    step; [by apply unlockDate_throws|]. done. }
  destruct (Hsteps wc) as (_ & _ & Hnever). intros a Ha. by apply (Hnever a).
Qed.

End Edges.

(** X24. A distribution of a vault whose record names no beneficiary
    throws, and before that it has only looked at the chain: no proof is
    requested, nothing is signed or broadcast, nothing is written. *)
Theorem distribute_without_beneficiaries (env : Env) (vaultId : string)
    (w : World) (v : Vault) :
  (VaultService.getVault vaultId w).1 = Ok v →
  vault_beneficiaries v = [] →
  (∃ e, (VaultService.distribute env vaultId w).1 = Throw e)
  ∧ ∃ evs, trace (VaultService.distribute env vaultId w).2 = trace w ++ evs
           ∧ Forall reads_chain evs.
Proof.
  intros Hget Hnone.
  destruct (distribute_unfunded env vaultId w v Hget Hnone) as [Hevs Hnever].
  split; [|done].
  destruct (VaultService.distribute env vaultId w).1 as [a|e]; [|by eexists].
  by destruct (Hnever a).
Qed.

Lemma distribute_without_beneficiaries_witness :
  let env := exampleEnv 1000 800000 [] psbtSigner openNode in
  (VaultService.getVault "f00d:0" (worldWithVault orphanVault)).1
  = Ok orphanVault
  ∧ vault_beneficiaries orphanVault = []
  ∧ (∃ e, (VaultService.distribute env "f00d:0" (worldWithVault orphanVault)).1
          = Throw e)
  ∧ trace (VaultService.distribute env "f00d:0" (worldWithVault orphanVault)).2
    = [GetCurrentBlockHeight; GetFeeEstimates; GetRawTransaction "f00d"].
Proof.
  intros env.
  destruct (distribute_without_beneficiaries env "f00d:0"
              (worldWithVault orphanVault) orphanVault eq_refl eq_refl)
    as (Hthrows & _).
  split; [reflexivity|]. split; [reflexivity|]. split; [exact Hthrows|].
  reflexivity.
Defined.

(** X25. When the delay takes the unlock date outside the range of
    JavaScript dates, [createVault] never returns a transaction id, and
    neither does [checkin] on a vault of that delay: they throw. *)
Theorem unlock_date_out_of_range (env : Env) (amount delay : Z)
    (bs : list Beneficiary) (vaultId : string) (w : World) (v : Vault) :
  (∀ h, ¬ (-8640000000000000 <= Date_now env h + delay * 10 * 60 * 1000
           <= 8640000000000000)) →
  (∃ e, (VaultService.createVault env amount bs delay w).1 = Throw e)
  ∧ ((VaultService.getVault vaultId w).1 = Ok v →
     triggerDelayBlocks v = delay →
     ∃ e, (VaultService.checkin env vaultId w).1 = Throw e).
Proof.
  intros Hrange. split.
  - pose proof (createVault_out_of_range env amount bs delay Hrange w I) as Hrun.
    destruct (VaultService.createVault _ _ _ _ _) as [[a|e] w']; [done|].
    by eexists.
  - intros Hget Hdelay. rewrite <- Hdelay in Hrange.
    pose proof (checkin_out_of_range env vaultId w v Hget Hrange) as Hnever.
    destruct (VaultService.checkin env vaultId w).1 as [a|e]; [|by eexists].
    by destruct (Hnever a).
Qed.

Lemma unlock_date_out_of_range_witness :
  let env := exampleEnv 1000 800000 [utxoA; utxoB] psbtSigner openNode in
  let run := VaultService.createVault env 4000 [heir "h1" 60; heir "h2" 40]
               100000000000 emptyWorld in
  (∀ h, ¬ (-8640000000000000 <= Date_now env h + 100000000000 * 10 * 60 * 1000
           <= 8640000000000000))
  ∧ (∃ e, run.1 = Throw e)
  ∧ broadcasts (trace run.2) = [("c0", "5e")]
  ∧ vaultStorage run.2 = ∅.
Proof.
  intros env run.
  assert (∀ h, ¬ (-8640000000000000
                  <= Date_now env h + 100000000000 * 10 * 60 * 1000
                  <= 8640000000000000)) as Hrange.
  { intros h. simpl. lia. }
  split; [exact Hrange|].
  destruct (unlock_date_out_of_range env 4000 100000000000
              [heir "h1" 60; heir "h2" 40] "f00d:0" emptyWorld
              (exampleVault 100 50 150) Hrange) as (Hthrows & _).
  split; [exact Hthrows|]. split; reflexivity.
Defined.

(** ** Every proof request is well formed *)

Section WellFormed.

Import UTXOLockService VaultService.

Variable env : Env.

Abbreviation ok := (requests_well_formed env).

Ltac step := eapply steps_bind; [ | intros ? ? ].

Lemma steps_request_full {R : World → World → Prop}
    `{!Reflexive R, !Transitive R, !TraceFrame R} theSpell prevTxs fundingUtxo
    fundingUtxoValue changeAddress feeRate :
  steps ok R
    (buildProverRequest env theSpell prevTxs fundingUtxo fundingUtxoValue
       changeAddress feeRate)
    (λ request, ∃ wasmBase64,
       request = {| spell := theSpell;
                    binaries := {[ VITE_APP_VK env := wasmBase64 ]};
                    prev_txs := prevTxs;
                    funding_utxo := fundingUtxo;
                    funding_utxo_value := fundingUtxoValue;
                    change_address := changeAddress;
                    fee_rate := feeRate;
                    chain := "bitcoin" |}).
Proof.
  unfold buildProverRequest. apply steps_try_catch.
  - eapply steps_bind; [apply steps_call; by_request|].
    intros wasm _. apply steps_ret. by exists wasm.
  - intros e. apply steps_throw.
Qed.

Lemma well_formed_built (theSpell : SpellJSON) (input : SpellInput)
    prevTxHex fundingUtxo fundingUtxoValue changeAddress feeEstimates request :
  version theSpell = 8 → ins theSpell = [input] →
  apps theSpell
  = {[ "$00" := SpellBuilder.buildAppReference (VITE_APP_VK env)
                  (sha256_hex env) (utxo_id input) ]} →
  (∃ wasmBase64,
     request = {| spell := theSpell;
                  binaries := {[ VITE_APP_VK env := wasmBase64 ]};
                  prev_txs := [prevTxHex];
                  funding_utxo := fundingUtxo;
                  funding_utxo_value := fundingUtxoValue;
                  change_address := changeAddress;
                  fee_rate := halfHourFeeOrDefault feeEstimates;
                  chain := "bitcoin" |}) →
  ok (ProveSpell request).
Proof.
  intros Hversion Hins Happs [wasm ->] request' [= <-].
  split; [done|]. split; [done|]. split; [by exists wasm|].
  split; [apply halfHourFeeOrDefault_nonzero|]. split; [done|].
  by exists input.
Qed.

Lemma steps_signBoth_wf wallet proverResponse :
  steps ok any_world (signBothAndBroadcast env wallet proverResponse) (λ _, True).
Proof. apply steps_signBothAndBroadcast; intros; by_request. Qed.

Lemma checkin_well_formed vaultId :
  steps ok any_world (checkin env vaultId) (λ _, True).
Proof.
  unfold checkin. apply steps_try_catch; [|intros e; apply steps_rewrap_any].
  step; [by apply steps_getVault|].
  destruct (negb _); [apply steps_throw|].
  step; [apply steps_getActiveWallet|].
  match goal with |- steps _ _ (match ?x with _ => _ end) _ =>
    destruct x as [[walletState wallet]|]; [|apply steps_throw] end.
  step; [apply steps_getCurrentBlockHeight; by_request|].
  step; [apply steps_getFeeEstimates; by_request|].
  step; [apply steps_lift_eq|].
  step; [apply steps_getRawTransaction; by_request|].
  step; [apply steps_request_full|].
  step.
  { apply steps_proveSpell. cbv beta in *.
    match goal with
    | Hreq : ∃ _, _ = _, Hbuilt : SpellBuilder.buildCheckinSpell _ _ _ = Ok _
      |- _ => injection Hbuilt as <-;
              eapply well_formed_built; [| | |exact Hreq]; reflexivity
    end. }
  step; [apply steps_signBoth_wf|].
  step; [by apply steps_assign_cache|].
  step; [apply steps_calculateUnlockDate|].
  step; [by apply steps_assign_cache|].
  step; [apply steps_save; [done | by_request]|].
  by apply steps_ret.
Qed.

Lemma updateBeneficiaries_well_formed vaultId newBeneficiaries :
  steps ok any_world (updateBeneficiaries env vaultId newBeneficiaries)
    (λ _, True).
Proof.
  unfold updateBeneficiaries.
  apply steps_try_catch; [|intros e; apply steps_rewrap_any].
  destruct (negb _); [apply steps_throw|].
  step; [by apply steps_getVault|].
  destruct (negb _); [apply steps_throw|].
  step; [apply steps_getActiveWallet|].
  match goal with |- steps _ _ (match ?x with _ => _ end) _ =>
    destruct x as [[walletState wallet]|]; [|apply steps_throw] end.
  step; [apply steps_getCurrentBlockHeight; by_request|].
  step; [apply steps_getFeeEstimates; by_request|].
  step; [apply steps_lift_eq|].
  step; [apply steps_getRawTransaction; by_request|].
  step; [apply steps_request_full|].
  step.
  { apply steps_proveSpell. cbv beta in *.
    match goal with
    | Hreq : ∃ _, _ = _,
      Hbuilt : SpellBuilder.buildUpdateBeneficiariesSpell _ _ _ = Ok _
      |- _ => injection Hbuilt as <-;
              eapply well_formed_built; [| | |exact Hreq]; reflexivity
    end. }
  step; [apply steps_signBoth_wf|].
  step; [by apply steps_assign_cache|].
  step; [by apply steps_assign_cache|].
  step; [apply steps_calculateUnlockDate|].
  step; [by apply steps_assign_cache|].
  step; [apply steps_save; [done | by_request]|].
  by apply steps_ret.
Qed.

Lemma distribute_well_formed vaultId :
  steps ok any_world (distribute env vaultId) (λ _, True).
Proof.
  unfold distribute. apply steps_try_catch; [|intros e; apply steps_rewrap_any].
  step; [by apply steps_getVault|].
  step; [apply steps_getCurrentBlockHeight; by_request|].
  case_bool_decide; [apply steps_throw|].
  step; [apply steps_getFeeEstimates; by_request|].
  step; [apply steps_lift_eq|].
  step; [apply steps_getRawTransaction; by_request|].
  step.
  { match goal with |- steps _ _ (match ?x with _ => _ end) _ =>
      destruct x; [apply steps_throw | by apply (steps_ret _ (λ _, True))] end. }
  step; [apply steps_request_full|].
  step.
  { apply steps_proveSpell. cbv beta in *.
    match goal with
    | Hreq : ∃ _, _ = _,
      Hbuilt : SpellBuilder.buildDistributeSpell _ _ _ = Ok _
      |- _ => revert Hbuilt; unfold SpellBuilder.buildDistributeSpell;
              case_bool_decide; [done|]; intros [= <-];
              eapply well_formed_built; [| | |exact Hreq]; reflexivity
    end. }
  step; [apply steps_getActiveWallet|].
  match goal with |- steps _ _ (match ?x with _ => _ end) _ =>
    destruct x as [[walletState wallet]|]; [|apply steps_throw] end.
  step; [apply steps_signBoth_wf|].
  step; [by apply steps_assign_cache|].
  step; [apply steps_save; [done | by_request]|].
  by apply steps_ret.
Qed.

Lemma createVault_well_formed amount bs delay :
  steps ok any_world (createVault env amount bs delay) (λ _, True).
Proof.
  unfold createVault.
  step; [apply steps_prepare; [intros; by_request | done]|].
  match goal with |- steps _ _ (let '(_, _) := ?r in _) _ =>
    destruct r as [walletState wallet] end.
  step; [apply steps_select; [intros; by_request | done]|].
  apply steps_try_catch;
    [|intros e; apply steps_classify_any; [intros; by_request | done]].
  unfold createVaultFunded.
  match goal with |- steps _ _ (match ?r with _ => _ end) _ =>
    destruct r as [fundingUTXO|]; [|apply steps_throw] end.
  case_bool_decide; [apply steps_throw|].
  step; [apply steps_lock; [intros; by_request | done]|].
  apply steps_try_catch.
  2:{ intros innerError.
      step; [apply steps_unlock; [intros; by_request | done] | apply steps_throw]. }
  unfold createVaultLocked.
  step; [apply steps_getCurrentBlockHeight; by_request|].
  step; [apply steps_getFeeEstimates; by_request|].
  step; [apply steps_lift_eq|].
  step; [apply steps_getRawTransaction; by_request|].
  step; [apply steps_request_full|].
  step.
  { apply steps_proveSpell. cbv beta in *.
    match goal with
    | Hreq : ∃ _, _ = _,
      Hbuilt : SpellBuilder.buildCreateVaultSpell _ _ _ = Ok _
      |- _ => injection Hbuilt as <-;
              eapply well_formed_built; [| | |exact Hreq]; reflexivity
    end. }
  match goal with |- steps _ _ (let '(_, _) := ?r in _) _ =>
    destruct r as [commitTx spellTx] end.
  step; [apply steps_lift_eq|].
  step; [apply steps_lift_eq|].
  step.
  { apply (steps_try_catch _ _ (λ _, True)).
    - apply steps_broadcastPackage. by_request.
    - intros _. apply steps_signAndBroadcast; intros; by_request. }
  step; [apply steps_unlock; [intros; by_request | done]|].
  step; [apply steps_calculateUnlockDate|].
  step; [apply steps_now|].
  step; [apply steps_now|].
  step; [by apply steps_modify|].
  step; [|by apply steps_ret].
  apply steps_save; [done | by_request].
Qed.

End WellFormed.

(** X26. Through a session that creates a vault and then runs any
    check-ins, updates and distributions, every request sent to the proof
    service is for the Bitcoin chain, lists one previous transaction and
    the contract binary under the configured key, has a fee rate that is
    not zero, and carries a version-8 spell with one input, for the
    application derived from that input's id. *)
Theorem proof_requests_well_formed (env : Env) (amount delay : Z)
    (bs : list Beneficiary) (vaultId : string) (ops : list VaultOp) (w : World) :
  let w1 := (VaultService.createVault env amount bs delay w).2 in
  ∃ evs, trace (runOps env vaultId ops w1) = trace w ++ evs
    ∧ ∀ request, ProveSpell request ∈ evs → well_formed env request.
Proof.
  intros w1.
  destruct (createVault_well_formed env amount bs delay w)
    as ((evs1 & Htr1 & Hok1) & _).
  assert (∀ ops w1, ∃ evs,
            trace (runOps env vaultId ops w1) = trace w1 ++ evs
            ∧ Forall (requests_well_formed env) evs) as Hops.
  { clear. intros ops. induction ops as [|op ops IH]; intros w1.
    - exists []. by rewrite app_nil_r.
    - assert (steps (requests_well_formed env) any_world (runOp env vaultId op)
                (λ _, True)) as Hop.
      { destruct op; simpl;
          [apply checkin_well_formed | apply updateBeneficiaries_well_formed
          | apply distribute_well_formed]. }
      destruct (Hop w1) as ((evs1 & Htr1 & Hok1) & _).
      destruct (IH (runOp env vaultId op w1).2) as (evs2 & Htr2 & Hok2).
      exists (evs1 ++ evs2).
      change (runOps env vaultId (op :: ops) w1)
        with (runOps env vaultId ops (runOp env vaultId op w1).2).
      rewrite Htr2, Htr1, app_assoc. split; [done | by apply Forall_app]. }
  destruct (Hops ops w1) as (evs2 & Htr2 & Hok2).
  exists (evs1 ++ evs2). subst w1. rewrite Htr2, Htr1, app_assoc.
  split; [done|]. intros request Hin.
  assert (Forall (requests_well_formed env) (evs1 ++ evs2)) as Hall
    by (by apply Forall_app).
  rewrite Forall_forall in Hall. by apply (Hall _ Hin).
Qed.
